(** * Language_Modelling: the hangman game and its character n-gram guesser

    A shallow embedding of [src/Language_Modelling.ipynb]: the game loop
    [hangman], the table builders [convert_word], [get_unigram_counts] and
    [get_ngram_counts], the interpolation engine [get_ngram_prob] and the
    guess selector [ngram_guesser].

    Conventions of the embedding.
    - A Python [str] is a [string] (ASCII); a character is a string of
      length one, as in Python. [str.lower] is [lower], which is what it
      does on ASCII characters only: a statement that compares words with
      their lower-cased forms is about ASCII words ([ascii_word]).
    - A Python [int] is a [Z] or a [nat] (orders, indices); a Python [float]
      is an exact rational [Q]: rounding is outside the model, and so are
      underflow and overflow. A statement that needs a computed float to be
      non-zero is about weights between 0 and 1 and terms of at least
      [float_min], the smallest positive normal float.
    - A [dict]/[Counter]/[defaultdict] is a [gmap]; a [set] is a [gset].
    - The weight mappings ([lambdas]) are mutable objects that are passed by
      reference and copied with [.copy()]: they live in a heap of
      dictionaries addressed by locations.
    - The global [ngram_counts] holds [defaultdict]s, which insert a fresh
      empty [Counter] when a missing key is read: the tables are part of the
      mutable world too.
    - Exceptions are values of [exn]; a computation returns its outcome
      together with the world it leaves behind. *)

From Stdlib Require Import Ascii String QArith Lqa ZArith Lia.
From stdpp Require Import gmap strings list fin_maps pretty.

Local Open Scope string_scope.

(** ** Strings and characters *)

Definition lower_ascii (c : ascii) : ascii :=
  let n := nat_of_ascii c in
  if (65 <=? n)%nat && (n <=? 90)%nat then ascii_of_nat (n + 32) else c.

(** [s.lower()] *)
Fixpoint lower (s : string) : string :=
  match s with
  | EmptyString => EmptyString
  | String c s' => String (lower_ascii c) (lower s')
  end.

(** Iterating over a [str] yields its characters, each a [str] of length 1. *)
Fixpoint chars (s : string) : list string :=
  match s with
  | EmptyString => []
  | String c s' => String c EmptyString :: chars s'
  end.

(** [string.ascii_lowercase], iterated *)
Definition ascii_lowercase : list string := chars "abcdefghijklmnopqrstuvwxyz".

(** [g in s] for two [str]: [g] occurs in [s] as a substring. *)
Fixpoint is_substring (g s : string) : bool :=
  String.prefix g s ||
  match s with
  | EmptyString => false
  | String _ s' => is_substring g s'
  end.

(** ** Keys of the n-gram tables

    The bigram table is keyed by a [str] ([n_gram[0]]), the higher tables by
    tuples of [str]. A [str] and a tuple are never equal in Python. *)

Inductive key : Type :=
  | KStr (s : string)
  | KTuple (l : list string).

#[global] Instance key_eq_dec : EqDecision key.
Proof. solve_decision. Defined.

#[global] Instance key_countable : Countable key.
Proof.
  apply (inj_countable'
           (λ k, match k with KStr s => inl s | KTuple l => inr l end)
           (λ x, match x with inl s => KStr s | inr l => KTuple l end)).
  by intros [].
Defined.

Abbreviation Counter := (gmap string Z).
Abbreviation DefaultDict := (gmap key (gmap string Z)).
Abbreviation Lambdas := (gmap nat Q).
Abbreviation loc := nat.

(** [c[x]] on a [Counter]: 0 for a missing key, and nothing is inserted. *)
Definition counter_get (c : Counter) (x : string) : Z := default 0%Z (c !! x).

(** [c[x] += 1] *)
Definition counter_incr (c : Counter) (x : string) : Counter :=
  <[x := (counter_get c x + 1)%Z]> c.

(** [sum(c.values())] *)
Definition counter_total (c : Counter) : Z :=
  map_fold (λ _ v acc, (v + acc)%Z) 0%Z c.

(** [d[k][x] += 1] on a [defaultdict(Counter)] *)
Definition dd_incr (d : DefaultDict) (k : key) (x : string) : DefaultDict :=
  <[k := counter_incr (default ∅ (d !! k)) x]> d.

(** ** The table builders *)

Definition start_pad (n : nat) : list string :=
  map (λ start_index, "<s" +:+ pretty start_index +:+ ">") (seq 1 (n - 1)).

Definition end_pad (n : nat) : list string :=
  map (λ end_index, "</s" +:+ pretty (end_index - 1)%nat +:+ ">")
      (rev (seq 2 (n - 1))).

(** [convert_word(word, n)]; [word] is given as the sequence of its items
    (the characters of a [str], or the cells of a mask). *)
Definition convert_word (word : list string) (n : nat) : list string :=
  start_pad n ++ map lower word ++ end_pad n.

Definition get_unigram_counts (words : list string) : Counter :=
  foldl (λ unigram_counts word, foldl counter_incr unigram_counts (chars word))
        ∅ words.

(** [[word[i:i+n] for i in range(len(word)-(n-1))]] *)
Definition n_grams (n : nat) (word : list string) : list (list string) :=
  map (λ i, take n (drop i word)) (seq 0 (length word + 1 - n)).

Definition item (g : list string) (i : nat) : string := nth i g "".

(** The body of the loop over [n_grams]: one branch per order. *)
Definition record_n_gram (n : nat) (d : DefaultDict) (n_gram : list string)
  : DefaultDict :=
  match n with
  | 2 => dd_incr d (KStr (item n_gram 0)) (item n_gram 1)
  | 3 => dd_incr d (KTuple [item n_gram 0; item n_gram 1]) (item n_gram 2)
  | 4 => dd_incr d (KTuple [item n_gram 0; item n_gram 1; item n_gram 2])
                 (item n_gram 3)
  | 5 => dd_incr d (KTuple [item n_gram 0; item n_gram 1; item n_gram 2;
                            item n_gram 3])
                 (item n_gram 4)
  | _ => d
  end.

Definition get_ngram_counts (words : list string) (n : nat) : DefaultDict :=
  foldl (λ d w,
           let word := convert_word (chars w) n in
           if (n <=? length word)%nat
           then foldl (record_n_gram n) d (n_grams n word)
           else d)
        ∅ words.

(** The tables of the notebook: [unigram_counts], [bigram_counts], ...,
    gathered in the global dictionary [ngram_counts] under the orders 1..5. *)
Record NgramCounts : Type := {
  unigram_counts : Counter;
  bigram_counts : DefaultDict;
  trigram_counts : DefaultDict;
  fourgram_counts : DefaultDict;
  fivegram_counts : DefaultDict
}.

Definition train (train_set : list string) : NgramCounts :=
  {| unigram_counts := get_unigram_counts train_set;
     bigram_counts := get_ngram_counts train_set 2;
     trigram_counts := get_ngram_counts train_set 3;
     fourgram_counts := get_ngram_counts train_set 4;
     fivegram_counts := get_ngram_counts train_set 5 |}.

(** [ngram_counts[k]] for the orders 2..5 *)
Definition table (T : NgramCounts) (k : nat) : DefaultDict :=
  match k with
  | 2 => bigram_counts T
  | 3 => trigram_counts T
  | 4 => fourgram_counts T
  | 5 => fivegram_counts T
  | _ => ∅
  end.

Definition set_table (T : NgramCounts) (k : nat) (d : DefaultDict)
  : NgramCounts :=
  match k with
  | 2 => {| unigram_counts := unigram_counts T; bigram_counts := d;
            trigram_counts := trigram_counts T;
            fourgram_counts := fourgram_counts T;
            fivegram_counts := fivegram_counts T |}
  | 3 => {| unigram_counts := unigram_counts T;
            bigram_counts := bigram_counts T; trigram_counts := d;
            fourgram_counts := fourgram_counts T;
            fivegram_counts := fivegram_counts T |}
  | 4 => {| unigram_counts := unigram_counts T;
            bigram_counts := bigram_counts T;
            trigram_counts := trigram_counts T; fourgram_counts := d;
            fivegram_counts := fivegram_counts T |}
  | 5 => {| unigram_counts := unigram_counts T;
            bigram_counts := bigram_counts T;
            trigram_counts := trigram_counts T;
            fourgram_counts := fourgram_counts T; fivegram_counts := d |}
  | _ => T
  end.

(** ** The mutable world and computations over it *)

Record world : Type := {
  ngram_counts : NgramCounts;      (* the global tables *)
  heap : gmap nat (gmap nat Q)     (* the weight dictionaries, by reference *)
}.

Inductive exn : Type := KeyError | TypeError | ValueError.

Inductive result (A : Type) : Type :=
  | Ok (a : A)
  | Raise (e : exn).
Arguments Ok {A} a.
Arguments Raise {A} e.

(** A computation returns a value or raises, and leaves a world behind in
    both cases: what was mutated before an exception stays mutated. *)
Definition Py (A : Type) : Type := world → result A * world.

Definition ret {A} (a : A) : Py A := λ w, (Ok a, w).
Definition raise {A} (e : exn) : Py A := λ w, (Raise e, w).
Definition bind {A B} (c : Py A) (k : A → Py B) : Py B :=
  λ w, match c w with
       | (Ok a, w') => k a w'
       | (Raise e, w') => (Raise e, w')
       end.

Notation "'let!' x ':=' c 'in' k" := (bind c (λ x, k))
  (at level 10, x name, c at level 100, k at level 200).

(** [ngram_counts[k][c]] on a [defaultdict(Counter)]: a missing key is
    inserted with an empty [Counter], which is returned. *)
Definition dd_getitem (k : nat) (c : key) : Py Counter := λ w,
  let d := table (ngram_counts w) k in
  match d !! c with
  | Some cnt => (Ok cnt, w)
  | None => (Ok ∅, {| ngram_counts := set_table (ngram_counts w) k (<[c := ∅]> d);
                      heap := heap w |})
  end.

(** [ngram_counts[1]] *)
Definition unigram_table : Py Counter := λ w,
  (Ok (unigram_counts (ngram_counts w)), w).

(** The dictionary a reference denotes. *)
Definition dict_at (w : world) (l : loc) : Lambdas := default ∅ (heap w !! l).

(** [lambdas[k]] *)
Definition lambdas_getitem (l : loc) (k : nat) : Py Q := λ w,
  match dict_at w l !! k with
  | Some q => (Ok q, w)
  | None => (Raise KeyError, w)
  end.

(** [lambdas[k] = q] *)
Definition lambdas_setitem (l : loc) (k : nat) (q : Q) : Py unit := λ w,
  (Ok tt, {| ngram_counts := ngram_counts w;
             heap := <[l := <[k := q]> (dict_at w l)]> (heap w) |}).

(** [lambdas[i] += lambdas[j]] *)
Definition lambdas_iadd (l : loc) (i j : nat) : Py unit :=
  let! a := lambdas_getitem l i in
  let! b := lambdas_getitem l j in
  lambdas_setitem l i (a + b)%Q.

(** A new dictionary object. *)
Definition dict_new (L : Lambdas) : Py loc := λ w,
  let l := fresh (dom (heap w)) in
  (Ok l, {| ngram_counts := ngram_counts w; heap := <[l := L]> (heap w) |}).

(** [lambdas.copy()] *)
Definition dict_copy (l : loc) : Py loc := λ w, dict_new (dict_at w l) w.

(** ** The interpolation engine: [get_ngram_prob] *)

(** The query key built from the context. *)
Definition conditional_of (context : list string) : key :=
  match context with
  | [] => KTuple []             (* [tuple()] *)
  | [c] => KStr c               (* [context[0]] *)
  | _ => KTuple context         (* [tuple(context)] *)
  end.

(** The block of one order [k] in 2..5; the source repeats it for the
    fivegram, the fourgram, the trigram and the bigram. *)
Definition score_order (k : nat) (letter : string) (conditional : key)
    (lambdas : loc) (prob : Q) : Py Q :=
  let! c := dd_getitem k conditional in
  let! weight := lambdas_getitem lambdas k in
  let kgram_count := (inject_Z (counter_get c letter) * weight)%Q in
  let! c' := dd_getitem k conditional in
  let kgram_total_count := counter_total c' in
  if negb (kgram_total_count =? 0)%Z
  then ret (prob + kgram_count / inject_Z kgram_total_count)%Q
  else
    let! _ := lambdas_iadd lambdas (k - 1) k in
    ret (prob + 0)%Q.

(** The unigram block. With an empty unigram table the source calls [len]
    on a [float], which raises [TypeError] after the weight was moved. *)
Definition score_unigram (letter : string) (lambdas : loc) (prob : Q) : Py Q :=
  let! c := unigram_table in
  let! weight := lambdas_getitem lambdas 1 in
  let unigram_count := (inject_Z (counter_get c letter) * weight)%Q in
  let! c' := unigram_table in
  let unigram_total_count := counter_total c' in
  if negb (unigram_total_count =? 0)%Z
  then ret (prob + unigram_count / inject_Z unigram_total_count)%Q
  else
    let! _ := lambdas_iadd lambdas 0 1 in
    raise TypeError.

(** The blocks of the orders 5 down to 2, each behind its test on [n]. *)
Definition higher_orders (letter : string) (conditional : key) (n : nat)
    (lambdas : loc) (prob : Q) : Py Q :=
  let! prob := (if (4 <? n)%nat
                then score_order 5 letter conditional lambdas prob
                else ret prob) in
  let! prob := (if (3 <? n)%nat
                then score_order 4 letter conditional lambdas prob
                else ret prob) in
  let! prob := (if (2 <? n)%nat
                then score_order 3 letter conditional lambdas prob
                else ret prob) in
  let! prob := (if (1 <? n)%nat
                then score_order 2 letter conditional lambdas prob
                else ret prob) in
  ret prob.

(** [get_ngram_prob] up to its [return]: the accumulated [prob]. *)
Definition accumulate_prob (letter : string) (context : list string)
    (n : nat) (lambdas : loc) : Py Q :=
  let prob := 0%Q in
  let conditional := conditional_of context in
  let! prob := higher_orders letter conditional n lambdas prob in
  let! prob := (if (0 <? n)%nat
                then score_unigram letter lambdas prob
                else ret prob) in
  ret prob.

(** ** The guess selector: [ngram_guesser] *)

(** [letter_probs[letter] += p] on a [defaultdict(float)], whose keys are
    kept in insertion order. *)
Fixpoint letter_probs_add (letter_probs : list (string * Q)) (letter : string)
    (p : Q) : list (string * Q) :=
  match letter_probs with
  | [] => [(letter, (0 + p)%Q)]
  | (l, v) :: rest =>
      if String.eqb l letter then (l, (v + p)%Q) :: rest
      else (l, v) :: letter_probs_add rest letter p
  end.

(** [max(letter_probs, key=letter_probs.get)] keeps the first maximal key. *)
Definition py_max (letter_probs : list (string * Q)) : option (string * Q) :=
  foldl (λ best lv,
           match best with
           | None => Some lv
           | Some (_, bv) => if Qle_bool lv.2 bv then best else Some lv
           end)
        None letter_probs.

(** The [while] loop that collects the left context of the blank at [i];
    [j1] is [j + 1]. At [j = -1] the source reads [word[-1]], the end
    sentinel, and stops at [j >= 0]. *)
Fixpoint left_context (word : list string) (n : nat) (j1 : nat)
    (context : list string) (context_len : nat) : list string :=
  match j1 with
  | 0 => context
  | S j =>
      if negb (String.eqb (item word j) "_") && (context_len <? n)%nat
      then left_context word n j (item word j :: context) (S context_len)
      else context
  end.

Definition context_at (word : list string) (n : nat) (i : nat) : list string :=
  left_context word n i [] 1.

Section Guesser.

(** [math.log] on the floats of the source; its values are not modelled. *)
Variable ln : Q → Q.

Definition math_log (x : Q) : Py Q :=
  if Qle_bool x 0 then raise ValueError else ret (ln x).

Definition get_ngram_prob (letter : string) (context : list string)
    (n : nat) (lambdas : loc) : Py Q :=
  let! prob := accumulate_prob letter context n lambdas in
  math_log prob.

(** [for letter in letter_available: ...] *)
Fixpoint for_letters (letter_available : list string)
    (context : list string) (n : nat) (lambdas : loc)
    (letter_probs : list (string * Q)) : Py (list (string * Q)) :=
  match letter_available with
  | [] => ret letter_probs
  | letter :: rest =>
      let! lambdas_copy := dict_copy lambdas in
      let! probability := get_ngram_prob letter context n lambdas_copy in
      for_letters rest context n lambdas
                  (letter_probs_add letter_probs letter probability)
  end.

(** [for i in range(len(word)): if word[i] == "_": ...] *)
Fixpoint for_positions (positions : list nat) (word : list string)
    (letter_available : list string) (n : nat) (lambdas : loc)
    (letter_probs : list (string * Q)) : Py (list (string * Q)) :=
  match positions with
  | [] => ret letter_probs
  | i :: rest =>
      if String.eqb (item word i) "_"
      then
        let! letter_probs :=
          for_letters letter_available (context_at word n i) n lambdas
                      letter_probs in
        for_positions rest word letter_available n lambdas letter_probs
      else for_positions rest word letter_available n lambdas letter_probs
  end.

(** [ngram_guesser(mask, guessed, n=..., lambdas=...)]; an absent or falsy
    keyword argument selects the default. *)
Definition ngram_guesser (mask : list string) (guessed : gset string)
    (kw_n : option nat) (kw_lambdas : option loc) : Py string :=
  let letter_available := filter (λ letter, letter ∉ guessed) ascii_lowercase in
  let n := match kw_n with Some (S n') => S n' | _ => 1%nat end in
  let! lambdas :=
    (match kw_lambdas with
     | Some l => λ w, if (size (dict_at w l) =? 0)%nat
                      then dict_new {[ 1%nat := 1%Q ]} w
                      else (Ok l, w)
     | None => dict_new {[ 1%nat := 1%Q ]}
     end) in
  let word := convert_word mask 2 in
  let! letter_probs :=
    for_positions (seq 0 (length word)) word letter_available n lambdas [] in
  match py_max letter_probs with
  | Some (letter_choice, _) => ret letter_choice
  | None => raise ValueError      (* [max()] of an empty mapping *)
  end.

End Guesser.

(** ** The game: [hangman] *)

(** [for i, c in enumerate(secret_word): if c == guess: mask[i] = c] *)
Definition reveal (secret_word guess : string) (mask : list string)
  : list string :=
  foldl (λ mask ic, if String.eqb ic.2 guess then <[ic.1 := ic.2]> mask else mask)
        mask (imap pair (chars secret_word)).

(** The variables of the game loop. *)
Record game : Type := {
  mask : list string;
  guessed : gset string;
  mistakes : Z
}.

(** One pass through the loop body once the guess is known. *)
Definition turn (secret_word guess : string) (σ : game) : game :=
  if bool_decide (guess ∈ guessed σ)
  then {| mask := mask σ; guessed := guessed σ; mistakes := mistakes σ + 1 |}
  else
    let guessed' := guessed σ ∪ {[ guess ]} in
    if is_substring guess secret_word
    then {| mask := reveal secret_word guess (mask σ); guessed := guessed';
            mistakes := mistakes σ |}
    else {| mask := mask σ; guessed := guessed'; mistakes := mistakes σ + 1 |}.

Section Hangman.

(** A guess strategy reads the mask and the guessed set and answers with a
    [str] or raises; [St] is whatever state it keeps or reads (a random
    generator, the tables and weights of [ngram_guesser]). It does not
    mutate the mask or the guessed set it is shown. *)
Context {St : Type}.
Variable guesser : list string → gset string → St → result string * St.

(** [while mistakes < max_mistakes: ...]; [fuel] bounds the number of
    passes, and [None] means that it ran out. *)
Fixpoint hangman_loop (fuel : nat) (secret_word : string) (max_mistakes : Z)
    (σ : game) (st : St) : option (result Z * St) :=
  match fuel with
  | O => None
  | S fuel' =>
      if (mistakes σ <? max_mistakes)%Z
      then
        match guesser (mask σ) (guessed σ) st with
        | (Raise e, st') => Some (Raise e, st')
        | (Ok guess, st') =>
            let σ' := turn secret_word guess σ in
            if bool_decide ("_" ∉ mask σ')
            then Some (Ok (mistakes σ'), st')
            else hangman_loop fuel' secret_word max_mistakes σ' st'
        end
      else Some (Ok (mistakes σ), st)
  end.

Definition hangman (fuel : nat) (secret_word : string) (max_mistakes : Z)
    (st : St) : option (result Z * St) :=
  let secret_word := lower secret_word in
  let mask := replicate (String.length secret_word) "_" in
  hangman_loop fuel secret_word max_mistakes
               {| mask := mask; guessed := ∅; mistakes := 0 |} st.

End Hangman.

(** * Vocabulary of the statements *)

(** Reading a table without the insertion of [defaultdict]: the counter
    stored under [c], or the empty counter. *)
Definition peek (T : NgramCounts) (k : nat) (c : key) : Counter :=
  default ∅ (table T k !! c).

(** [count(context, letter)] and [total(context)] in the table of order [k]. *)
Definition kcount (T : NgramCounts) (k : nat) (c : key) (letter : string) : Z :=
  counter_get (peek T k c) letter.

Definition ktotal (T : NgramCounts) (k : nat) (c : key) : Z :=
  counter_total (peek T k c).

(** The same for the order 1, which has no context. *)
Definition count1 (T : NgramCounts) (letter : string) : Z :=
  counter_get (unigram_counts T) letter.

Definition total1 (T : NgramCounts) : Z := counter_total (unigram_counts T).

(** [weight[k]] in a weight mapping. *)
Definition weight (L : Lambdas) (k : nat) : Q := default 0%Q (L !! k).

(** What a read of [ngram_counts[k][c]] leaves behind in the tables. *)
Definition touch (T : NgramCounts) (k : nat) (c : key) : NgramCounts :=
  match table T k !! c with
  | Some _ => T
  | None => set_table T k (<[c := ∅]> (table T k))
  end.

Fixpoint touch_down (T : NgramCounts) (k : nat) (c : key) : NgramCounts :=
  match k with
  | 0 => T
  | S k' =>
      match k' with
      | 0 => T
      | S _ => touch_down (touch T k c) k' c
      end
  end.

(** Weight cascading as the specification words it: the step of one order
    [k >= 2] on the accumulated probability and the weights, and the steps
    of the orders [k], [k-1], ..., 2 in turn. *)
Definition cascade_step (T : NgramCounts) (c : key) (letter : string)
    (k : nat) (acc : Q) (W : Lambdas) : Q * Lambdas :=
  if (ktotal T k c =? 0)%Z
  then (acc, <[(k - 1)%nat := (weight W (k - 1) + weight W k)%Q]> W)
  else ((acc + weight W k * inject_Z (kcount T k c letter)
                 / inject_Z (ktotal T k c))%Q, W).

Fixpoint cascade_spec (T : NgramCounts) (c : key) (letter : string)
    (k : nat) (acc : Q) (W : Lambdas) : Q * Lambdas :=
  match k with
  | 0 => (acc, W)
  | S k' =>
      match k' with
      | 0 => (acc, W)
      | S _ =>
          let aw := cascade_step T c letter k acc W in
          cascade_spec T c letter k' aw.1 aw.2
      end
  end.

(** The orders 1..n seen together: order 1 reads the unigram table. *)
Definition order_total (T : NgramCounts) (c : key) (k : nat) : Z :=
  match k with
  | 1 => total1 T
  | _ => ktotal T k c
  end.

Definition order_count (T : NgramCounts) (c : key) (letter : string)
    (k : nat) : Z :=
  match k with
  | 1 => count1 T letter
  | _ => kcount T k c letter
  end.

(** [f 1 + f 2 + ... + f k] *)
Fixpoint sum_orders (f : nat → Q) (k : nat) : Q :=
  match k with
  | 0 => 0%Q
  | S k' => (sum_orders f k' + f k)%Q
  end.

(** What the order [k] adds to the probability when the weights at the time
    of scoring are [W]: nothing when its total is zero. *)
Definition contribution (T : NgramCounts) (c : key) (letter : string)
    (W : Lambdas) (k : nat) : Q :=
  if (order_total T c k =? 0)%Z then 0%Q
  else (weight W k * inject_Z (order_count T c letter k)
          / inject_Z (order_total T c k))%Q.

(** The weight multiplied into the orders that contributed. *)
Definition accounted (T : NgramCounts) (c : key) (n : nat) (W : Lambdas) : Q :=
  sum_orders (λ k, if (order_total T c k =? 0)%Z then 0%Q else weight W k) n.

(** The form of the keys the Builder gives the table of order [k]. *)
Definition key_fits (k : nat) (c : key) : Prop :=
  match c with
  | KStr _ => k = 2%nat
  | KTuple l => (3 ≤ k)%nat ∧ length l = (k - 1)%nat
  end.

(** [T'] is [T] after some queries: the same unigram table, and in every
    other table the same entries, except that keys missing from [T] may be
    present with an empty counter. *)
Definition tables_ext (T T' : NgramCounts) : Prop :=
  unigram_counts T' = unigram_counts T
  ∧ ∀ k c, table T' k !! c = table T k !! c
           ∨ (table T k !! c = None ∧ table T' k !! c = Some ∅).

(** The tables of a world are those built from [train_set], possibly after
    queries. *)
Definition built_from (train_set : list string) (T : NgramCounts) : Prop :=
  tables_ext (train train_set) T.

(** Every stored count is a non-negative integer. *)
Definition counter_nonneg (c : Counter) : Prop :=
  ∀ x v, c !! x = Some v → (0 ≤ v)%Z.

Definition counts_nonneg (T : NgramCounts) : Prop :=
  counter_nonneg (unigram_counts T)
  ∧ ∀ k c cnt, table T k !! c = Some cnt → counter_nonneg cnt.

(** Counts are stored only under keys of the table's own form. *)
Definition well_keyed (T : NgramCounts) : Prop :=
  ∀ k c cnt, table T k !! c = Some cnt → cnt ≠ ∅ → key_fits k c.

(** The heap cells that exist in [w] are the same in [w']. *)
Definition heap_frame (w w' : world) : Prop :=
  ∀ l, l ∈ dom (heap w) → heap w' !! l = heap w !! l.

(** All the strings that occur in [s]. *)
Fixpoint prefixes (s : string) : list string :=
  match s with
  | EmptyString => [EmptyString]
  | String a s' => EmptyString :: map (String a) (prefixes s')
  end.

Fixpoint substrings (s : string) : list string :=
  prefixes s ++
  match s with
  | EmptyString => []
  | String _ s' => substrings s'
  end.

Definition substring_set (s : string) : gset string :=
  list_to_set (substrings s).

(** The variant of the game loop. *)
Definition game_measure (secret_word : string) (max_mistakes : Z) (σ : game)
  : nat :=
  Z.to_nat (max_mistakes - mistakes σ)
  + size (substring_set secret_word ∖ guessed σ).

(** Enough passes for any game on [secret_word]. *)
Definition enough_fuel (secret_word : string) (max_mistakes : Z) : nat :=
  S (Z.to_nat max_mistakes + size (substring_set (lower secret_word))).

(** A computation relates every world it starts in to the world it leaves. *)
Definition preserves {A} (R : world → world → Prop) (c : Py A) : Prop :=
  ∀ w, R w (c w).2.

(** The tables of [w'] are those of [w] after some queries. *)
Definition tables_step (w w' : world) : Prop :=
  tables_ext (ngram_counts w) (ngram_counts w').

(** Every heap cell but [l] is the same in [w'] as in [w]. *)
Definition heap_except (l : loc) (w w' : world) : Prop :=
  ∀ l', l' ≠ l → heap w' !! l' = heap w !! l'.

(** The entries of a table built for the order [k]. *)
Definition dd_ok (k : nat) (d : DefaultDict) : Prop :=
  ∀ c cnt, d !! c = Some cnt → key_fits k c ∧ counter_nonneg cnt.

(** ** Concrete inputs for the examples *)

(** In the closed examples any function serves as [math.log]: no statement
    depends on its values. *)
Definition any_log : Q → Q := λ x, x.

Definition example_train_set : list string := ["cats"; "cat"; "bat"].

(** [{0: 0.01, 1: 0.01, 2: 0.98}], the first weights of the bigram run. *)
Definition example_lambdas : Lambdas :=
  <[0%nat := (1 # 100)%Q]> (<[1%nat := (1 # 100)%Q]> (<[2%nat := (98 # 100)%Q]> ∅)).

(** [{0: 0.01, 1: 0.01, 2: 0.08, 3: 0.9}] *)
Definition example_lambdas3 : Lambdas :=
  <[0%nat := (1 # 100)%Q]>
    (<[1%nat := (1 # 100)%Q]>
       (<[2%nat := (8 # 100)%Q]> (<[3%nat := (90 # 100)%Q]> ∅))).

(** The tables trained on [example_train_set], [example_lambdas] at the
    reference 0 and [example_lambdas3] at the reference 1. *)
Definition example_world : world :=
  {| ngram_counts := train example_train_set;
     heap := <[0%nat := example_lambdas]> (<[1%nat := example_lambdas3]> ∅) |}.

(** Strategies that ignore the game: always the same answer. *)
Definition always (guess : string)
  : list string → gset string → unit → result string * unit :=
  λ _ _ st, (Ok guess, st).

(** * The rest of the notebook, and the vocabulary of its properties *)

(** ** Vocabulary of the further properties *)

(** The number of items of [l] equal to [x]. *)
Definition count_in {A} `{EqDecision A} (x : A) (l : list A) : Z :=
  Z.of_nat (length (filter (λ y, y = x) l)).

(** All the characters of the training words, in order. *)
Definition all_chars (words : list string) : list string :=
  concat (map chars words).

(** All the n-grams that [get_ngram_counts] slides over: the windows of every
    padded training word. *)
Definition all_n_grams (words : list string) (n : nat) : list (list string) :=
  concat (map (λ w, n_grams n (convert_word (chars w) n)) words).

(** The symbols of a key, in order. *)
Definition key_items (c : key) : list string :=
  match c with
  | KStr s => [s]
  | KTuple l => l
  end.

(** The sum of all the counts of a table. *)
Definition table_total (d : DefaultDict) : Z :=
  map_fold (λ _ cnt acc, (counter_total cnt + acc)%Z) 0%Z d.

(** [a + b + ...] for a list of naturals. *)
Definition sum_nat (l : list nat) : nat := foldr Nat.add 0%nat l.

(** The orders above 1 that [get_ngram_prob] scores for a given [n], in the
    order in which it scores them, and their blocks run one after another. *)
Definition scored_orders (n : nat) : list nat :=
  filter (λ k, k ≤ n)%nat [5; 4; 3; 2]%nat.

Fixpoint run_orders (ks : list nat) (letter : string) (conditional : key)
    (lambdas : loc) (prob : Q) : Py Q :=
  match ks with
  | [] => ret prob
  | k :: ks' =>
      let! prob := score_order k letter conditional lambdas prob in
      run_orders ks' letter conditional lambdas prob
  end.

(** ** The random strategy: [trivial_guesser] *)

(** [np.random.choice(a)]: the item of [a] that the next draw of the
    generator selects; an empty [a] raises [ValueError]. The generator is the
    stream of its draws. *)
Definition random_choice (a : list string) (rng : nat → nat)
  : result string * (nat → nat) :=
  match a with
  | [] => (Raise ValueError, rng)
  | _ :: _ => (Ok (nth (rng 0%nat mod length a) a ""), λ i, rng (S i))
  end.

Definition trivial_guesser (mask : list string) (guessed : gset string)
    (rng : nat → nat) : result string * (nat → nat) :=
  let letter_available := filter (λ letter, letter ∉ guessed) ascii_lowercase in
  random_choice letter_available rng.

(** The letters 'a'..'z', and the different characters of a word, as sets. *)
Definition alphabet : gset string := list_to_set ascii_lowercase.

Definition letters_of (s : string) : gset string := list_to_set (chars s).

(** A word made of the letters 'a'..'z' only. *)
Definition lowercase_word (s : string) : Prop :=
  ∀ c, c ∈ chars s → c ∈ ascii_lowercase.

(** A strategy that, as long as a letter is left, answers with a letter
    'a'..'z' that has not been guessed. *)
Definition new_letter_strategy {St : Type}
    (guesser : list string → gset string → St → result string * St) : Prop :=
  ∀ mask guessed st,
    (∃ x, x ∈ ascii_lowercase ∧ x ∉ guessed) →
    ∃ g st', guesser mask guessed st = (Ok g, st')
             ∧ g ∈ ascii_lowercase ∧ g ∉ guessed.

(** The mask that shows exactly the guessed characters of the secret word. *)
Definition mask_of (s : string) (guessed : gset string) : list string :=
  map (λ c, if bool_decide (c ∈ guessed) then c else "_") (chars s).

(** What the game loop keeps true when the guesses are new letters. *)
Definition game_inv (s : string) (σ : game) : Prop :=
  guessed σ ⊆ alphabet
  ∧ mask σ = mask_of s (guessed σ)
  ∧ mistakes σ = Z.of_nat (size (guessed σ ∖ letters_of s)).

(** ** The evaluator and the unigram strategies *)

(** The exceptions of this part of the code: those of [exn], and the division
    by zero. *)
Inductive pyexn : Type :=
  | ZeroDivisionError
  | Exn (e : exn).

Inductive presult (A : Type) : Type :=
  | POk (a : A)
  | PRaise (e : pyexn).
Arguments POk {A} a.
Arguments PRaise {A} e.

(** [a / b] on floats *)
Definition py_div (a b : Q) : presult Q :=
  if Qeq_bool b 0 then PRaise ZeroDivisionError else POk (a / b)%Q.

Section Evaluate.
Context {St : Type}.
Variable guesser : list string → gset string → St → result string * St.

(** [for word_test in dataset: mistakes += hangman(word_test, guesser, 26,
    False)]. Each game is given [enough_fuel]; [None] would mean that a game
    ran out of it. *)
Fixpoint evaluate_loop (dataset : list string) (mistakes : Z) (st : St)
  : option (result Z * St) :=
  match dataset with
  | [] => Some (Ok mistakes, st)
  | word_test :: rest =>
      match hangman guesser (enough_fuel word_test 26) word_test 26 st with
      | None => None
      | Some (Raise e, st') => Some (Raise e, st')
      | Some (Ok m, st') => evaluate_loop rest (mistakes + m)%Z st'
      end
  end.

Definition evaluate_model (dataset : list string) (st : St)
  : option (presult Q * St) :=
  match evaluate_loop dataset 0 st with
  | None => None
  | Some (Raise e, st') => Some (PRaise (Exn e), st')
  | Some (Ok mistakes, st') =>
      match py_div (inject_Z mistakes)
                   (inject_Z (Z.of_nat (length dataset))) with
      | PRaise e => Some (PRaise e, st')
      | POk avg_mistakes => Some (POk avg_mistakes, st')
      end
  end.

End Evaluate.

(** [probs[letter] = p] on a [dict], whose keys are kept in insertion
    order. *)
Fixpoint probs_set (probs : list (string * Q)) (letter : string) (p : Q)
  : list (string * Q) :=
  match probs with
  | [] => [(letter, p)]
  | (l, v) :: rest =>
      if String.eqb l letter then (l, p) :: rest
      else (l, v) :: probs_set rest letter p
  end.

(** [for letter in letter_available: unigram_probs[letter] = prob(letter)] *)
Fixpoint unigram_probs_loop (letter_available : list string)
    (prob : string → presult Q) (unigram_probs : list (string * Q))
  : presult (list (string * Q)) :=
  match letter_available with
  | [] => POk unigram_probs
  | letter :: rest =>
      match prob letter with
      | PRaise e => PRaise e
      | POk p => unigram_probs_loop rest prob (probs_set unigram_probs letter p)
      end
  end.

(** [max(unigram_probs, key=unigram_probs.get)] *)
Definition choose_max (unigram_probs : list (string * Q)) : presult string :=
  match py_max unigram_probs with
  | Some (letter_choice, _) => POk letter_choice
  | None => PRaise (Exn ValueError)
  end.

(** [unigram_guesser]; the global [unigram_counts], which it only reads, is
    its first argument. *)
Definition unigram_guesser (unigram_counts : Counter) (mask : list string)
    (guessed : gset string) : presult string :=
  let letter_available := filter (λ letter, letter ∉ guessed) ascii_lowercase in
  let total_counts := inject_Z (counter_total unigram_counts) in
  let vocab_size := Z.of_nat (size unigram_counts) in
  match unigram_probs_loop letter_available
          (λ letter, py_div (inject_Z (counter_get unigram_counts letter + 1))
                            (total_counts + inject_Z vocab_size)%Q)
          [] with
  | PRaise e => PRaise e
  | POk unigram_probs => choose_max unigram_probs
  end.

(** [get_conditional_unigram_counts]: a [defaultdict(Counter)] keyed by the
    length of the word. *)
Definition get_conditional_unigram_counts (words : list string)
  : gmap nat Counter :=
  foldl (λ d word,
           foldl (λ d letter,
                    <[String.length word :=
                        counter_incr (default ∅ (d !! String.length word))
                                     letter]> d)
                 d (chars word))
        ∅ words.

(** The count of [x] among the words of length [n], as the strategy reads
    it. *)
Definition length_count (d : gmap nat Counter) (n : nat) (x : string) : Z :=
  counter_get (default ∅ (d !! n)) x.

(** ** More inputs of the closed examples *)

(** A world with nothing trained: every table is empty. *)
Definition example_empty_world : world :=
  {| ngram_counts := train [];
     heap := <[0%nat := example_lambdas]> ∅ |}.

(** A game on "bat" in which every letter that is in no training word has
    been guessed. *)
Definition example_guessed : gset string :=
  list_to_set (filter (λ x, x ∉ ["c"; "a"; "t"; "s"; "b"]) ascii_lowercase).


(** A generator, as the stream of its draws. *)
Definition example_rng : nat → nat := λ i, (7 * i + 3)%nat.

(** The unigram tables trained on the example words. *)
Definition example_unigram_counts : Counter :=
  get_unigram_counts example_train_set.


(** ** Vocabulary of the floats, the ASCII words and the rules of the game *)

(** The smallest positive normal [float], [sys.float_info.min] = 2^-1022.
    The floats are exact rationals here; a statement that needs a computed
    float to be non-zero takes as a hypothesis that the term in question is
    at least this much, so that it does not underflow to 0.0 in the source
    either, and that the weights lie between 0 and 1, so that no sum of
    them overflows. *)
Definition float_min : Q := 1 # (2 ^ 1022).

(** A [str] of ASCII characters. On these [str.lower] is [lower]; on other
    characters [str.lower] follows Unicode, which [lower] does not. *)
Fixpoint ascii_word (s : string) : bool :=
  match s with
  | EmptyString => true
  | String a s' => (nat_of_ascii a <? 128)%nat && ascii_word s'
  end.

(** The rules of the game in words, for any string as a guess: a guess is a
    mistake when it is in the guessed set already or does not occur in the
    secret word. *)
Definition ordinary_mistake (secret_word : string) (guessed : gset string)
    (guess : string) : bool :=
  bool_decide (guess ∈ guessed) || negb (is_substring guess secret_word).

Section HangmanRules.
Context {St : Type}.
Variable guesser : list string → gset string → St → result string * St.

(** The game by its rules, not by the code: the state is the guessed set and
    the number of mistakes; the mask shown to the strategy is the secret
    word with the characters outside the guessed set blanked; every guess
    joins the guessed set and is a mistake or not by [ordinary_mistake]; the
    game ends when no blank is left or the cap is reached. [hangman] is
    compared with it. *)
Fixpoint hangman_rules (fuel : nat) (secret_word : string) (max_mistakes : Z)
    (guessed : gset string) (mistakes : Z) (st : St)
  : option (result Z * St) :=
  match fuel with
  | O => None
  | S fuel' =>
      if (mistakes <? max_mistakes)%Z
      then
        match guesser (mask_of secret_word guessed) guessed st with
        | (Raise e, st') => Some (Raise e, st')
        | (Ok guess, st') =>
            let mistakes' :=
              if ordinary_mistake secret_word guessed guess
              then (mistakes + 1)%Z else mistakes in
            let guessed' := guessed ∪ {[ guess ]} in
            if bool_decide ("_" ∉ mask_of secret_word guessed')
            then Some (Ok mistakes', st')
            else hangman_rules fuel' secret_word max_mistakes guessed'
                               mistakes' st'
        end
      else Some (Ok mistakes, st)
  end.

End HangmanRules.

(** A world given by its tables and its heap. *)
Abbreviation mk T h := (Build_world T h).

(** * Facts about the tables and the weight dictionaries *)

Lemma table_set_table T k d : (2 ≤ k ≤ 5)%nat → table (set_table T k d) k = d.
Proof.
  intros [H2 H5].
  destruct k as [|[|[|[|[|[|k]]]]]]; try lia; reflexivity.
Qed.

Lemma table_set_table_ne T k k' d :
  k ≠ k' → table (set_table T k d) k' = table T k'.
Proof.
  intros Hne.
  destruct k as [|[|[|[|[|[|k]]]]]]; try reflexivity;
  destruct k' as [|[|[|[|[|[|k']]]]]]; try reflexivity; congruence.
Qed.

Lemma unigram_set_table T k d :
  unigram_counts (set_table T k d) = unigram_counts T.
Proof. by destruct k as [|[|[|[|[|[|k]]]]]]. Qed.

Lemma table_out_of_range T k : ¬ (2 ≤ k ≤ 5)%nat → table T k = ∅.
Proof. intros H. destruct k as [|[|[|[|[|[|k]]]]]]; try reflexivity; lia. Qed.

Lemma table_touch T k c k' c' :
  table (touch T k c) k' !! c' = table T k' !! c'
  ∨ (k' = k ∧ c' = c ∧ (2 ≤ k ≤ 5)%nat ∧ table T k' !! c' = None
     ∧ table (touch T k c) k' !! c' = Some ∅).
Proof.
  unfold touch. destruct (table T k !! c) eqn:E; [by left|].
  destruct (decide (k' = k)) as [->|Hne].
  - destruct (decide (2 ≤ k ≤ 5)%nat) as [Hr|Hr].
    + rewrite table_set_table by done.
      destruct (decide (c' = c)) as [->|Hc].
      * right. rewrite lookup_insert_eq. done.
      * left. by rewrite lookup_insert_ne.
    + left. rewrite !(table_out_of_range _ k) by done. done.
  - left. by rewrite table_set_table_ne.
Qed.

Lemma peek_touch T k c k' c' : peek (touch T k c) k' c' = peek T k' c'.
Proof.
  unfold peek.
  destruct (table_touch T k c k' c') as [->|(_ & _ & _ & -> & ->)]; done.
Qed.

Lemma unigram_touch T k c : unigram_counts (touch T k c) = unigram_counts T.
Proof.
  unfold touch. destruct (table T k !! c); [done|apply unigram_set_table].
Qed.

Lemma dd_getitem_run k c w :
  dd_getitem k c w
  = (Ok (peek (ngram_counts w) k c),
     {| ngram_counts := touch (ngram_counts w) k c; heap := heap w |}).
Proof.
  unfold dd_getitem, peek, touch. destruct w as [T h]; simpl.
  by destruct (table T k !! c).
Qed.


Lemma lambdas_getitem_run l k T h L q :
  L !! k = Some q →
  lambdas_getitem l k (mk T (<[l := L]> h)) = (Ok q, mk T (<[l := L]> h)).
Proof.
  intros Hq. unfold lambdas_getitem, dict_at; simpl.
  by rewrite lookup_insert_eq; simpl; rewrite Hq.
Qed.

Lemma lambdas_iadd_run l i j T h L a b :
  L !! i = Some a → L !! j = Some b →
  lambdas_iadd l i j (mk T (<[l := L]> h))
  = (Ok tt, mk T (<[l := <[i := (a + b)%Q]> L]> h)).
Proof.
  intros Ha Hb. unfold lambdas_iadd, bind.
  rewrite (lambdas_getitem_run _ _ _ _ _ _ Ha), (lambdas_getitem_run _ _ _ _ _ _ Hb).
  unfold lambdas_setitem, dict_at; simpl.
  by rewrite lookup_insert_eq, insert_insert_eq.
Qed.

Lemma weight_Some L k q : L !! k = Some q → weight L k = q.
Proof. unfold weight. by intros ->. Qed.

Lemma touch_touch T k c : touch (touch T k c) k c = touch T k c.
Proof.
  unfold touch at 1.
  destruct (table (touch T k c) k !! c) eqn:E'; [done|].
  unfold touch in E' |- *. destruct (table T k !! c) eqn:E''; [congruence|].
  destruct (decide (2 ≤ k ≤ 5)%nat) as [Hr|Hr].
  - rewrite table_set_table, lookup_insert_eq in E' by done. done.
  - destruct k as [|[|[|[|[|[|k]]]]]]; try lia; reflexivity.
Qed.

Lemma score_order_refines k letter c l prob acc T h L :
  is_Some (L !! k) → is_Some (L !! (k - 1)%nat) → (prob == acc)%Q →
  ∃ p,
    score_order k letter c l prob (mk T (<[l := L]> h))
    = (Ok p, mk (touch T k c)
                (<[l := (cascade_step T c letter k acc L).2]> h))
    ∧ (p == (cascade_step T c letter k acc L).1)%Q.
Proof.
  intros [wk Hk] [wk1 Hk1] Hacc.
  unfold score_order, bind.
  rewrite dd_getitem_run; simpl.
  rewrite (lambdas_getitem_run _ _ _ _ _ _ Hk).
  rewrite dd_getitem_run; simpl.
  rewrite !peek_touch.
  fold (ktotal T k c) (kcount T k c letter).
  unfold cascade_step.
  destruct (ktotal T k c =? 0)%Z eqn:Ht; simpl.
  - rewrite (lambdas_iadd_run _ _ _ _ _ _ _ _ Hk1 Hk).
    rewrite (weight_Some _ _ _ Hk), (weight_Some _ _ _ Hk1).
    eexists; split.
    + unfold ret. rewrite touch_touch. reflexivity.
    + simpl. rewrite Hacc. apply Qplus_0_r.
  - eexists; split.
    + unfold ret. rewrite touch_touch. reflexivity.
    + simpl. rewrite (weight_Some _ _ _ Hk), Hacc.
      apply Qplus_comp; [reflexivity|].
      unfold Qdiv. rewrite (Qmult_comm (inject_Z _) wk). reflexivity.
Qed.

Lemma cascade_step_touch T k c c' letter k' acc W :
  cascade_step (touch T k c) c' letter k' acc W = cascade_step T c' letter k' acc W.
Proof. unfold cascade_step, ktotal, kcount. by rewrite !peek_touch. Qed.

Lemma cascade_step_keys T c letter k acc W j :
  is_Some (W !! j) → is_Some ((cascade_step T c letter k acc W).2 !! j).
Proof.
  intros Hj. unfold cascade_step. destruct (ktotal T k c =? 0)%Z; simpl; [|done].
  destruct (decide ((k - 1)%nat = j)) as [->|Hne].
  - rewrite lookup_insert_eq. eauto.
  - by rewrite lookup_insert_ne.
Qed.

Ltac step_order k :=
  match goal with
  | Hq : (?prob == ?acc)%Q
    |- context [score_order k ?letter ?c ?l ?prob (mk ?T (<[?l := ?L]> ?h))] =>
      let p := fresh "p" in
      let E := fresh "E" in
      let Hp := fresh "Hp" in
      destruct (score_order_refines k letter c l prob acc T h L)
        as (p & E & Hp);
      [ repeat apply cascade_step_keys; auto with lia ..
      | rewrite E; clear E Hq; rewrite ?cascade_step_touch in * ]
  end.

Lemma higher_orders_refines letter c n l prob acc T h L :
  (n ≤ 5)%nat → (∀ k, (1 ≤ k ≤ n)%nat → is_Some (L !! k)) → (prob == acc)%Q →
  ∃ p,
    higher_orders letter c n l prob (mk T (<[l := L]> h))
    = (Ok p, mk (touch_down T n c)
                (<[l := (cascade_spec T c letter n acc L).2]> h))
    ∧ (p == (cascade_spec T c letter n acc L).1)%Q.
Proof.
  intros Hn Hkeys Hacc.
  destruct n as [|[|[|[|[|[|n]]]]]]; try lia;
    unfold higher_orders, bind, ret; simpl.
  - eauto.
  - eauto.
  - step_order 2%nat. eauto.
  - step_order 3%nat. step_order 2%nat. eauto.
  - step_order 4%nat. step_order 3%nat. step_order 2%nat. eauto.
  - step_order 5%nat. step_order 4%nat. step_order 3%nat. step_order 2%nat. eauto.
Qed.

(** * Facts about the game loop *)

Lemma prefix_in_prefixes g s : String.prefix g s = true → g ∈ prefixes s.
Proof.
  revert g. induction s as [|a s IH]; intros [|b g] H; simpl in *.
  - set_solver.
  - discriminate.
  - set_solver.
  - destruct (ascii_dec b a) as [->|]; [|discriminate].
    apply list_elem_of_further, list_elem_of_fmap. exists g. split; [done|]. by apply IH.
Qed.

Lemma is_substring_in g s : is_substring g s = true → g ∈ substring_set s.
Proof.
  unfold substring_set. rewrite elem_of_list_to_set.
  induction s as [|a s IH]; intros H.
  - destruct g; [|discriminate]. set_solver.
  - cbn [is_substring] in H. apply orb_true_iff in H as [H|H].
    + apply prefix_in_prefixes in H. cbn [substrings]. set_solver.
    + apply IH in H. cbn [substrings]. set_solver.
Qed.

Lemma turn_cases secret_word guess σ :
  ((mistakes (turn secret_word guess σ) = mistakes σ + 1)%Z
   ∧ guessed σ ⊆ guessed (turn secret_word guess σ))
  ∨ (mistakes (turn secret_word guess σ) = mistakes σ
     ∧ (guess ∉ guessed σ)
     ∧ guess ∈ substring_set secret_word
     ∧ guessed (turn secret_word guess σ) = guessed σ ∪ {[ guess ]}).
Proof.
  unfold turn. case_bool_decide as Hg; simpl.
  - left. set_solver.
  - destruct (is_substring guess secret_word) eqn:Hs; simpl.
    + right. auto using is_substring_in.
    + left. set_solver.
Qed.

Lemma turn_decreases secret_word max_mistakes guess σ :
  (mistakes σ < max_mistakes)%Z →
  (game_measure secret_word max_mistakes (turn secret_word guess σ)
   < game_measure secret_word max_mistakes σ)%nat.
Proof.
  intros Hlt. unfold game_measure.
  destruct (turn_cases secret_word guess σ) as [[Hm Hg]|(Hm & Hn & Hs & Hg)].
  - rewrite Hm.
    assert (size (substring_set secret_word ∖ guessed (turn secret_word guess σ))
            ≤ size (substring_set secret_word ∖ guessed σ))%nat
      by (apply subseteq_size; set_solver).
    lia.
  - rewrite Hm, Hg.
    assert (size (substring_set secret_word ∖ (guessed σ ∪ {[guess]}))
            < size (substring_set secret_word ∖ guessed σ))%nat.
    { apply subset_size. set_solver. }
    lia.
Qed.

Section HangmanFacts.
Context {St : Type}.
Variable guesser : list string → gset string → St → result string * St.

Lemma hangman_loop_total fuel secret_word max_mistakes σ st :
  (game_measure secret_word max_mistakes σ < fuel)%nat →
  ∃ r st',
    hangman_loop guesser fuel secret_word max_mistakes σ st = Some (r, st')
    ∧ (∀ m, r = Ok m →
            (mistakes σ ≤ m)%Z ∧ ((mistakes σ ≤ max_mistakes)%Z → (m ≤ max_mistakes)%Z))
    ∧ (∀ e, r = Raise e →
            ∃ mask guessed st0 st1, guesser mask guessed st0 = (Raise e, st1)).
Proof.
  revert σ st. induction fuel as [|fuel IH]; intros σ st Hfuel; [lia|].
  simpl. destruct (mistakes σ <? max_mistakes)%Z eqn:Hlt.
  - apply Z.ltb_lt in Hlt.
    destruct (guesser (mask σ) (guessed σ) st) as [[guess|e] st1] eqn:Hg.
    + pose proof (turn_decreases secret_word max_mistakes guess σ Hlt) as Hdec.
      assert (mistakes σ ≤ mistakes (turn secret_word guess σ) ≤ mistakes σ + 1)%Z
        as Hstep
        by (destruct (turn_cases secret_word guess σ) as [[-> _]|(-> & _)]; lia).
      case_bool_decide.
      * eexists _, _. split; [done|]. split; [|done].
        intros m [= <-]. lia.
      * destruct (IH (turn secret_word guess σ) st1) as (r & st' & -> & Hok & Hraise);
          [lia|].
        eexists _, _. split; [done|]. split; [|done].
        intros m Hm. destruct (Hok m Hm). lia.
    + eexists _, _. split; [done|]. split; [done|].
      intros e' [= <-]. eauto.
  - apply Z.ltb_ge in Hlt.
    eexists _, _. split; [done|]. split; [|done].
    intros m [= <-]. lia.
Qed.

Lemma enough_fuel_initial fuel secret_word max_mistakes :
  (enough_fuel secret_word max_mistakes ≤ fuel)%nat →
  (game_measure (lower secret_word) max_mistakes
     {| mask := replicate (String.length (lower secret_word)) "_";
        guessed := ∅; mistakes := 0 |} < fuel)%nat.
Proof.
  unfold enough_fuel, game_measure; simpl. intros H.
  assert (size (substring_set (lower secret_word) ∖ ∅)
          ≤ size (substring_set (lower secret_word)))%nat
    by (apply subseteq_size; set_solver).
  rewrite Z.sub_0_r. lia.
Qed.

(** C7. For every secret word, every strategy and every cap of at least 1,
    [hangman] comes to a result, and when it returns a mistake count [m]
    then [0 <= m <= max_mistakes]. (The only other result is an exception
    that the strategy itself raised.) *)
Theorem hangman_mistakes_in_range fuel secret_word max_mistakes st :
  (1 ≤ max_mistakes)%Z →
  (enough_fuel secret_word max_mistakes ≤ fuel)%nat →
  ∃ r st',
    hangman guesser fuel secret_word max_mistakes st = Some (r, st')
    ∧ match r with
      | Ok m => (0 ≤ m ≤ max_mistakes)%Z
      | Raise e =>
          ∃ mask guessed st0 st1, guesser mask guessed st0 = (Raise e, st1)
      end.
Proof.
  intros Hmax Hfuel. unfold hangman.
  destruct (hangman_loop_total fuel (lower secret_word) max_mistakes _ st
              (enough_fuel_initial _ _ _ Hfuel)) as (r & st' & -> & Hok & Hraise).
  exists r, st'. split; [done|].
  destruct r as [m|e]; [|by apply Hraise].
  destruct (Hok m eq_refl) as [H0 H1]. simpl in *. lia.
Qed.
End HangmanFacts.

(** ** Counters *)

Lemma counter_total_empty : counter_total ∅ = 0%Z.
Proof. unfold counter_total. apply map_fold_empty. Qed.

Lemma counter_total_bounds (c : Counter) :
  counter_nonneg c →
  (0 ≤ counter_total c)%Z ∧ ∀ x, (counter_get c x ≤ counter_total c)%Z.
Proof.
  unfold counter_total, counter_get, counter_nonneg.
  apply (map_fold_weak_ind
           (λ r (m : Counter),
              (∀ x v, m !! x = Some v → (0 ≤ v)%Z) →
              (0 ≤ r)%Z ∧ ∀ x, (default 0%Z (m !! x) ≤ r)%Z)).
  - intros _. split; [lia|]. intros x. rewrite lookup_empty. simpl. lia.
  - intros i v m r Hi IH Hnn.
    assert (0 ≤ v)%Z by (apply (Hnn i); apply lookup_insert_eq).
    destruct IH as [Hr Hle].
    { intros x u Hx. apply (Hnn x). rewrite lookup_insert_ne; [done|].
      intros ->. congruence. }
    split; [lia|]. intros x.
    destruct (decide (i = x)) as [->|Hne].
    + rewrite lookup_insert_eq. simpl. lia.
    + rewrite lookup_insert_ne by done. specialize (Hle x). lia.
Qed.

Lemma counter_get_nonneg (c : Counter) x :
  counter_nonneg c → (0 ≤ counter_get c x)%Z.
Proof.
  intros Hnn. unfold counter_get. destruct (c !! x) as [v|] eqn:E; simpl; [|lia].
  by apply (Hnn x).
Qed.

Lemma counter_incr_nonneg (c : Counter) x :
  counter_nonneg c → counter_nonneg (counter_incr c x).
Proof.
  intros Hnn y v. unfold counter_incr.
  destruct (decide (x = y)) as [->|Hne].
  - rewrite lookup_insert_eq. intros [= <-].
    pose proof (counter_get_nonneg c y Hnn). lia.
  - rewrite lookup_insert_ne by done. apply Hnn.
Qed.

Lemma counter_nonneg_empty : counter_nonneg ∅.
Proof. intros x v. by rewrite lookup_empty. Qed.

(** ** The unigram block and the whole accumulation *)

Lemma score_unigram_run letter l prob T h L w1 :
  L !! 1%nat = Some w1 → total1 T ≠ 0%Z →
  score_unigram letter l prob (mk T (<[l := L]> h))
  = (Ok (prob + inject_Z (count1 T letter) * w1 / inject_Z (total1 T))%Q,
     mk T (<[l := L]> h)).
Proof.
  intros H1 Ht. unfold score_unigram, bind, unigram_table.
  rewrite (lambdas_getitem_run _ _ _ _ _ _ H1). cbn [ngram_counts].
  apply Z.eqb_neq in Ht. unfold total1 in Ht. rewrite Ht. reflexivity.
Qed.

Lemma score_unigram_empty letter l prob T h L a b :
  L !! 0%nat = Some a → L !! 1%nat = Some b → total1 T = 0%Z →
  score_unigram letter l prob (mk T (<[l := L]> h))
  = (Raise TypeError, mk T (<[l := <[0%nat := (a + b)%Q]> L]> h)).
Proof.
  intros H0 H1 Ht. unfold score_unigram, bind, unigram_table.
  rewrite (lambdas_getitem_run _ _ _ _ _ _ H1). cbn [ngram_counts].
  unfold total1 in Ht. rewrite Ht. cbn [Z.eqb negb].
  by rewrite (lambdas_iadd_run _ _ _ _ _ _ _ _ H0 H1).
Qed.

Lemma unigram_touch_down T k c :
  unigram_counts (touch_down T k c) = unigram_counts T.
Proof.
  revert T. induction k as [|[|k] IH]; intros T; [done..|].
  change (touch_down T (S (S k)) c) with (touch_down (touch T (S (S k)) c) (S k) c).
  by rewrite IH, unigram_touch.
Qed.

Lemma peek_touch_down T k c k' c' : peek (touch_down T k c) k' c' = peek T k' c'.
Proof.
  revert T. induction k as [|[|k] IH]; intros T; [done..|].
  change (touch_down T (S (S k)) c) with (touch_down (touch T (S (S k)) c) (S k) c).
  by rewrite IH, peek_touch.
Qed.

(** ** The cascade of the specification *)

Lemma cascade_spec_S T c letter k acc W :
  cascade_spec T c letter (S (S k)) acc W
  = cascade_spec T c letter (S k)
      (cascade_step T c letter (S (S k)) acc W).1
      (cascade_step T c letter (S (S k)) acc W).2.
Proof. reflexivity. Qed.

Lemma cascade_step_weights T c letter k acc acc0 W :
  (cascade_step T c letter k acc W).2 = (cascade_step T c letter k acc0 W).2.
Proof. unfold cascade_step. by destruct (ktotal T k c =? 0)%Z. Qed.

Lemma cascade_spec_weights T c letter k acc acc0 W :
  (cascade_spec T c letter k acc W).2 = (cascade_spec T c letter k acc0 W).2.
Proof.
  revert acc acc0 W. induction k as [|[|k] IH]; intros acc acc0 W; [done..|].
  rewrite !cascade_spec_S.
  rewrite (cascade_step_weights T c letter (S (S k)) acc acc0). apply IH.
Qed.

Lemma cascade_step_frame T c letter k acc W j :
  j ≠ (k - 1)%nat → (cascade_step T c letter k acc W).2 !! j = W !! j.
Proof.
  intros Hj. unfold cascade_step. destruct (ktotal T k c =? 0)%Z; simpl; [|done].
  by rewrite lookup_insert_ne.
Qed.

Lemma cascade_spec_frame T c letter k acc W j :
  (k ≤ j)%nat ∨ j = 0%nat →
  (cascade_spec T c letter k acc W).2 !! j = W !! j.
Proof.
  revert acc W. induction k as [|[|k] IH]; intros acc W Hj; [done..|].
  rewrite cascade_spec_S, IH by lia.
  apply cascade_step_frame. lia.
Qed.

Lemma cascade_spec_keys T c letter k acc W j :
  is_Some (W !! j) → is_Some ((cascade_spec T c letter k acc W).2 !! j).
Proof.
  revert acc W. induction k as [|[|k] IH]; intros acc W Hj; [done..|].
  rewrite cascade_spec_S. apply IH, cascade_step_keys, Hj.
Qed.

Lemma weight_frame (W W' : Lambdas) j : W' !! j = W !! j → weight W' j = weight W j.
Proof. unfold weight. by intros ->. Qed.

Lemma sum_orders_S f k : sum_orders f (S k) = (sum_orders f k + f (S k))%Q.
Proof. reflexivity. Qed.

Lemma sum_orders_ext f g k :
  (∀ j, (1 ≤ j ≤ k)%nat → (f j == g j)%Q) →
  (sum_orders f k == sum_orders g k)%Q.
Proof.
  induction k as [|k IH]; intros H; simpl; [reflexivity|].
  rewrite IH, (H (S k)) by auto with lia. reflexivity.
Qed.

Lemma weight_insert_eq (W : Lambdas) k q : weight (<[k := q]> W) k = q.
Proof. unfold weight. by rewrite lookup_insert_eq. Qed.

Lemma weight_insert_ne (W : Lambdas) k j q :
  k ≠ j → weight (<[k := q]> W) j = weight W j.
Proof. intros. unfold weight. by rewrite lookup_insert_ne. Qed.

(** The weights multiplied into the contributing orders add up to the
    configured weights of the orders 1..k. *)
Lemma cascade_spec_accounted T c letter k acc W :
  total1 T ≠ 0%Z → (1 ≤ k)%nat →
  (accounted T c k (cascade_spec T c letter k acc W).2
   == sum_orders (weight W) k)%Q.
Proof.
  intros Ht Hk. revert acc W.
  destruct k as [|k]; [lia|]. clear Hk.
  induction k as [|k IH]; intros acc W.
  - unfold accounted; simpl. apply Z.eqb_neq in Ht. rewrite Ht. reflexivity.
  - rewrite cascade_spec_S.
    set (W1 := (cascade_step T c letter (S (S k)) acc W).2).
    set (a1 := (cascade_step T c letter (S (S k)) acc W).1).
    unfold accounted in *. rewrite sum_orders_S, IH.
    rewrite (sum_orders_S (weight W)).
    rewrite (weight_frame _ _ _ (cascade_spec_frame T c letter (S k) a1 W1 (S (S k)) ltac:(lia))).
    change (order_total T c (S (S k))) with (ktotal T (S (S k)) c).
    subst W1. unfold cascade_step.
    destruct (ktotal T (S (S k)) c =? 0)%Z eqn:E; simpl.
    + replace (S k - 0)%nat with (S k) by lia.
      rewrite weight_insert_eq.
      rewrite (sum_orders_ext _ (weight W) k).
      * ring.
      * intros j Hj. rewrite weight_insert_ne by lia. reflexivity.
    + reflexivity.
Qed.

Lemma cascade_spec_prob T c letter k acc W :
  (1 ≤ k)%nat →
  ((cascade_spec T c letter k acc W).1
   + contribution T c letter (cascade_spec T c letter k acc W).2 1
   == acc + sum_orders (contribution T c letter (cascade_spec T c letter k acc W).2) k)%Q.
Proof.
  intros Hk. revert acc W.
  destruct k as [|k]; [lia|]. clear Hk.
  induction k as [|k IH]; intros acc W.
  - simpl. ring.
  - rewrite cascade_spec_S.
    set (W1 := (cascade_step T c letter (S (S k)) acc W).2).
    set (a1 := (cascade_step T c letter (S (S k)) acc W).1).
    rewrite IH, (sum_orders_S _ (S k)).
    assert (a1 == acc + contribution T c letter
                          (cascade_spec T c letter (S k) a1 W1).2 (S (S k)))%Q
      as Ha; [|lra].
    unfold contribution.
    rewrite (weight_frame _ _ _ (cascade_spec_frame T c letter (S k) a1 W1 (S (S k)) ltac:(lia))).
    change (order_total T c (S (S k))) with (ktotal T (S (S k)) c).
    change (order_count T c letter (S (S k))) with (kcount T (S (S k)) c letter).
    subst a1 W1.
    rewrite (weight_frame W _ _ (cascade_step_frame T c letter (S (S k)) acc W (S (S k)) ltac:(lia))).
    unfold cascade_step.
    destruct (ktotal T (S (S k)) c =? 0)%Z; simpl; ring.
Qed.

Lemma cascade_step_grows T c letter k acc W :
  (∀ j, (0 <= weight W j)%Q) →
  ∀ j, (weight W j <= weight (cascade_step T c letter k acc W).2 j)%Q.
Proof.
  intros Hnn j. unfold cascade_step.
  destruct (ktotal T k c =? 0)%Z; simpl; [|apply Qle_refl].
  destruct (decide ((k - 1)%nat = j)) as [<-|Hne].
  - rewrite weight_insert_eq. pose proof (Hnn k). lra.
  - rewrite weight_insert_ne by done. apply Qle_refl.
Qed.

Lemma cascade_spec_grows T c letter k acc W :
  (∀ j, (0 <= weight W j)%Q) →
  ∀ j, (weight W j <= weight (cascade_spec T c letter k acc W).2 j)%Q.
Proof.
  revert acc W. induction k as [|[|k] IH]; intros acc W Hnn j;
    [apply Qle_refl..|].
  rewrite cascade_spec_S.
  pose proof (cascade_step_grows T c letter (S (S k)) acc W Hnn) as Hstep.
  eapply Qle_trans; [apply Hstep|]. apply IH.
  intros i. eapply Qle_trans; [apply Hnn|apply Hstep].
Qed.

Lemma accumulate_prob_run letter context n l w L :
  (1 ≤ n ≤ 5)%nat →
  heap w !! l = Some L →
  (∀ k, (1 ≤ k ≤ n)%nat → is_Some (L !! k)) →
  total1 (ngram_counts w) ≠ 0%Z →
  ∃ p,
    accumulate_prob letter context n l w
    = (Ok p,
       mk (touch_down (ngram_counts w) n (conditional_of context))
          (<[l := (cascade_spec (ngram_counts w) (conditional_of context)
                                letter n 0 L).2]> (heap w)))
    ∧ (p == sum_orders
              (contribution (ngram_counts w) (conditional_of context) letter
                 (cascade_spec (ngram_counts w) (conditional_of context)
                               letter n 0 L).2) n)%Q.
Proof.
  intros Hn HL Hkeys Ht. destruct w as [T h]; simpl in *.
  set (c := conditional_of context).
  assert (accumulate_prob letter context n l (mk T h)
          = accumulate_prob letter context n l (mk T (<[l := L]> h))) as ->
    by (by rewrite insert_id).
  unfold accumulate_prob, bind. fold c.
  destruct (higher_orders_refines letter c n l 0 0 T h L) as (p & -> & Hp);
    [lia|done|reflexivity|].
  assert ((0 <? n)%nat = true) as -> by (apply Nat.ltb_lt; lia).
  destruct (cascade_spec_keys T c letter n 0 L 1%nat (Hkeys 1%nat ltac:(lia)))
    as [w1 Hw1].
  rewrite (score_unigram_run _ _ _ _ _ _ w1 Hw1)
    by (unfold total1; by rewrite unigram_touch_down).
  eexists; split; [reflexivity|].
  rewrite Hp.
  pose proof (cascade_spec_prob T c letter n 0 L ltac:(lia)) as Hsum.
  rewrite Qplus_0_l in Hsum. rewrite <- Hsum.
  apply Qplus_comp; [reflexivity|].
  unfold contribution. cbn [order_total order_count].
  apply Z.eqb_neq in Ht. rewrite Ht.
  unfold count1, total1. cbn [ngram_counts]. rewrite unigram_touch_down.
  rewrite (weight_Some _ _ _ Hw1). unfold Qdiv.
  rewrite (Qmult_comm (inject_Z _) w1). reflexivity.
Qed.

(** ** The tables the Builder makes *)

Lemma foldl_invariant {A B} (P : A → Prop) (f : A → B → A) (l : list B) a :
  P a → (∀ a b, P a → P (f a b)) → P (foldl f a l).
Proof.
  intros Ha Hf. revert a Ha. induction l as [|b l IH]; intros a Ha; simpl; auto.
Qed.

Lemma dd_incr_ok k (d : DefaultDict) c x :
  key_fits k c → dd_ok k d → dd_ok k (dd_incr d c x).
Proof.
  intros Hc Hd c' cnt. unfold dd_incr.
  destruct (decide (c = c')) as [<-|Hne].
  - rewrite lookup_insert_eq. intros [= <-]. split; [done|].
    apply counter_incr_nonneg.
    destruct (d !! c) as [cnt|] eqn:E; simpl.
    + by destruct (Hd c cnt E).
    + apply counter_nonneg_empty.
  - rewrite lookup_insert_ne by done. apply Hd.
Qed.

Lemma record_n_gram_ok n d g : dd_ok n d → dd_ok n (record_n_gram n d g).
Proof.
  intros Hd.
  destruct n as [|[|[|[|[|[|n]]]]]]; simpl; try done;
    apply dd_incr_ok; simpl; auto with lia.
Qed.

Lemma get_ngram_counts_ok words n : dd_ok n (get_ngram_counts words n).
Proof.
  unfold get_ngram_counts. apply foldl_invariant.
  - intros c cnt. by rewrite lookup_empty.
  - intros d w Hd. simpl.
    destruct (n <=? length (convert_word (chars w) n))%nat; [|done].
    apply foldl_invariant; [done|]. intros. by apply record_n_gram_ok.
Qed.

Lemma get_unigram_counts_nonneg words : counter_nonneg (get_unigram_counts words).
Proof.
  unfold get_unigram_counts. apply foldl_invariant.
  - apply counter_nonneg_empty.
  - intros c w Hc. apply foldl_invariant; [done|].
    intros. by apply counter_incr_nonneg.
Qed.

Lemma table_train_ok train_set k : dd_ok k (table (train train_set) k).
Proof.
  destruct k as [|[|[|[|[|[|k]]]]]]; simpl;
    try apply get_ngram_counts_ok; intros c cnt; by rewrite lookup_empty.
Qed.

(** ** Tables after queries *)

Lemma tables_ext_refl T : tables_ext T T.
Proof. split; [done|]. by left. Qed.

Lemma tables_ext_trans T1 T2 T3 :
  tables_ext T1 T2 → tables_ext T2 T3 → tables_ext T1 T3.
Proof.
  intros [Hu1 H1] [Hu2 H2]. split; [congruence|]. intros k c.
  destruct (H1 k c) as [E1|[E1 E1']], (H2 k c) as [E2|[E2 E2']].
  - left. congruence.
  - right. split; congruence.
  - right. split; congruence.
  - congruence.
Qed.

Lemma tables_ext_touch T k c : tables_ext T (touch T k c).
Proof.
  split; [apply unigram_touch|]. intros k' c'.
  destruct (table_touch T k c k' c') as [E|(_ & _ & _ & E & E')]; auto.
Qed.

Lemma tables_ext_touch_down T k c : tables_ext T (touch_down T k c).
Proof.
  revert T. induction k as [|[|k] IH]; intros T; try apply tables_ext_refl.
  change (touch_down T (S (S k)) c) with (touch_down (touch T (S (S k)) c) (S k) c).
  eapply tables_ext_trans; [apply tables_ext_touch|apply IH].
Qed.

Lemma tables_ext_peek T T' k c : tables_ext T T' → peek T' k c = peek T k c.
Proof.
  intros [_ H]. unfold peek. by destruct (H k c) as [->|[-> ->]].
Qed.

Lemma tables_ext_present T T' k c :
  tables_ext T T' → is_Some (table T k !! c) → is_Some (table T' k !! c).
Proof.
  intros [_ H] Hs. destruct (H k c) as [->|[E _]]; [done|].
  rewrite E in Hs. by destruct Hs.
Qed.

Lemma built_from_counts_nonneg train_set T :
  built_from train_set T → counts_nonneg T.
Proof.
  intros [Hu H]. split.
  - rewrite Hu. apply get_unigram_counts_nonneg.
  - intros k c cnt Hc. destruct (H k c) as [E|[_ E]].
    + rewrite Hc in E. symmetry in E. by destruct (table_train_ok _ _ _ _ E).
    + rewrite Hc in E. injection E as ->. apply counter_nonneg_empty.
Qed.

Lemma built_from_well_keyed train_set T : built_from train_set T → well_keyed T.
Proof.
  intros [Hu H] k c cnt Hc Hne. destruct (H k c) as [E|[_ E]].
  - rewrite Hc in E. symmetry in E. by destruct (table_train_ok _ _ _ _ E).
  - rewrite Hc in E. by injection E as ->.
Qed.

Lemma built_from_train train_set : built_from train_set (train train_set).
Proof. apply tables_ext_refl. Qed.

Lemma ktotal_unfit T k c : well_keyed T → ¬ key_fits k c → ktotal T k c = 0%Z.
Proof.
  intros Hwk Hc. unfold ktotal, peek.
  destruct (table T k !! c) as [cnt|] eqn:E; simpl;
    [|apply counter_total_empty].
  destruct (decide (cnt = ∅)) as [->|Hne]; [apply counter_total_empty|].
  destruct Hc. by apply (Hwk k c cnt).
Qed.

Lemma kcount_nonneg T k c letter : counts_nonneg T → (0 ≤ kcount T k c letter)%Z.
Proof.
  intros [_ H]. unfold kcount, peek. apply counter_get_nonneg.
  destruct (table T k !! c) as [cnt|] eqn:E; simpl;
    [by apply (H k c)|apply counter_nonneg_empty].
Qed.

Lemma ktotal_nonneg T k c : counts_nonneg T → (0 ≤ ktotal T k c)%Z.
Proof.
  intros [_ H]. unfold ktotal, peek. apply counter_total_bounds.
  destruct (table T k !! c) as [cnt|] eqn:E; simpl;
    [by apply (H k c)|apply counter_nonneg_empty].
Qed.

Lemma touch_present T k c :
  (2 ≤ k ≤ 5)%nat → is_Some (table (touch T k c) k !! c).
Proof.
  intros Hk. unfold touch. destruct (table T k !! c) eqn:E; [by rewrite E|].
  rewrite table_set_table, lookup_insert_eq by done. eauto.
Qed.

Lemma touch_down_present T n c k :
  (2 ≤ k ≤ n)%nat → (n ≤ 5)%nat → is_Some (table (touch_down T n c) k !! c).
Proof.
  revert T. induction n as [|[|n] IH]; intros T Hk Hn; try lia.
  change (touch_down T (S (S n)) c) with (touch_down (touch T (S (S n)) c) (S n) c).
  destruct (decide (k = S (S n))) as [->|Hne].
  - eapply tables_ext_present; [apply tables_ext_touch_down|].
    apply touch_present. lia.
  - apply IH; lia.
Qed.

(** ** What computations preserve *)

Lemma preserves_ret {A} R (a : A) : Reflexive R → preserves R (ret a).
Proof. intros HR w. apply HR. Qed.

Lemma preserves_raise {A} R e : Reflexive R → preserves R (@raise A e).
Proof. intros HR w. apply HR. Qed.

Lemma preserves_bind {A B} R (c : Py A) (k : A → Py B) :
  Transitive R → preserves R c → (∀ a, preserves R (k a)) →
  preserves R (bind c k).
Proof.
  intros HR Hc Hk w. unfold bind. specialize (Hc w).
  destruct (c w) as [[a|e] w1]; simpl in *; [|done].
  eapply HR; [exact Hc|apply Hk].
Qed.

Lemma preserves_if {A} R (b : bool) (c1 c2 : Py A) :
  preserves R c1 → preserves R c2 → preserves R (if b then c1 else c2).
Proof. by destruct b. Qed.

#[global] Instance tables_step_refl : Reflexive tables_step.
Proof. intros w. apply tables_ext_refl. Qed.

#[global] Instance tables_step_trans : Transitive tables_step.
Proof. intros w1 w2 w3. apply tables_ext_trans. Qed.

#[global] Instance heap_except_refl l : Reflexive (heap_except l).
Proof. by intros w l'. Qed.

#[global] Instance heap_except_trans l : Transitive (heap_except l).
Proof. intros w1 w2 w3 H1 H2 l' Hl. by rewrite H2, H1. Qed.

#[global] Instance heap_frame_refl : Reflexive heap_frame.
Proof. by intros w l. Qed.

#[global] Instance heap_frame_trans : Transitive heap_frame.
Proof.
  intros w1 w2 w3 H1 H2 l Hl. rewrite H2, H1; [done..|].
  apply elem_of_dom. rewrite H1 by done. by apply elem_of_dom.
Qed.

(** The primitive operations: tables *)

Lemma dd_getitem_tables k c : preserves tables_step (dd_getitem k c).
Proof. intros w. rewrite dd_getitem_run. apply tables_ext_touch. Qed.

Lemma unigram_table_tables : preserves tables_step unigram_table.
Proof. intros w. apply tables_ext_refl. Qed.

Lemma lambdas_getitem_tables l k : preserves tables_step (lambdas_getitem l k).
Proof.
  intros w. unfold lambdas_getitem.
  destruct (dict_at w l !! k); apply tables_ext_refl.
Qed.

Lemma lambdas_setitem_tables l k q : preserves tables_step (lambdas_setitem l k q).
Proof. intros w. apply tables_ext_refl. Qed.

Lemma dict_new_tables L : preserves tables_step (dict_new L).
Proof. intros w. apply tables_ext_refl. Qed.

Lemma dict_copy_tables l : preserves tables_step (dict_copy l).
Proof. intros w. apply tables_ext_refl. Qed.

(** The primitive operations: heap *)

Lemma dd_getitem_heap l k c : preserves (heap_except l) (dd_getitem k c).
Proof. intros w. by rewrite dd_getitem_run. Qed.

Lemma unigram_table_heap l : preserves (heap_except l) unigram_table.
Proof. by intros w. Qed.

Lemma lambdas_getitem_heap l k : preserves (heap_except l) (lambdas_getitem l k).
Proof. intros w. unfold lambdas_getitem. by destruct (dict_at w l !! k). Qed.

Lemma lambdas_setitem_heap l k q : preserves (heap_except l) (lambdas_setitem l k q).
Proof. intros w l' Hl. simpl. by rewrite lookup_insert_ne. Qed.

Create HintDb py_frame.

#[global] Hint Resolve preserves_ret preserves_raise preserves_if
  dd_getitem_tables unigram_table_tables lambdas_getitem_tables
  lambdas_setitem_tables dict_new_tables dict_copy_tables
  dd_getitem_heap unigram_table_heap lambdas_getitem_heap
  lambdas_setitem_heap : py_frame.

Ltac frame_steps :=
  repeat first
    [ progress intros
    | apply preserves_bind; [apply _ | |]
    | apply preserves_if
    | apply preserves_ret; apply _
    | apply preserves_raise; apply _
    | solve [eauto with py_frame] ].

Lemma lambdas_iadd_tables l i j : preserves tables_step (lambdas_iadd l i j).
Proof. unfold lambdas_iadd. frame_steps. Qed.

Lemma lambdas_iadd_heap l i j : preserves (heap_except l) (lambdas_iadd l i j).
Proof. unfold lambdas_iadd. frame_steps. Qed.

#[global] Hint Resolve lambdas_iadd_tables lambdas_iadd_heap : py_frame.

Lemma score_order_tables k letter c l prob :
  preserves tables_step (score_order k letter c l prob).
Proof. unfold score_order. frame_steps. Qed.

Lemma score_order_heap k letter c l prob :
  preserves (heap_except l) (score_order k letter c l prob).
Proof. unfold score_order. frame_steps. Qed.

Lemma score_unigram_tables letter l prob :
  preserves tables_step (score_unigram letter l prob).
Proof. unfold score_unigram. frame_steps. Qed.

Lemma score_unigram_heap letter l prob :
  preserves (heap_except l) (score_unigram letter l prob).
Proof. unfold score_unigram. frame_steps. Qed.

#[global] Hint Resolve score_order_tables score_order_heap
  score_unigram_tables score_unigram_heap : py_frame.

Lemma accumulate_prob_tables letter context n l :
  preserves tables_step (accumulate_prob letter context n l).
Proof. unfold accumulate_prob, higher_orders. frame_steps. Qed.

Lemma accumulate_prob_heap letter context n l :
  preserves (heap_except l) (accumulate_prob letter context n l).
Proof. unfold accumulate_prob, higher_orders. frame_steps. Qed.

#[global] Hint Resolve accumulate_prob_tables accumulate_prob_heap : py_frame.

(** ** The guess selector leaves the tables and the caller's heap cells *)

Lemma dict_new_frame L : preserves heap_frame (dict_new L).
Proof.
  intros w l Hl. simpl. rewrite lookup_insert_ne; [done|].
  intros <-. by apply (is_fresh (dom (heap w))).
Qed.

Lemma dict_new_fresh L w : (dict_new L w).1 = Ok (fresh (dom (heap w))).
Proof. reflexivity. Qed.

(** What reading a table under a key leaves in it, entry by entry. *)
Lemma table_touch_lookup T k c k' c' :
  table (touch T k c) k' !! c'
  = match table T k' !! c' with
    | Some cnt => Some cnt
    | None => if bool_decide (k' = k ∧ (2 ≤ k ≤ 5)%nat ∧ c' = c)
              then Some ∅ else None
    end.
Proof.
  unfold touch. destruct (table T k !! c) eqn:E.
  - destruct (table T k' !! c') eqn:E'; [done|].
    case_bool_decide as H; [|done]. destruct H as (-> & _ & ->). congruence.
  - destruct (decide (k' = k)) as [->|Hne].
    + destruct (decide (2 ≤ k ≤ 5)%nat) as [Hr|Hr].
      * rewrite table_set_table by done.
        destruct (decide (c' = c)) as [->|Hc].
        -- rewrite lookup_insert_eq, E. by rewrite bool_decide_eq_true_2.
        -- rewrite lookup_insert_ne by done.
           destruct (table T k !! c'); [done|].
           rewrite bool_decide_eq_false_2; [done|]. naive_solver.
      * rewrite !(table_out_of_range _ k) by done. rewrite !lookup_empty.
        rewrite bool_decide_eq_false_2; [done|]. naive_solver.
    + rewrite table_set_table_ne by done.
      destruct (table T k' !! c'); [done|].
      rewrite bool_decide_eq_false_2; [done|]. naive_solver.
Qed.

Lemma table_touch_down_lookup T n c k' c' :
  table (touch_down T n c) k' !! c'
  = match table T k' !! c' with
    | Some cnt => Some cnt
    | None => if bool_decide ((2 ≤ k' ≤ n)%nat ∧ (k' ≤ 5)%nat ∧ c' = c)
              then Some ∅ else None
    end.
Proof.
  revert T. induction n as [|n IH]; intros T.
  - simpl. destruct (table T k' !! c'); [done|].
    rewrite bool_decide_eq_false_2; [done|]. intros [? _]. lia.
  - destruct n as [|n].
    + simpl. destruct (table T k' !! c'); [done|].
      rewrite bool_decide_eq_false_2; [done|]. intros [? _]. lia.
    + change (touch_down T (S (S n)) c)
        with (touch_down (touch T (S (S n)) c) (S n) c).
      rewrite IH, table_touch_lookup.
      destruct (table T k' !! c') as [cnt|]; [done|].
      destruct (decide (k' = S (S n)));
        repeat case_bool_decide; try done; exfalso; naive_solver lia.
Qed.

Section GuesserFacts.
Variable ln : Q → Q.

Lemma math_log_tables x : preserves tables_step (math_log ln x).
Proof. unfold math_log. frame_steps. Qed.

Lemma math_log_heap l x : preserves (heap_except l) (math_log ln x).
Proof. unfold math_log. frame_steps. Qed.

Lemma get_ngram_prob_tables letter context n l :
  preserves tables_step (get_ngram_prob ln letter context n l).
Proof.
  unfold get_ngram_prob. frame_steps.
Qed.

Lemma get_ngram_prob_heap letter context n l :
  preserves (heap_except l) (get_ngram_prob ln letter context n l).
Proof.
  unfold get_ngram_prob. frame_steps.
Qed.

#[local] Hint Resolve get_ngram_prob_tables get_ngram_prob_heap : py_frame.

Lemma for_letters_tables letters context n l letter_probs :
  preserves tables_step (for_letters ln letters context n l letter_probs).
Proof.
  revert letter_probs. induction letters as [|letter rest IH];
    intros letter_probs; simpl; frame_steps.
Qed.

(** One candidate letter: the copy is a new cell, and only the copy is
    written. *)
Lemma copy_then_score_frame letter context n l :
  preserves heap_frame
    (let! lambdas_copy := dict_copy l in
     get_ngram_prob ln letter context n lambdas_copy).
Proof.
  intros w l0 Hl0. unfold bind, dict_copy.
  pose proof (dict_new_frame (dict_at w l) w l0 Hl0) as Hnew.
  destruct (dict_new (dict_at w l) w) as [[l'|e] w1] eqn:E.
  - assert (l' = fresh (dom (heap w))) as ->
      by (pose proof (dict_new_fresh (dict_at w l) w) as F;
          rewrite E in F; by injection F).
    simpl in Hnew. rewrite <- Hnew.
    apply (get_ngram_prob_heap letter context n (fresh (dom (heap w))) w1).
    intros ->. by apply (is_fresh (dom (heap w))).
  - exact Hnew.
Qed.

Lemma for_letters_frame letters context n l letter_probs :
  preserves heap_frame (for_letters ln letters context n l letter_probs).
Proof.
  revert letter_probs. induction letters as [|letter rest IH];
    intros letter_probs; simpl.
  - apply preserves_ret; apply _.
  - intros w.
    pose proof (copy_then_score_frame letter context n l w) as Hstep.
    unfold bind in *.
    destruct (dict_copy l w) as [[l'|e] w1]; [|exact Hstep].
    destruct (get_ngram_prob ln letter context n l' w1) as [[p|e] w2];
      [|exact Hstep].
    simpl in Hstep. etransitivity; [exact Hstep|apply IH].
Qed.

#[local] Hint Resolve for_letters_tables for_letters_frame : py_frame.

Lemma for_positions_tables positions word letters n l letter_probs :
  preserves tables_step
    (for_positions ln positions word letters n l letter_probs).
Proof.
  revert letter_probs. induction positions as [|i rest IH];
    intros letter_probs; simpl; frame_steps.
Qed.

Lemma for_positions_frame positions word letters n l letter_probs :
  preserves heap_frame
    (for_positions ln positions word letters n l letter_probs).
Proof.
  revert letter_probs. induction positions as [|i rest IH];
    intros letter_probs; simpl; frame_steps.
Qed.

Lemma choose_lambdas_tables kw_lambdas :
  preserves tables_step
    (match kw_lambdas with
     | Some l => λ w, if (size (dict_at w l) =? 0)%nat
                      then dict_new {[ 1%nat := 1%Q ]} w
                      else (Ok l, w)
     | None => dict_new {[ 1%nat := 1%Q ]}
     end).
Proof.
  destruct kw_lambdas as [l|]; intros w; [|apply tables_ext_refl].
  destruct (size (dict_at w l) =? 0)%nat; apply tables_ext_refl.
Qed.

Lemma choose_lambdas_frame kw_lambdas :
  preserves heap_frame
    (match kw_lambdas with
     | Some l => λ w, if (size (dict_at w l) =? 0)%nat
                      then dict_new {[ 1%nat := 1%Q ]} w
                      else (Ok l, w)
     | None => dict_new {[ 1%nat := 1%Q ]}
     end).
Proof.
  destruct kw_lambdas as [l|]; intros w; [|apply dict_new_frame].
  destruct (size (dict_at w l) =? 0)%nat; [apply dict_new_frame|done].
Qed.

Lemma ngram_guesser_tables mask guessed kw_n kw_lambdas :
  preserves tables_step (ngram_guesser ln mask guessed kw_n kw_lambdas).
Proof.
  unfold ngram_guesser. apply preserves_bind; [apply _| |].
  - apply choose_lambdas_tables.
  - intros l. apply preserves_bind; [apply _| |].
    + apply for_positions_tables.
    + intros lp. destruct (py_max lp) as [[? ?]|]; frame_steps.
Qed.

Lemma ngram_guesser_frame mask guessed kw_n kw_lambdas :
  preserves heap_frame (ngram_guesser ln mask guessed kw_n kw_lambdas).
Proof.
  unfold ngram_guesser. apply preserves_bind; [apply _| |].
  - apply choose_lambdas_frame.
  - intros l. apply preserves_bind; [apply _| |].
    + apply for_positions_frame.
    + intros lp. destruct (py_max lp) as [[? ?]|]; frame_steps.
Qed.

(** C4. A call of the n-gram guess selector leaves the caller's weight
    mapping as it was: for every mask, guessed set, order and weight
    mapping [L] stored at the reference [lambdas] the caller passes, the
    same [L] is stored there when [ngram_guesser] returns or raises. The
    cascading of [get_ngram_prob] writes to a copy made for each call. *)
Theorem ngram_guesser_keeps_callers_lambdas mask guessed kw_n lambdas w L :
  heap w !! lambdas = Some L →
  heap (ngram_guesser ln mask guessed kw_n (Some lambdas) w).2 !! lambdas
  = Some L.
Proof.
  intros HL.
  rewrite (ngram_guesser_frame mask guessed kw_n (Some lambdas) w lambdas);
    [done|].
  apply elem_of_dom. by rewrite HL.
Qed.

(** C5, as the code has it. A query never changes a count. After
    [get_ngram_prob] or [ngram_guesser], whether it returns or raises, the
    tables are those from before "after some queries" ([tables_ext]): the
    unigram table is the same, and under every key of every other table
    there is the same counter as before, except that a key that was
    missing may now hold an empty counter. No entry is removed or altered.
    What a query adds is told exactly for [get_ngram_prob] with an order
    [n] in 1..5, the weights of the orders 1..n and a non-empty unigram
    table: afterwards every table of an order 2..n holds the key of the
    query, with the counter it had or with an empty one if it was missing;
    no other key is added to any table, and the tables of the orders above
    [n] and the unigram table are as they were. *)
Theorem queries_only_add_empty_counters
    letter context n l mask guessed kw_n kw_lambdas w :
  let after_prob := ngram_counts (get_ngram_prob ln letter context n l w).2 in
  let after_guess :=
    ngram_counts (ngram_guesser ln mask guessed kw_n kw_lambdas w).2 in
  tables_ext (ngram_counts w) after_prob
  ∧ tables_ext (ngram_counts w) after_guess
  ∧ (∀ k c x,
      kcount after_prob k c x = kcount (ngram_counts w) k c x
      ∧ ktotal after_prob k c = ktotal (ngram_counts w) k c
      ∧ kcount after_guess k c x = kcount (ngram_counts w) k c x
      ∧ ktotal after_guess k c = ktotal (ngram_counts w) k c
      ∧ count1 after_prob x = count1 (ngram_counts w) x
      ∧ count1 after_guess x = count1 (ngram_counts w) x)
  ∧ ((1 ≤ n ≤ 5)%nat →
     (∀ k, (1 ≤ k ≤ n)%nat → is_Some (dict_at w l !! k)) →
     total1 (ngram_counts w) ≠ 0%Z →
     unigram_counts after_prob = unigram_counts (ngram_counts w)
     ∧ ∀ k c,
         table after_prob k !! c
         = match table (ngram_counts w) k !! c with
           | Some cnt => Some cnt
           | None =>
               if bool_decide ((2 ≤ k ≤ n)%nat ∧ c = conditional_of context)
               then Some ∅ else None
           end).
Proof.
  intros after_prob after_guess.
  assert (tables_ext (ngram_counts w) after_prob) as Hp
    by apply get_ngram_prob_tables.
  assert (tables_ext (ngram_counts w) after_guess) as Hg
    by apply ngram_guesser_tables.
  split; [exact Hp|]. split; [exact Hg|]. split.
  - intros k c x. unfold kcount, ktotal, count1.
    rewrite (tables_ext_peek _ _ k c Hp), (tables_ext_peek _ _ k c Hg).
    destruct Hp as [-> _], Hg as [-> _]. done.
  - intros Hn Hkeys Ht. split; [apply Hp|].
    assert (∃ L, heap w !! l = Some L) as [L HL].
    { destruct (Hkeys 1%nat ltac:(lia)) as [v Hv]. unfold dict_at in Hv.
      destruct (heap w !! l) as [L|]; [eauto|].
      simpl in Hv. by rewrite lookup_empty in Hv. }
    assert (dict_at w l = L) as HdL by (unfold dict_at; by rewrite HL).
    rewrite HdL in Hkeys.
    destruct (accumulate_prob_run letter context n l w L Hn HL Hkeys Ht)
      as (p & E & _).
    assert (after_prob
            = touch_down (ngram_counts w) n (conditional_of context)) as ->.
    { subst after_prob. unfold get_ngram_prob, bind. rewrite E.
      unfold math_log. by destruct (Qle_bool p 0). }
    intros k c. rewrite table_touch_down_lookup.
    destruct (table (ngram_counts w) k !! c); [done|].
    repeat case_bool_decide; try done; exfalso; naive_solver lia.
Qed.
End GuesserFacts.

(** * The interpolation engine *)

Lemma sum_orders_nonneg f n :
  (∀ j, (0 <= f j)%Q) → (0 <= sum_orders f n)%Q.
Proof.
  intros Hf. induction n as [|n IH]; simpl; [lra|].
  pose proof (Hf (S n)). lra.
Qed.

Lemma sum_orders_pos f n :
  (∀ j, (0 <= f j)%Q) → (0 < f 1%nat)%Q → (1 ≤ n)%nat → (0 < sum_orders f n)%Q.
Proof.
  intros Hf H1 Hn. destruct n as [|n]; [lia|]. clear Hn.
  induction n as [|n IH]; simpl in *; [lra|].
  pose proof (Hf (S (S n))). lra.
Qed.

Lemma order_count_nonneg T c letter k :
  counts_nonneg T → (0 ≤ order_count T c letter k)%Z.
Proof.
  intros HT. destruct k as [|[|k]]; simpl.
  - by apply kcount_nonneg.
  - apply counter_get_nonneg, HT.
  - by apply kcount_nonneg.
Qed.

Lemma order_total_nonneg T c k : counts_nonneg T → (0 ≤ order_total T c k)%Z.
Proof.
  intros HT. destruct k as [|[|k]]; simpl.
  - by apply ktotal_nonneg.
  - apply counter_total_bounds, HT.
  - by apply ktotal_nonneg.
Qed.

Lemma inject_Z_pos z : (0 < z)%Z → (0 < inject_Z z)%Q.
Proof. intros H. unfold Qlt; simpl. lia. Qed.

Lemma inject_Z_nonneg z : (0 ≤ z)%Z → (0 <= inject_Z z)%Q.
Proof. intros H. unfold Qle; simpl. lia. Qed.

Lemma contribution_nonneg T c letter W k :
  counts_nonneg T → (0 <= weight W k)%Q → (0 <= contribution T c letter W k)%Q.
Proof.
  intros HT HW. unfold contribution.
  destruct (order_total T c k =? 0)%Z eqn:E; [lra|].
  apply Z.eqb_neq in E.
  pose proof (order_total_nonneg T c k HT).
  pose proof (order_count_nonneg T c letter k HT).
  apply Qle_shift_div_l; [apply inject_Z_pos; lia|].
  rewrite Qmult_0_l. apply Qmult_le_0_compat; [done|by apply inject_Z_nonneg].
Qed.

Lemma contribution_pos T c letter W k :
  counts_nonneg T → (0 < weight W k)%Q → (0 < order_count T c letter k)%Z →
  (0 < order_total T c k)%Z →
  (0 < contribution T c letter W k)%Q.
Proof.
  intros HT HW Hc Ht. unfold contribution.
  assert ((order_total T c k =? 0)%Z = false) as -> by (apply Z.eqb_neq; lia).
  apply Qlt_shift_div_l; [by apply inject_Z_pos|].
  rewrite Qmult_0_l. apply Qmult_lt_0_compat; [done|by apply inject_Z_pos].
Qed.

(** C1. Weight cascading. For an order [n] in 1..5 and a weight mapping with
    the orders 1..n, the blocks that [get_ngram_prob] runs for the orders
    n, ..., 2 do what the specification says, order by order
    ([cascade_spec], made of [cascade_step]): an order whose context has a
    zero total adds nothing and its weight is added to the weight of the
    next lower order, which is scored afterwards with that weight; an order
    with a non-zero total adds [weight[k] * count / total]. The unigram
    block then runs on the weights so obtained. *)
Theorem weight_cascading letter context n lambdas w L :
  (1 ≤ n ≤ 5)%nat →
  heap w !! lambdas = Some L →
  (∀ k, (1 ≤ k ≤ n)%nat → is_Some (L !! k)) →
  ∃ p w1,
    higher_orders letter (conditional_of context) n lambdas 0 w = (Ok p, w1)
    ∧ (p == (cascade_spec (ngram_counts w) (conditional_of context)
                          letter n 0 L).1)%Q
    ∧ heap w1 !! lambdas
      = Some (cascade_spec (ngram_counts w) (conditional_of context)
                           letter n 0 L).2
    ∧ accumulate_prob letter context n lambdas w
      = (let! prob := score_unigram letter lambdas p in ret prob) w1.
Proof.
  intros Hn HL Hkeys. destruct w as [T h]; simpl in *.
  assert (∀ A (f : world → A), f (mk T h) = f (mk T (<[lambdas := L]> h)))
    as Hw by (intros; by rewrite insert_id).
  destruct (higher_orders_refines letter (conditional_of context) n lambdas
              0 0 T h L) as (p & E & Hp); [lia|done|reflexivity|].
  eexists p, _. split; [|split; [exact Hp|split]].
  - rewrite (Hw _ (higher_orders _ _ _ _ _)). exact E.
  - simpl. apply lookup_insert_eq.
  - rewrite (Hw _ (accumulate_prob _ _ _ _)).
    unfold accumulate_prob, bind at 1. rewrite E.
    assert ((0 <? n)%nat = true) as -> by (apply Nat.ltb_lt; lia).
    reflexivity.
Qed.

Lemma float_min_pos : (0 < float_min)%Q.
Proof. reflexivity. Qed.






(** C3, as the code has it. In one probability computation with an order
    [n] in 1..5 and a non-empty unigram table, the probability is the sum
    over the orders 1..n of what each contributes with the weight it has
    when it is scored, and the weights multiplied into the orders that
    contributed add up to the configured weights of the orders 1..n. The
    weight of the order 0 is not touched and not used: when the configured
    weights of the orders 0..n sum to 1, the weight accounted for is 1 minus
    the configured weight of the order 0. *)
Theorem weight_accounted_without_zerogram letter context n lambdas w L :
  (1 ≤ n ≤ 5)%nat →
  heap w !! lambdas = Some L →
  (∀ k, (1 ≤ k ≤ n)%nat → is_Some (L !! k)) →
  total1 (ngram_counts w) ≠ 0%Z →
  ∃ p w' L',
    accumulate_prob letter context n lambdas w = (Ok p, w')
    ∧ heap w' !! lambdas = Some L'
    ∧ (p == sum_orders (contribution (ngram_counts w) (conditional_of context)
                                     letter L') n)%Q
    ∧ (accounted (ngram_counts w) (conditional_of context) n L'
       == sum_orders (weight L) n)%Q
    ∧ L' !! 0%nat = L !! 0%nat
    ∧ ((sum_orders (weight L) n + weight L 0 == 1)%Q →
       (accounted (ngram_counts w) (conditional_of context) n L'
        == 1 - weight L 0)%Q).
Proof.
  intros Hn HL Hkeys Ht.
  destruct (accumulate_prob_run letter context n lambdas w L Hn HL Hkeys Ht)
    as (p & E & Hp).
  pose proof (cascade_spec_accounted (ngram_counts w) (conditional_of context)
                letter n 0 L Ht ltac:(lia)) as Hacc.
  eexists p, _, _. split; [exact E|]. split; [apply lookup_insert_eq|].
  split; [exact Hp|]. split; [exact Hacc|]. split.
  - apply cascade_spec_frame. by right.
  - intros Hsum. rewrite Hacc. lra.
Qed.

Lemma contribution_zero T c letter W k :
  order_total T c k = 0%Z → contribution T c letter W k = 0%Q.
Proof. intros E. unfold contribution. by rewrite E. Qed.

Lemma conditional_of_long context :
  (2 ≤ length context)%nat → conditional_of context = KTuple context.
Proof. destruct context as [|a [|b rest]]; simpl; intros; try lia; done. Qed.

Lemma ktotal_shorter_order train_set T context n k :
  built_from train_set T → length context = (n - 1)%nat →
  (2 ≤ k < n)%nat → ktotal T k (KTuple context) = 0%Z.
Proof.
  intros Hb Hlen Hk. apply ktotal_unfit.
  - by eapply built_from_well_keyed.
  - simpl. lia.
Qed.

(** C10. With an order [n] of 3, 4 or 5 and a context of length [n-1], the
    key of every lookup is the whole context tuple: it is present in the
    tables of all the orders 2..n after the call. In tables made by the
    Builder the tables of the orders 2..n-1 hold no count under a key of
    that length, so each of these orders finds a zero total and passes its
    weight down; the probability is what the order [n] and the unigram
    contribute, the unigram with the weights of the orders 1..n-1 (and of
    [n] too when the order [n] has a zero total). *)
Theorem full_context_skips_intermediate_orders
    train_set letter context n lambdas w L :
  built_from train_set (ngram_counts w) →
  (3 ≤ n ≤ 5)%nat →
  length context = (n - 1)%nat →
  heap w !! lambdas = Some L →
  (∀ k, (1 ≤ k ≤ n)%nat → is_Some (L !! k)) →
  total1 (ngram_counts w) ≠ 0%Z →
  conditional_of context = KTuple context
  ∧ (∀ k, (2 ≤ k < n)%nat → ktotal (ngram_counts w) k (KTuple context) = 0%Z)
  ∧ ∃ p w' L',
      accumulate_prob letter context n lambdas w = (Ok p, w')
      ∧ heap w' !! lambdas = Some L'
      ∧ (∀ k, (2 ≤ k ≤ n)%nat →
              is_Some (table (ngram_counts w') k !! KTuple context))
      ∧ weight L' n = weight L n
      ∧ (weight L' 1
         == sum_orders (weight L) (n - 1)
            + (if (ktotal (ngram_counts w) n (KTuple context) =? 0)%Z
               then weight L n else 0))%Q
      ∧ (p == contribution (ngram_counts w) (KTuple context) letter L' n
              + contribution (ngram_counts w) (KTuple context) letter L' 1)%Q.
Proof.
  intros Hb Hn Hlen HL Hkeys Ht.
  assert (conditional_of context = KTuple context) as Hc
    by (apply conditional_of_long; lia).
  pose proof (ktotal_shorter_order train_set (ngram_counts w) context n)
    as Hzero.
  split; [exact Hc|]. split; [intros k Hk; by apply Hzero|].
  destruct (accumulate_prob_run letter context n lambdas w L
              ltac:(lia) HL Hkeys Ht) as (p & E & Hp).
  pose proof (cascade_spec_accounted (ngram_counts w) (conditional_of context)
                letter n 0 L Ht ltac:(lia)) as Hacc.
  rewrite Hc in E, Hp, Hacc.
  set (T := ngram_counts w) in *. set (c := KTuple context) in *.
  set (W' := (cascade_spec T c letter n 0 L).2) in *.
  assert (weight W' n = weight L n) as Htop
    by (apply weight_frame, cascade_spec_frame; by left).
  assert ((total1 T =? 0)%Z = false) as Ht' by (by apply Z.eqb_neq).
  eexists p, _, W'. split; [exact E|]. split; [apply lookup_insert_eq|].
  split; [intros k Hk; apply touch_down_present; lia|].
  split; [exact Htop|].
  unfold accounted in Hacc.
  destruct n as [|[|[|[|[|[|n]]]]]]; try lia;
    cbn [sum_orders Nat.sub] in Hacc, Hp |- *;
    cbn [order_total] in Hacc; rewrite Ht' in Hacc;
    repeat match goal with
      | H : context [ktotal T ?k c] |- _ =>
          lazymatch k with
          | 2%nat => rewrite (Hzero 2%nat Hb Hlen ltac:(lia)) in H
          | 3%nat => rewrite (Hzero 3%nat Hb Hlen ltac:(lia)) in H
          | 4%nat => rewrite (Hzero 4%nat Hb Hlen ltac:(lia)) in H
          end
      end;
    cbn [Z.eqb] in Hacc;
    rewrite ?(contribution_zero T c letter W' 2%nat),
            ?(contribution_zero T c letter W' 3%nat),
            ?(contribution_zero T c letter W' 4%nat) in Hp
      by (apply (Hzero _ Hb Hlen); lia);
    (split; [|rewrite Hp; ring]);
    rewrite Htop in Hacc;
    match goal with
    | |- context [(ktotal T ?k c =? 0)%Z] =>
        destruct (ktotal T k c =? 0)%Z; lra
    end.
Qed.

(** C6 on the code. For a mask that begins with a blank, the context the
    guess selector extracts for that blank is the single sentinel ["<s1>"]
    whatever the order: the mask is always padded as for a bigram. For an
    order [n] of 3, 4 or 5 the Builder padded the training words with [n-1]
    sentinels, so this context is not the start padding of the order [n], and
    the key made from it has no count in the table of order [n], whatever
    the training words. *)
Theorem word_start_context_ignores_order n rest :
  (3 ≤ n ≤ 5)%nat →
  context_at (convert_word ("_" :: rest) 2) n 1 = ["<s1>"]
  ∧ length (start_pad n) = (n - 1)%nat
  ∧ start_pad n ≠ ["<s1>"]
  ∧ ∀ train_set,
      ktotal (train train_set) n (conditional_of ["<s1>"]) = 0%Z.
Proof.
  intros Hn. split; [|split; [|split]].
  - destruct n as [|[|n]]; [lia..|]. reflexivity.
  - unfold start_pad. rewrite length_map, length_seq. done.
  - intros H. apply (f_equal length) in H.
    unfold start_pad in H. rewrite length_map, length_seq in H. simpl in H. lia.
  - intros train_set. apply ktotal_unfit.
    + eapply built_from_well_keyed, built_from_train.
    + simpl. lia.
Qed.

(** At the order 2 the context of a word-start blank is the Builder's start
    padding. *)
Lemma word_start_context_bigram rest :
  context_at (convert_word ("_" :: rest) 2) 2 1 = start_pad 2.
Proof. reflexivity. Qed.

Section HangmanClaims.
Context {St : Type}.
Variable guesser : list string → gset string → St → result string * St.

(** C8. The game loop terminates, for every secret word, every cap and
    every strategy. A turn played below the cap either counts a mistake, or
    adds to the guessed set a string that was not in it and that occurs in
    the secret word, of which there are finitely many; either way the
    variant [game_measure] decreases. So with [enough_fuel] passes allowed
    (the cap plus the number of strings that occur in the secret word, plus
    one) [hangman] always comes to a result. *)
Theorem hangman_terminates secret_word max_mistakes :
  (∀ guess σ,
      (mistakes σ < max_mistakes)%Z →
      (((mistakes (turn secret_word guess σ) = mistakes σ + 1)%Z
        ∧ guessed σ ⊆ guessed (turn secret_word guess σ))
       ∨ (mistakes (turn secret_word guess σ) = mistakes σ
          ∧ (guess ∉ guessed σ)
          ∧ guess ∈ substring_set secret_word
          ∧ guessed (turn secret_word guess σ) = guessed σ ∪ {[ guess ]}))
      ∧ (game_measure secret_word max_mistakes (turn secret_word guess σ)
         < game_measure secret_word max_mistakes σ)%nat)
  ∧ ∀ fuel st,
      (enough_fuel secret_word max_mistakes ≤ fuel)%nat →
      ∃ r st', hangman guesser fuel secret_word max_mistakes st = Some (r, st').
Proof.
  split.
  - intros guess σ Hlt. split; [apply turn_cases|by apply turn_decreases].
  - intros fuel st Hfuel. unfold hangman.
    destruct (hangman_loop_total guesser fuel (lower secret_word) max_mistakes
                _ st (enough_fuel_initial _ _ _ Hfuel))
      as (r & st' & -> & _).
    eauto.
Qed.

End HangmanClaims.

(** * Closed examples *)

Lemma example_lambdas_keys k : (1 ≤ k ≤ 2)%nat → is_Some (example_lambdas !! k).
Proof.
  intros Hk. destruct k as [|[|[|k]]]; try lia; vm_compute; eauto.
Defined.

Lemma example_lambdas3_keys k : (1 ≤ k ≤ 3)%nat → is_Some (example_lambdas3 !! k).
Proof.
  intros Hk. destruct k as [|[|[|[|k]]]]; try lia; vm_compute; eauto.
Defined.

Lemma example_lambdas_nonneg k : (0 <= weight example_lambdas k)%Q.
Proof.
  unfold weight, example_lambdas.
  destruct k as [|[|[|k]]]; try (vm_compute; discriminate).
  rewrite !lookup_insert_ne, lookup_empty by lia. simpl. lra.
Defined.

(** The witness of C1: the bigram run after the start sentinel. *)
Lemma weight_cascading_witness :
  ∃ p w1,
    higher_orders "c" (conditional_of ["<s1>"]) 2 0 0 example_world = (Ok p, w1)
    ∧ (p == (cascade_spec (ngram_counts example_world) (conditional_of ["<s1>"])
                          "c" 2 0 example_lambdas).1)%Q
    ∧ heap w1 !! 0%nat
      = Some (cascade_spec (ngram_counts example_world) (conditional_of ["<s1>"])
                           "c" 2 0 example_lambdas).2
    ∧ accumulate_prob "c" ["<s1>"] 2 0 example_world
      = (let! prob := score_unigram "c" 0 p in ret prob) w1.
Proof.
  apply (weight_cascading "c" ["<s1>"] 2 0 example_world example_lambdas).
  - lia.
  - reflexivity.
  - apply example_lambdas_keys.
Defined.


Lemma example_lambdas_unit k :
  (0 <= weight example_lambdas k)%Q ∧ (weight example_lambdas k <= 1)%Q.
Proof.
  split; [apply example_lambdas_nonneg|].
  unfold weight, example_lambdas.
  destruct k as [|[|[|k]]]; try (vm_compute; discriminate).
  rewrite !lookup_insert_ne, lookup_empty by lia. simpl. lra.
Defined.


(** C3 fails as it is stated: with [{0: 0.01, 1: 0.01, 2: 0.98}], which sum
    to 1, and both orders contributing, the weights multiplied into the
    probability are 0.98 and 0.01: 0.99 is accounted for, not 1. *)
Lemma accounted_weight_is_not_one :
  (sum_orders (weight example_lambdas) 2 + weight example_lambdas 0 == 1)%Q
  ∧ total1 (ngram_counts example_world) ≠ 0%Z
  ∧ ktotal (ngram_counts example_world) 2 (conditional_of ["<s1>"]) ≠ 0%Z
  ∧ let w' := (accumulate_prob "c" ["<s1>"] 2 0 example_world).2 in
    (accounted (ngram_counts example_world) (conditional_of ["<s1>"]) 2
               (dict_at w' 0) == 99 # 100)%Q
    ∧ ¬ (accounted (ngram_counts example_world) (conditional_of ["<s1>"]) 2
                   (dict_at w' 0) == 1)%Q.
Proof.
  split; [reflexivity|]. split; [vm_compute; discriminate|].
  split; [vm_compute; discriminate|].
  split; [vm_compute; reflexivity|vm_compute; discriminate].
Qed.

Lemma weight_accounted_without_zerogram_witness :
  ∃ p w' L',
    accumulate_prob "c" ["<s1>"] 2 0 example_world = (Ok p, w')
    ∧ heap w' !! 0%nat = Some L'
    ∧ (p == sum_orders (contribution (ngram_counts example_world)
                          (conditional_of ["<s1>"]) "c" L') 2)%Q
    ∧ (accounted (ngram_counts example_world) (conditional_of ["<s1>"]) 2 L'
       == sum_orders (weight example_lambdas) 2)%Q
    ∧ L' !! 0%nat = example_lambdas !! 0%nat
    ∧ ((sum_orders (weight example_lambdas) 2 + weight example_lambdas 0 == 1)%Q →
       (accounted (ngram_counts example_world) (conditional_of ["<s1>"]) 2 L'
        == 1 - weight example_lambdas 0)%Q).
Proof.
  apply (weight_accounted_without_zerogram "c" ["<s1>"] 2 0 example_world
           example_lambdas).
  - lia.
  - reflexivity.
  - apply example_lambdas_keys.
  - vm_compute. discriminate.
Defined.

(** [get_ngram_prob] does write to the mapping it is given: here the bigram
    context is unseen and the weight of the order 1 becomes 0.01 + 0.98. *)
Example get_ngram_prob_writes_its_argument :
  dict_at (get_ngram_prob any_log "c" ["q"] 2 0 example_world).2 0 !! 1%nat
  = Some ((1 # 100) + (98 # 100))%Q.
Proof. vm_compute. reflexivity. Qed.

Lemma ngram_guesser_keeps_callers_lambdas_witness :
  heap (ngram_guesser any_log ["_"; "a"; "_"] ∅ (Some 2%nat) (Some 0%nat)
          example_world).2 !! 0%nat
  = Some example_lambdas.
Proof.
  apply (ngram_guesser_keeps_callers_lambdas any_log ["_"; "a"; "_"] ∅
           (Some 2%nat) 0%nat example_world example_lambdas).
  reflexivity.
Defined.

(** C5 fails as it is stated: the context "q" is in no training word, and a
    query with it adds the key "q" to the bigram table. *)
Lemma query_adds_entry_for_unseen_context :
  bigram_counts (ngram_counts example_world) !! KStr "q" = None
  ∧ bigram_counts
      (ngram_counts (get_ngram_prob any_log "c" ["q"] 2 0 example_world).2)
    !! KStr "q" = Some ∅
  ∧ ngram_counts (get_ngram_prob any_log "c" ["q"] 2 0 example_world).2
    ≠ ngram_counts example_world.
Proof.
  assert (bigram_counts
            (ngram_counts (get_ngram_prob any_log "c" ["q"] 2 0 example_world).2)
          !! KStr "q" = Some ∅) as Hafter by (vm_compute; reflexivity).
  assert (bigram_counts (ngram_counts example_world) !! KStr "q" = None)
    as Hbefore by (vm_compute; reflexivity).
  split; [exact Hbefore|]. split; [exact Hafter|].
  intros E. rewrite E, Hbefore in Hafter. discriminate.
Qed.

Lemma queries_only_add_empty_counters_witness :
  let after_prob :=
    ngram_counts (get_ngram_prob any_log "c" ["q"] 2 0 example_world).2 in
  unigram_counts after_prob = unigram_counts (ngram_counts example_world)
  ∧ ∀ k c,
      table after_prob k !! c
      = match table (ngram_counts example_world) k !! c with
        | Some cnt => Some cnt
        | None =>
            if bool_decide ((2 ≤ k ≤ 2)%nat ∧ c = conditional_of ["q"])
            then Some ∅ else None
        end.
Proof.
  apply (proj2 (proj2 (proj2
           (queries_only_add_empty_counters any_log "c" ["q"] 2 0 [] ∅ None
              None example_world)))).
  - lia.
  - apply example_lambdas_keys.
  - vm_compute. discriminate.
Defined.

Lemma word_start_context_ignores_order_witness :
  context_at (convert_word ["_"; "a"] 2) 3 1 = ["<s1>"]
  ∧ length (start_pad 3) = 2%nat
  ∧ start_pad 3 ≠ ["<s1>"]
  ∧ ∀ train_set,
      ktotal (train train_set) 3 (conditional_of ["<s1>"]) = 0%Z.
Proof.
  apply (word_start_context_ignores_order 3 ["a"]). lia.
Defined.

Lemma hangman_mistakes_in_range_witness :
  ∃ r st',
    hangman (always "z") 10 "cat" 1 tt = Some (r, st')
    ∧ match r with
      | Ok m => (0 ≤ m ≤ 1)%Z
      | Raise e =>
          ∃ mask guessed st0 st1, always "z" mask guessed st0 = (Raise e, st1)
      end.
Proof.
  apply (hangman_mistakes_in_range (always "z") 10 "cat" 1 tt).
  - lia.
  - vm_compute. lia.
Defined.

Lemma hangman_terminates_witness :
  ∃ r st', hangman (always "z") 10 "cat" 1 tt = Some (r, st').
Proof.
  apply (proj2 (hangman_terminates (always "z") "cat" 1) 10%nat tt).
  vm_compute. lia.
Defined.

(** C9 fails as it is stated: a strategy that always answers "zz", which is
    not one character, or "Z" or "1", which are not in the alphabet, makes
    the game return a mistake count and raise nothing; "ca", two characters
    that occur in "cat", is not even counted as a mistake. *)
Lemma invalid_guess_is_absorbed :
  String.length "zz" ≠ 1%nat
  ∧ hangman (always "zz") 10 "cat" 1 tt = Some (Ok 1%Z, tt)
  ∧ ("Z" ∉ ascii_lowercase)
  ∧ hangman (always "Z") 10 "cat" 1 tt = Some (Ok 1%Z, tt)
  ∧ mistakes (turn "cat" "ca" {| mask := ["_"; "_"; "_"]; guessed := ∅;
                                 mistakes := 0 |}) = 0%Z.
Proof.
  split; [simpl; lia|]. split; [vm_compute; reflexivity|].
  split; [apply (bool_decide_unpack ("Z" ∉ ascii_lowercase)); vm_compute; exact I|].
  split; vm_compute; reflexivity.
Qed.


Lemma full_context_skips_intermediate_orders_witness :
  conditional_of ["c"; "a"] = KTuple ["c"; "a"]
  ∧ (∀ k, (2 ≤ k < 3)%nat →
          ktotal (ngram_counts example_world) k (KTuple ["c"; "a"]) = 0%Z)
  ∧ ∃ p w' L',
      accumulate_prob "t" ["c"; "a"] 3 1 example_world = (Ok p, w')
      ∧ heap w' !! 1%nat = Some L'
      ∧ (∀ k, (2 ≤ k ≤ 3)%nat →
              is_Some (table (ngram_counts w') k !! KTuple ["c"; "a"]))
      ∧ weight L' 3 = weight example_lambdas3 3
      ∧ (weight L' 1
         == sum_orders (weight example_lambdas3) (3 - 1)
            + (if (ktotal (ngram_counts example_world) 3 (KTuple ["c"; "a"]) =? 0)%Z
               then weight example_lambdas3 3 else 0))%Q
      ∧ (p == contribution (ngram_counts example_world) (KTuple ["c"; "a"]) "t" L' 3
              + contribution (ngram_counts example_world) (KTuple ["c"; "a"]) "t" L' 1)%Q.
Proof.
  apply (full_context_skips_intermediate_orders example_train_set "t"
           ["c"; "a"] 3 1 example_world example_lambdas3).
  - apply built_from_train.
  - lia.
  - reflexivity.
  - reflexivity.
  - apply example_lambdas3_keys.
  - vm_compute. discriminate.
Defined.

(** The bigram table trained on "cats", "cat" and "bat": after the start
    sentinel, "c" twice and "b" once. *)
Example bigram_after_start :
  kcount (train example_train_set) 2 (KStr "<s1>") "c" = 2%Z
  ∧ kcount (train example_train_set) 2 (KStr "<s1>") "b" = 1%Z
  ∧ ktotal (train example_train_set) 2 (KStr "<s1>") = 3%Z.
Proof. vm_compute. auto. Qed.

(** * Further properties of the code *)

(** * The table builders *)

Lemma counter_get_incr (c : Counter) y x :
  counter_get (counter_incr c y) x
  = (counter_get c x + (if decide (y = x) then 1 else 0))%Z.
Proof.
  unfold counter_incr, counter_get at 1.
  destruct (decide (y = x)) as [->|Hne].
  - by rewrite lookup_insert_eq.
  - rewrite lookup_insert_ne by done. unfold counter_get. lia.
Qed.

Lemma count_in_cons {A} `{EqDecision A} (x y : A) l :
  count_in x (y :: l) = ((if decide (y = x) then 1 else 0) + count_in x l)%Z.
Proof.
  unfold count_in. rewrite filter_cons.
  destruct (decide (y = x)); simpl; lia.
Qed.

Lemma count_in_app {A} `{EqDecision A} (x : A) l1 l2 :
  count_in x (l1 ++ l2) = (count_in x l1 + count_in x l2)%Z.
Proof. unfold count_in. rewrite filter_app, length_app. lia. Qed.

Lemma foldl_concat {A B C} (f : A → B → A) (h : C → list B) (a : A) (ws : list C) :
  foldl (λ a w, foldl f a (h w)) a ws = foldl f a (concat (map h ws)).
Proof.
  revert a. induction ws as [|w ws IH]; intros a; simpl; [done|].
  by rewrite IH, foldl_app.
Qed.

(** Sums over a map, and what an insertion does to them. *)
Lemma map_sum_insert {K V} `{Countable K} (f : V → Z) (m : gmap K V) k v :
  map_fold (λ _ u acc, (f u + acc)%Z) 0%Z (<[k := v]> m)
  = (map_fold (λ _ u acc, (f u + acc)%Z) 0%Z m
     - from_option f 0%Z (m !! k) + f v)%Z.
Proof.
  assert (∀ m' : gmap K V, m' !! k = None →
            map_fold (λ _ u acc, (f u + acc)%Z) 0%Z (<[k := v]> m')
            = (f v + map_fold (λ _ u acc, (f u + acc)%Z) 0%Z m')%Z) as Hins.
  { intros m' Hm'.
    apply (map_fold_insert_L (λ _ u acc, (f u + acc)%Z)); [|done]. intros. lia. }
  destruct (m !! k) as [u|] eqn:E; simpl.
  - rewrite <- insert_delete_eq, Hins by apply lookup_delete_eq.
    rewrite (map_fold_delete_L (λ _ u acc, (f u + acc)%Z) _ k u m);
      [lia| |done]. intros. lia.
  - rewrite Hins by done. lia.
Qed.

Lemma counter_total_incr (c : Counter) y :
  counter_total (counter_incr c y) = (counter_total c + 1)%Z.
Proof.
  unfold counter_total, counter_incr.
  rewrite (map_sum_insert (λ v, v)). unfold counter_get.
  destruct (c !! y); simpl; lia.
Qed.

Lemma foldl_counter_incr_get l (c : Counter) x :
  counter_get (foldl counter_incr c l) x = (counter_get c x + count_in x l)%Z.
Proof.
  revert c. induction l as [|y l IH]; intros c; simpl.
  - unfold count_in; simpl. lia.
  - rewrite IH, counter_get_incr, count_in_cons. lia.
Qed.

Lemma foldl_counter_incr_total l (c : Counter) :
  counter_total (foldl counter_incr c l)
  = (counter_total c + Z.of_nat (length l))%Z.
Proof.
  revert c. induction l as [|y l IH]; intros c; simpl; [lia|].
  rewrite IH, counter_total_incr. lia.
Qed.

(** X1. The unigram table counts characters exactly: the count of [x] is the
    number of times [x] occurs in the training words (as written: nothing is
    lower-cased), and the counts add up to the number of characters. *)
Theorem get_unigram_counts_counts words x :
  counter_get (get_unigram_counts words) x = count_in x (all_chars words)
  ∧ counter_total (get_unigram_counts words)
    = Z.of_nat (length (all_chars words)).
Proof.
  unfold get_unigram_counts, all_chars. rewrite foldl_concat. split.
  - rewrite foldl_counter_incr_get. unfold counter_get.
    rewrite lookup_empty. simpl. lia.
  - rewrite foldl_counter_incr_total, counter_total_empty. lia.
Qed.

Lemma n_grams_length n word g : g ∈ n_grams n word → length g = n.
Proof.
  unfold n_grams. intros (i & -> & Hi)%list_elem_of_fmap.
  apply elem_of_seq in Hi. rewrite length_take, length_drop. lia.
Qed.

Lemma n_grams_count n word : length (n_grams n word) = (length word + 1 - n)%nat.
Proof. unfold n_grams. by rewrite length_map, length_seq. Qed.

Lemma start_pad_length n : length (start_pad n) = (n - 1)%nat.
Proof. unfold start_pad. by rewrite length_map, length_seq. Qed.

Lemma end_pad_length n : length (end_pad n) = (n - 1)%nat.
Proof. unfold end_pad. by rewrite length_map, length_rev, length_seq. Qed.

Lemma convert_word_length word n :
  length (convert_word word n) = (length word + 2 * (n - 1))%nat.
Proof.
  unfold convert_word.
  rewrite !length_app, length_map, start_pad_length, end_pad_length. lia.
Qed.

Lemma chars_length w : length (chars w) = String.length w.
Proof. induction w as [|a w IH]; simpl; [done|]. by rewrite IH. Qed.

(** The test [n <= len(word)] only skips words that have no window anyway. *)
Lemma get_ngram_counts_foldl words n :
  get_ngram_counts words n = foldl (record_n_gram n) ∅ (all_n_grams words n).
Proof.
  unfold get_ngram_counts, all_n_grams.
  rewrite <- (foldl_concat (record_n_gram n)
                (λ w, n_grams n (convert_word (chars w) n))).
  generalize (∅ : DefaultDict). induction words as [|w words IH]; intros d;
    simpl; [done|].
  rewrite <- IH. f_equal.
  destruct (n <=? length (convert_word (chars w) n))%nat eqn:E; [done|].
  apply Nat.leb_gt in E. unfold n_grams.
  replace (length (convert_word (chars w) n) + 1 - n)%nat with 0%nat by lia.
  done.
Qed.

Lemma dd_incr_get (d : DefaultDict) k y c x :
  counter_get (default ∅ (dd_incr d k y !! c)) x
  = (counter_get (default ∅ (d !! c)) x
     + (if decide (k = c ∧ y = x) then 1 else 0))%Z.
Proof.
  unfold dd_incr. destruct (decide (k = c)) as [->|Hne].
  - rewrite lookup_insert_eq. simpl. rewrite counter_get_incr.
    destruct (decide (y = x)), (decide (c = c ∧ y = x)); naive_solver lia.
  - rewrite lookup_insert_ne by done.
    destruct (decide (k = c ∧ y = x)); naive_solver lia.
Qed.

(** Recording a window of length [n] is one increment, under the key made of
    its first [n-1] symbols, of the count of its last symbol. *)
Lemma record_n_gram_window n d g :
  (2 ≤ n ≤ 5)%nat → length g = n →
  ∃ k y, record_n_gram n d g = dd_incr d k y
         ∧ key_fits n k ∧ (key_items k ++ [y])%list = g.
Proof.
  intros Hn Hg.
  destruct n as [|[|[|[|[|[|n]]]]]]; try lia;
    repeat (destruct g as [|? g]; simpl in Hg; try lia);
    eexists _, _; (split; [reflexivity|]); simpl; auto with lia.
Qed.

Lemma key_items_inj n k c y x :
  key_fits n k → key_fits n c →
  (key_items k ++ [y])%list = (key_items c ++ [x])%list ↔ k = c ∧ y = x.
Proof.
  intros Hk Hc. split; [|by intros [-> ->]].
  intros E. apply app_inj_2 in E as [E [= ->]]; [|done].
  destruct k, c; simpl in *; try lia; naive_solver.
Qed.

Lemma foldl_record_get n gs (d : DefaultDict) c x :
  (2 ≤ n ≤ 5)%nat → key_fits n c → (∀ g, g ∈ gs → length g = n) →
  counter_get (default ∅ (foldl (record_n_gram n) d gs !! c)) x
  = (counter_get (default ∅ (d !! c)) x + count_in (key_items c ++ [x])%list gs)%Z.
Proof.
  intros Hn Hc. revert d. induction gs as [|g gs IH]; intros d Hgs; simpl.
  - unfold count_in; simpl. lia.
  - destruct (record_n_gram_window n d g Hn) as (k & y & -> & Hk & Hg);
      [apply Hgs; left|].
    rewrite IH by (intros; apply Hgs; by right).
    rewrite dd_incr_get, count_in_cons, <- Hg.
    destruct (decide (k = c ∧ y = x)) as [Heq|Hne],
             (decide ((key_items k ++ [y])%list = (key_items c ++ [x])%list)) as [E|E];
      try lia.
    + destruct E. by apply (key_items_inj n).
    + destruct Hne. by apply (key_items_inj n).
Qed.

Lemma all_n_grams_length words n g : g ∈ all_n_grams words n → length g = n.
Proof.
  unfold all_n_grams.
  intros (gs & Hgs & Hg)%list_elem_of_In%in_concat.
  apply in_map_iff in Hgs as (w & <- & _).
  apply list_elem_of_In in Hg. by eapply n_grams_length.
Qed.

(** X2. The n-gram tables count n-grams exactly. For an order [n] in 2..5
    the count stored for a context and a letter is the number of windows of
    the padded training words that consist of that context followed by that
    letter; contexts that do not have the form of the order's keys are not in
    the table. *)
Theorem get_ngram_counts_counts words n c x :
  (2 ≤ n ≤ 5)%nat →
  (key_fits n c →
   kcount (train words) n c x
   = count_in (key_items c ++ [x])%list (all_n_grams words n))
  ∧ (¬ key_fits n c → table (train words) n !! c = None).
Proof.
  intros Hn.
  assert (table (train words) n = get_ngram_counts words n) as Ht
    by (destruct n as [|[|[|[|[|[|n]]]]]]; try lia; reflexivity).
  split.
  - intros Hc. unfold kcount, peek. rewrite Ht, get_ngram_counts_foldl.
    rewrite (foldl_record_get n) by eauto using all_n_grams_length.
    rewrite lookup_empty. unfold counter_get. simpl. rewrite lookup_empty.
    simpl. lia.
  - intros Hc. destruct (table (train words) n !! c) as [cnt|] eqn:E; [|done].
    destruct Hc. by destruct (table_train_ok words n c cnt E).
Qed.

Lemma table_total_incr (d : DefaultDict) k y :
  table_total (dd_incr d k y) = (table_total d + 1)%Z.
Proof.
  unfold table_total, dd_incr. rewrite (map_sum_insert counter_total).
  rewrite counter_total_incr.
  destruct (d !! k); simpl; [lia|]. rewrite counter_total_empty. lia.
Qed.

Lemma sum_nat_concat {A} (ls : list (list A)) :
  length (concat ls) = sum_nat (map length ls).
Proof. induction ls as [|l ls IH]; simpl; [done|]. by rewrite length_app, IH. Qed.

(** X3. No n-gram is lost or counted twice: for an order [n] in 2..5 the
    counts of the whole table add up to the number of windows, and every
    training word [w], the empty word too, has [len(w) + n - 1] of them. *)
Theorem get_ngram_counts_total words n :
  (2 ≤ n ≤ 5)%nat →
  table_total (get_ngram_counts words n)
  = Z.of_nat (sum_nat (map (λ w, String.length w + n - 1)%nat words)).
Proof.
  intros Hn. rewrite get_ngram_counts_foldl.
  assert (∀ gs d, (∀ g, g ∈ gs → length g = n) →
            table_total (foldl (record_n_gram n) d gs)
            = (table_total d + Z.of_nat (length gs))%Z) as Hfold.
  { induction gs as [|g gs IH]; intros d Hgs; simpl; [lia|].
    destruct (record_n_gram_window n d g Hn) as (k & y & -> & _);
      [apply Hgs; left|].
    rewrite IH by (intros; apply Hgs; by right).
    rewrite table_total_incr. lia. }
  rewrite Hfold by eauto using all_n_grams_length.
  unfold table_total at 1. rewrite map_fold_empty.
  unfold all_n_grams. rewrite sum_nat_concat, map_map. rewrite Z.add_0_l.
  do 2 f_equal. apply map_ext. intros w.
  rewrite n_grams_count, convert_word_length, chars_length. lia.
Qed.

(** X4. For an order outside 2..5 the Builder records nothing: the table is
    empty, whatever the training words. *)
Theorem get_ngram_counts_other_orders words n :
  ¬ (2 ≤ n ≤ 5)%nat → get_ngram_counts words n = ∅.
Proof.
  intros Hn. rewrite get_ngram_counts_foldl.
  assert (∀ d g, record_n_gram n d g = d) as Hid
    by (intros; destruct n as [|[|[|[|[|[|n]]]]]]; try lia; reflexivity).
  generalize (all_n_grams words n). intros gs.
  induction gs as [|g gs IH]; simpl; [done|]. by rewrite Hid.
Qed.

Lemma lower_ascii_idemp a : lower_ascii (lower_ascii a) = lower_ascii a.
Proof. destruct a as [[] [] [] [] [] [] [] []]; reflexivity. Qed.

Lemma lower_idemp s : lower (lower s) = lower s.
Proof.
  induction s as [|a s IH]; simpl; [done|]. by rewrite lower_ascii_idemp, IH.
Qed.

Lemma chars_lower w : chars (lower w) = map lower (chars w).
Proof. induction w as [|a w IH]; simpl; [done|]. by rewrite IH. Qed.

(** X5. On ASCII words the n-gram Builder is blind to case: training on the
    lower-cased words gives the same table, for every order. (The unigram
    table is not: by X1 it counts the characters as written.) *)
Theorem get_ngram_counts_lower words n :
  (∀ w, w ∈ words → ascii_word w = true) →
  get_ngram_counts (map lower words) n = get_ngram_counts words n.
Proof.
  intros _.
  rewrite !get_ngram_counts_foldl. f_equal.
  unfold all_n_grams. rewrite map_map. f_equal. apply map_ext. intros w.
  f_equal. unfold convert_word. do 2 f_equal.
  rewrite chars_lower, map_map. apply map_ext. intros s. apply lower_idemp.
Qed.

Lemma append_char_inj a b c : a +:+ String c "" = b +:+ String c "" → a = b.
Proof.
  revert b. induction a as [|x a IH]; intros [|y b] E; simpl in E.
  - done.
  - injection E as -> E. destruct b; discriminate.
  - injection E as -> E. destruct a; discriminate.
  - injection E as -> E. f_equal. by apply IH.
Qed.

Lemma start_symbol_inj (i j : nat) :
  "<s" +:+ pretty i +:+ ">" = "<s" +:+ pretty j +:+ ">" → i = j.
Proof.
  intros E. simpl in E. injection E as E.
  apply append_char_inj in E. by apply (inj pretty) in E.
Qed.

Lemma end_symbol_inj (i j : nat) :
  "</s" +:+ pretty i +:+ ">" = "</s" +:+ pretty j +:+ ">" → i = j.
Proof.
  intros E. simpl in E. injection E as E.
  apply append_char_inj in E. by apply (inj pretty) in E.
Qed.

(** X6. The padding of [convert_word]: the padded word has [n-1] symbols
    more at each end; the sentinels of one order are all different from one
    another, start and end alike; and none of them is a single character or
    the blank mark, so a padded word never confuses a sentinel with a letter.
    With [n = 0] or [n = 1] nothing is added. *)
Theorem convert_word_padding word n :
  length (convert_word word n) = (length word + 2 * (n - 1))%nat
  ∧ NoDup (start_pad n ++ end_pad n)%list
  ∧ (∀ s, s ∈ (start_pad n ++ end_pad n)%list → (2 ≤ String.length s)%nat)
  ∧ ((n ≤ 1)%nat → convert_word word n = map lower word).
Proof.
  split; [apply convert_word_length|]. split; [|split].
  - apply NoDup_app. split; [|split].
    + unfold start_pad. apply NoDup_fmap_2_strong; [|apply NoDup_seq].
      intros i j _ _. apply start_symbol_inj.
    + unfold start_pad, end_pad.
      intros s (i & -> & _)%list_elem_of_fmap (j & E & _)%list_elem_of_fmap.
      simpl in E. discriminate.
    + unfold end_pad. apply NoDup_fmap_2_strong.
      * intros i j Hi%list_elem_of_In%in_rev%in_seq
                   Hj%list_elem_of_In%in_rev%in_seq E%end_symbol_inj.
        lia.
      * apply NoDup_ListNoDup, List.NoDup_rev, NoDup_ListNoDup, NoDup_seq.
  - unfold start_pad, end_pad.
    intros s [(i & -> & _)%list_elem_of_fmap|(i & -> & _)%list_elem_of_fmap]%elem_of_app;
      simpl; lia.
  - intros Hn. unfold convert_word, start_pad, end_pad.
    replace (n - 1)%nat with 0%nat by lia. simpl. by rewrite app_nil_r.
Qed.

(** * The interpolation engine: errors and special cases *)

Lemma bind_ret_r {A} (c : Py A) w : (let! a := c in ret a) w = c w.
Proof. unfold bind, ret. by destruct (c w) as [[a|e] w']. Qed.

Lemma higher_orders_run_orders letter c n l prob w :
  higher_orders letter c n l prob w
  = run_orders (scored_orders n) letter c l prob w.
Proof.
  unfold higher_orders.
  destruct n as [|[|[|[|[|n]]]]]; simpl; try reflexivity;
    unfold bind, ret;
    repeat match goal with
      | |- context [score_order ?k ?a ?b ?d ?e ?w] =>
          destruct (score_order k a b d e w) as [[? | ?] ?]
      end; reflexivity.
Qed.

Lemma lambdas_getitem_missing l k T h (L : Lambdas) :
  L !! k = None →
  lambdas_getitem l k (mk T (<[l := L]> h))
  = (Raise KeyError, mk T (<[l := L]> h)).
Proof.
  intros Hk. unfold lambdas_getitem, dict_at; simpl.
  by rewrite lookup_insert_eq; simpl; rewrite Hk.
Qed.

(** A block either raises [KeyError], or its own weight is in the mapping
    and the mapping keeps its keys. *)
Lemma score_order_outcome k letter c l prob T h (L : Lambdas) :
  (∃ w', score_order k letter c l prob (mk T (<[l := L]> h))
         = (Raise KeyError, w'))
  ∨ (is_Some (L !! k)
     ∧ ∃ p T' (L' : Lambdas),
         score_order k letter c l prob (mk T (<[l := L]> h))
         = (Ok p, mk T' (<[l := L']> h))
         ∧ dom L' = dom L).
Proof.
  unfold score_order, bind. rewrite dd_getitem_run; simpl.
  destruct (L !! k) as [wk|] eqn:Hk.
  - rewrite (lambdas_getitem_run _ _ _ _ _ _ Hk), dd_getitem_run; simpl.
    destruct (negb _).
    + right. split; [eauto|]. by eexists _, _, L.
    + destruct (L !! (k - 1)%nat) as [wk1|] eqn:Hk1.
      * rewrite (lambdas_iadd_run _ _ _ _ _ _ _ _ Hk1 Hk).
        right. split; [eauto|]. eexists _, _, _. split; [reflexivity|].
        rewrite dom_insert_L. apply elem_of_dom_2 in Hk1. set_solver.
      * unfold lambdas_iadd, bind.
        rewrite (lambdas_getitem_missing _ _ _ _ _ Hk1). eauto.
  - rewrite (lambdas_getitem_missing _ _ _ _ _ Hk). eauto.
Qed.

Lemma run_orders_outcome ks letter c l prob T h (L : Lambdas) :
  (∃ w', run_orders ks letter c l prob (mk T (<[l := L]> h))
         = (Raise KeyError, w'))
  ∨ ((∀ k, k ∈ ks → is_Some (L !! k))
     ∧ ∃ p T' (L' : Lambdas),
         run_orders ks letter c l prob (mk T (<[l := L]> h))
         = (Ok p, mk T' (<[l := L']> h))
         ∧ dom L' = dom L).
Proof.
  revert prob T L. induction ks as [|k ks IH]; intros prob T L; simpl.
  - right. split; [by intros k Hk%elem_of_nil|]. by eexists _, _, L.
  - unfold bind.
    destruct (score_order_outcome k letter c l prob T h L)
      as [[w' E]|(Hk & p & T' & L' & E & Hdom)]; rewrite E; [eauto|].
    destruct (IH p T' L') as [[w' E']|(Hks & p' & T'' & L'' & E' & Hdom')];
      rewrite E'; [eauto|].
    right. split.
    + intros k' [->|Hk']%elem_of_cons; [done|].
      apply elem_of_dom. rewrite <- Hdom. apply elem_of_dom. by apply Hks.
    + eexists _, _, _. split; [reflexivity|]. congruence.
Qed.

Lemma world_with_dict w l (L : Lambdas) :
  heap w !! l = Some L → w = mk (ngram_counts w) (<[l := L]> (heap w)).
Proof. intros HL. destruct w as [T h]; simpl in *. by rewrite insert_id. Qed.

Lemma accumulate_prob_missing_weight letter context n l w (L : Lambdas) k :
  heap w !! l = Some L →
  (1 ≤ k ≤ n)%nat → (k ≤ 5)%nat → L !! k = None →
  (accumulate_prob letter context n l w).1 = Raise KeyError.
Proof.
  intros HL Hk Hk5 Hmiss.
  rewrite (world_with_dict w l L HL). unfold accumulate_prob, bind at 1.
  rewrite higher_orders_run_orders.
  destruct (run_orders_outcome (scored_orders n) letter
              (conditional_of context) l 0 (ngram_counts w) (heap w) L)
    as [[w' E]|(Hks & p & T' & L' & E & Hdom)]; rewrite E; [done|].
  destruct (decide (k = 1%nat)) as [->|Hne].
  - assert ((0 <? n)%nat = true) as -> by (apply Nat.ltb_lt; lia).
    unfold score_unigram, bind, unigram_table at 1.
    rewrite lambdas_getitem_missing; [done|].
    apply not_elem_of_dom. rewrite Hdom. by apply not_elem_of_dom.
  - destruct (Hks k) as [x Hx]; [|congruence].
    unfold scored_orders. apply list_elem_of_filter. split; [lia|].
    destruct k as [|[|[|[|[|[|k]]]]]]; try lia; set_solver.
Qed.

(** An exception of the accumulation is the exception of the call: the
    logarithm is not reached. *)
Lemma get_ngram_prob_raises ln letter context n l w e :
  (accumulate_prob letter context n l w).1 = Raise e →
  (get_ngram_prob ln letter context n l w).1 = Raise e.
Proof.
  intros Hacc. unfold get_ngram_prob, bind.
  destruct (accumulate_prob letter context n l w) as [[p|e'] w']; simpl in *;
    congruence.
Qed.

(** X7. A weight mapping that lacks one of the orders the call scores makes
    [get_ngram_prob] raise [KeyError], whatever the tables: the orders are
    1..n, or 1..5 when [n] is larger. *)
Theorem missing_weight_raises_KeyError letter context n l w (L : Lambdas) k :
  heap w !! l = Some L →
  (1 ≤ k ≤ n)%nat → (k ≤ 5)%nat → L !! k = None →
  (accumulate_prob letter context n l w).1 = Raise KeyError
  ∧ ∀ ln, (get_ngram_prob ln letter context n l w).1 = Raise KeyError.
Proof.
  intros HL Hk Hk5 Hmiss.
  pose proof (accumulate_prob_missing_weight letter context n l w L k
                HL Hk Hk5 Hmiss) as Hacc.
  split; [exact Hacc|]. intros ln. by apply get_ngram_prob_raises.
Qed.

(** X8. With an empty unigram table every call of [get_ngram_prob] with an
    order in 1..5 and the weights of the orders 0..n in the mapping raises
    [TypeError] (the code takes [len] of a float), after it has moved the
    weight of the order 1 into the order 0. *)
Theorem empty_unigram_raises_TypeError letter context n l w (L : Lambdas) :
  (1 ≤ n ≤ 5)%nat →
  heap w !! l = Some L →
  (∀ k, (k ≤ n)%nat → is_Some (L !! k)) →
  total1 (ngram_counts w) = 0%Z →
  (accumulate_prob letter context n l w).1 = Raise TypeError
  ∧ (∀ ln, (get_ngram_prob ln letter context n l w).1 = Raise TypeError)
  ∧ ∃ a b,
      (cascade_spec (ngram_counts w) (conditional_of context) letter n 0 L).2
        !! 1%nat = Some b
      ∧ L !! 0%nat = Some a
      ∧ dict_at (accumulate_prob letter context n l w).2 l !! 0%nat
        = Some (a + b)%Q.
Proof.
  intros Hn HL Hkeys Ht.
  set (c := conditional_of context).
  set (W' := (cascade_spec (ngram_counts w) c letter n 0 L).2).
  destruct (cascade_spec_keys (ngram_counts w) c letter n 0 L 1%nat
              (Hkeys 1%nat ltac:(lia))) as [b Hb].
  destruct (Hkeys 0%nat ltac:(lia)) as [a Ha].
  assert (W' !! 0%nat = Some a) as Ha'
    by (unfold W'; rewrite cascade_spec_frame by (by right); done).
  assert (accumulate_prob letter context n l w
          = (Raise TypeError,
             mk (touch_down (ngram_counts w) n c)
                (<[l := <[0%nat := (a + b)%Q]> W']> (heap w)))) as E.
  { rewrite (world_with_dict w l L HL) at 1. unfold accumulate_prob, bind at 1.
    fold c.
    destruct (higher_orders_refines letter c n l 0 0 (ngram_counts w) (heap w) L)
      as (p & -> & _); [lia|intros; apply Hkeys; lia|reflexivity|].
    fold W'.
    assert ((0 <? n)%nat = true) as -> by (apply Nat.ltb_lt; lia).
    unfold bind.
    rewrite (score_unigram_empty letter l p _ _ W' a b Ha' Hb);
      [done|].
    unfold total1. by rewrite unigram_touch_down. }
  split; [by rewrite E|]. split.
  - intros ln. unfold get_ngram_prob, bind. by rewrite E.
  - exists a, b. split; [done|]. split; [done|].
    rewrite E. unfold dict_at; simpl.
    by rewrite lookup_insert_eq; simpl; rewrite lookup_insert_eq.
Qed.

Lemma sum_orders_le f g n :
  (∀ j, (f j <= g j)%Q) → (sum_orders f n <= sum_orders g n)%Q.
Proof.
  intros H. induction n as [|n IH]; simpl; [lra|].
  pose proof (H (S n)). lra.
Qed.

Lemma order_count_le_total T c letter k :
  counts_nonneg T → (order_count T c letter k ≤ order_total T c k)%Z.
Proof.
  intros [Hu Ht].
  assert (∀ j, (kcount T j c letter ≤ ktotal T j c)%Z) as Hk.
  { intros j. unfold kcount, ktotal, peek. apply counter_total_bounds.
    destruct (table T j !! c) as [cnt|] eqn:E; simpl;
      [by apply (Ht j c)|apply counter_nonneg_empty]. }
  destruct k as [|[|k]]; simpl; [apply Hk| |apply Hk].
  unfold count1, total1. by apply counter_total_bounds.
Qed.

Lemma contribution_le_weight T c letter W k :
  counts_nonneg T → (0 <= weight W k)%Q →
  (contribution T c letter W k
   <= if (order_total T c k =? 0)%Z then 0 else weight W k)%Q.
Proof.
  intros HT HW. unfold contribution.
  destruct (order_total T c k =? 0)%Z eqn:E; [lra|].
  apply Z.eqb_neq in E.
  pose proof (order_total_nonneg T c k HT).
  pose proof (order_count_le_total T c letter k HT) as Hle.
  apply Qle_shift_div_r; [apply inject_Z_pos; lia|].
  rewrite !(Qmult_comm (weight W k)).
  apply Qmult_le_compat_r; [by rewrite <- Zle_Qle|done].
Qed.

(** X9. The accumulated probability is a sub-probability: for tables made by
    the Builder, an order in 1..5, a non-empty unigram table and a mapping
    with the orders 1..n and no negative weight, it lies between 0 and the
    sum of the configured weights of the orders 1..n. *)
Theorem prob_between_zero_and_weights
    train_set letter context n l w (L : Lambdas) :
  built_from train_set (ngram_counts w) →
  (1 ≤ n ≤ 5)%nat →
  heap w !! l = Some L →
  (∀ k, (1 ≤ k ≤ n)%nat → is_Some (L !! k)) →
  (∀ k, (0 <= weight L k)%Q) →
  total1 (ngram_counts w) ≠ 0%Z →
  ∃ p w',
    accumulate_prob letter context n l w = (Ok p, w')
    ∧ (0 <= p)%Q ∧ (p <= sum_orders (weight L) n)%Q.
Proof.
  intros Hb Hn HL Hkeys Hnn Ht.
  pose proof (built_from_counts_nonneg _ _ Hb) as HT.
  destruct (accumulate_prob_run letter context n l w L Hn HL Hkeys Ht)
    as (p & E & Hp).
  pose proof (cascade_spec_accounted (ngram_counts w) (conditional_of context)
                letter n 0 L Ht ltac:(lia)) as Hacc.
  pose proof (cascade_spec_grows (ngram_counts w) (conditional_of context)
                letter n 0 L Hnn) as Hgrow.
  set (W' := (cascade_spec (ngram_counts w) (conditional_of context)
                           letter n 0 L).2) in *.
  assert (∀ j, (0 <= weight W' j)%Q) as HW'
    by (intros j; eapply Qle_trans; [apply Hnn|apply Hgrow]).
  eexists p, _. split; [exact E|]. rewrite Hp. split.
  - apply sum_orders_nonneg. intros j. by apply contribution_nonneg.
  - rewrite <- Hacc. unfold accounted. apply sum_orders_le.
    intros j. by apply contribution_le_weight.
Qed.

(** X10. With the order 1 a query is pure: for a non-empty unigram table and
    a mapping that has the order 1, [get_ngram_prob] leaves the tables and
    the mapping exactly as they were, and the probability is the weight of
    the order 1 times the relative frequency of the letter, whatever the
    context. *)
Theorem unigram_order_is_pure letter context l w (L : Lambdas) w1 :
  heap w !! l = Some L → L !! 1%nat = Some w1 →
  total1 (ngram_counts w) ≠ 0%Z →
  ∃ p,
    accumulate_prob letter context 1 l w = (Ok p, w)
    ∧ (p == w1 * inject_Z (count1 (ngram_counts w) letter)
            / inject_Z (total1 (ngram_counts w)))%Q.
Proof.
  intros HL H1 Ht.
  destruct w as [T h]; simpl in *.
  assert (mk T h = mk T (<[l := L]> h)) as -> by (by rewrite insert_id).
  unfold accumulate_prob, higher_orders, bind, ret; simpl.
  rewrite (score_unigram_run letter l 0 _ _ L w1 H1 Ht).
  eexists; split; [reflexivity|].
  rewrite Qplus_0_l. unfold Qdiv. rewrite (Qmult_comm (inject_Z _) w1).
  reflexivity.
Qed.

Lemma touch_present_id T k c : is_Some (table T k !! c) → touch T k c = T.
Proof. intros [cnt E]. unfold touch. by rewrite E. Qed.

Lemma ktotal_nonzero_present T k c :
  ktotal T k c ≠ 0%Z → is_Some (table T k !! c).
Proof.
  unfold ktotal, peek. destruct (table T k !! c); [eauto|].
  simpl. by rewrite counter_total_empty.
Qed.

Lemma all_seen_no_cascade T c letter n acc (L : Lambdas) :
  (∀ k, (2 ≤ k ≤ n)%nat → ktotal T k c ≠ 0%Z) →
  (cascade_spec T c letter n acc L).2 = L ∧ touch_down T n c = T.
Proof.
  revert acc. induction n as [|[|n] IH]; intros acc Hseen; [done..|].
  rewrite cascade_spec_S.
  change (touch_down T (S (S n)) c)
    with (touch_down (touch T (S (S n)) c) (S n) c).
  rewrite touch_present_id by (apply ktotal_nonzero_present, Hseen; lia).
  unfold cascade_step.
  assert ((ktotal T (S (S n)) c =? 0)%Z = false) as ->
    by (apply Z.eqb_neq, Hseen; lia).
  simpl. apply IH. intros k Hk. apply Hseen. lia.
Qed.

(** X11. When every order 1..n has seen the context (a non-zero total), no
    weight moves and nothing is written: the query leaves the tables and the
    mapping exactly as they were, and the probability is the plain linear
    interpolation, the sum over the orders of
    [weight[k] * count / total]. *)
Theorem seen_context_plain_interpolation letter context n l w (L : Lambdas) :
  (1 ≤ n ≤ 5)%nat →
  heap w !! l = Some L →
  (∀ k, (1 ≤ k ≤ n)%nat → is_Some (L !! k)) →
  (∀ k, (1 ≤ k ≤ n)%nat →
        order_total (ngram_counts w) (conditional_of context) k ≠ 0%Z) →
  ∃ p,
    accumulate_prob letter context n l w = (Ok p, w)
    ∧ (p == sum_orders
              (λ k, weight L k
                    * inject_Z (order_count (ngram_counts w)
                                  (conditional_of context) letter k)
                    / inject_Z (order_total (ngram_counts w)
                                  (conditional_of context) k)) n)%Q.
Proof.
  intros Hn HL Hkeys Hseen.
  destruct (accumulate_prob_run letter context n l w L Hn HL Hkeys
              (Hseen 1%nat ltac:(lia))) as (p & E & Hp).
  destruct (all_seen_no_cascade (ngram_counts w) (conditional_of context)
              letter n 0 L) as [HW HT].
  { intros k Hk. specialize (Hseen k ltac:(lia)).
    destruct k as [|[|k]]; try lia. exact Hseen. }
  rewrite HW, HT in E. rewrite HW in Hp.
  rewrite <- (world_with_dict w l L HL) in E.
  exists p. split; [exact E|]. rewrite Hp.
  apply sum_orders_ext. intros j Hj. unfold contribution.
  assert ((order_total (ngram_counts w) (conditional_of context) j =? 0)%Z
          = false) as -> by (apply Z.eqb_neq, Hseen; lia).
  reflexivity.
Qed.

Lemma unseen_orders_sum T c letter W n :
  (1 ≤ n)%nat → total1 T ≠ 0%Z →
  (∀ k, (2 ≤ k ≤ n)%nat → ktotal T k c = 0%Z) →
  (sum_orders (contribution T c letter W) n == contribution T c letter W 1)%Q
  ∧ (accounted T c n W == weight W 1)%Q.
Proof.
  intros Hn Ht Hzero. destruct n as [|n]; [lia|]. clear Hn.
  induction n as [|n IH].
  - unfold accounted; simpl. apply Z.eqb_neq in Ht. rewrite Ht. split; ring.
  - destruct IH as [IH1 IH2]; [intros k Hk; apply Hzero; lia|].
    unfold accounted in *. rewrite !(sum_orders_S _ (S n)), IH1, IH2.
    unfold contribution at 2.
    change (order_total T c (S (S n))) with (ktotal T (S (S n)) c).
    rewrite Hzero by lia. simpl. split; ring.
Qed.

(** X12. With the empty context, that of a blank that follows a blank, no
    table of the Builder has a count under the key, the empty tuple: every order 2..n passes its weight down, and the
    probability is the relative unigram frequency of the letter times the
    sum of the weights of the orders 1..n. *)
Theorem empty_context_is_unigram train_set letter n l w (L : Lambdas) :
  built_from train_set (ngram_counts w) →
  (1 ≤ n ≤ 5)%nat →
  heap w !! l = Some L →
  (∀ k, (1 ≤ k ≤ n)%nat → is_Some (L !! k)) →
  total1 (ngram_counts w) ≠ 0%Z →
  ∃ p w',
    accumulate_prob letter [] n l w = (Ok p, w')
    ∧ (p == sum_orders (weight L) n
            * inject_Z (count1 (ngram_counts w) letter)
            / inject_Z (total1 (ngram_counts w)))%Q.
Proof.
  intros Hb Hn HL Hkeys Ht.
  destruct (accumulate_prob_run letter [] n l w L Hn HL Hkeys Ht)
    as (p & E & Hp).
  pose proof (cascade_spec_accounted (ngram_counts w) (conditional_of [])
                letter n 0 L Ht ltac:(lia)) as Hacc.
  set (W' := (cascade_spec (ngram_counts w) (conditional_of []) letter n 0 L).2)
    in *.
  destruct (unseen_orders_sum (ngram_counts w) (conditional_of []) letter W' n)
    as [Hsum Hacc']; [lia|done| |].
  { intros k Hk. apply ktotal_unfit.
    - by eapply built_from_well_keyed.
    - simpl. lia. }
  eexists p, _. split; [exact E|].
  rewrite Hp, Hsum, <- Hacc, Hacc'. unfold contribution; simpl.
  apply Z.eqb_neq in Ht. rewrite Ht. reflexivity.
Qed.

(** * The guess selector *)

Lemma drop_item (word : list string) j :
  (j < length word)%nat → drop j word = item word j :: drop (S j) word.
Proof.
  revert j. induction word as [|x word IH]; intros [|j] Hj; simpl in *;
    try lia; [done|]. apply IH. lia.
Qed.

Lemma left_context_spec word n i j ctx :
  (i ≤ length word)%nat → (j + length ctx = i)%nat →
  ctx = take (length ctx) (drop j word) → "_" ∉ ctx →
  (length ctx ≤ n - 1)%nat →
  let r := left_context word n j ctx (S (length ctx)) in
  (length r ≤ n - 1)%nat ∧ (length r ≤ i)%nat
  ∧ r = take (length r) (drop (i - length r) word)
  ∧ ("_" ∉ r)
  ∧ (length r = (n - 1)%nat ∨ length r = i
     ∨ item word (i - length r - 1) = "_").
Proof.
  intros Hi. revert ctx. induction j as [|j IH]; intros ctx Hj Hctx Hnb Hlen r.
  - subst r. simpl. simpl in Hj. rewrite Hj in *.
    replace (i - i)%nat with 0%nat by lia. auto 10.
  - subst r. simpl.
    destruct (negb (item word j =? "_") && (S (length ctx) <? n)%nat) eqn:E.
    + apply andb_true_iff in E as [E1 E2].
      apply negb_true_iff, String.eqb_neq in E1. apply Nat.ltb_lt in E2.
      apply (IH (item word j :: ctx)); simpl.
      * lia.
      * rewrite (drop_item word j) by lia. simpl. by rewrite <- Hctx.
      * rewrite not_elem_of_cons. split; [congruence|done].
      * lia.
    + replace (i - length ctx)%nat with (S j) by lia.
      split; [done|]. split; [lia|]. split; [done|]. split; [done|].
      apply andb_false_iff in E as [E|E].
      * apply negb_false_iff, String.eqb_eq in E.
        right; right. by replace (S j - 1)%nat with j by lia.
      * apply Nat.ltb_ge in E. left. lia.
Qed.

(** X13. The context of the blank at position [i] of the padded mask is made
    of the cells just left of [i]: as many as there are before a blank or
    the start of the list is met, and at most [n-1]. It holds no blank, and
    it stops short of [n-1] symbols only at a blank or at the start. With
    [n] = 0 or 1 it is empty. *)
Theorem context_at_cells word n i :
  (i ≤ length word)%nat →
  let ctx := context_at word n i in
  (length ctx ≤ n - 1)%nat ∧ (length ctx ≤ i)%nat
  ∧ ctx = take (length ctx) (drop (i - length ctx) word)
  ∧ ("_" ∉ ctx)
  ∧ (length ctx = (n - 1)%nat ∨ length ctx = i
     ∨ item word (i - length ctx - 1) = "_").
Proof.
  intros Hi. unfold context_at.
  apply (left_context_spec word n i i []); simpl; try lia.
  - done.
  - apply not_elem_of_nil.
Qed.

Lemma letter_probs_add_keys lp letter p x :
  x ∈ (letter_probs_add lp letter p).*1 → x ∈ lp.*1 ∨ x = letter.
Proof.
  induction lp as [|[l v] lp IH]; simpl.
  - intros ->%list_elem_of_singleton. by right.
  - destruct (l =? letter) eqn:E; simpl.
    + intros H. by left.
    + intros [->|H]%elem_of_cons; [left; left|].
      destruct (IH H) as [H'|H']; [left; by right|by right].
Qed.

Lemma py_max_key lp g v : py_max lp = Some (g, v) → g ∈ lp.*1.
Proof.
  unfold py_max.
  assert (∀ (l : list (string * Q)) best (g : string) (v : Q),
            foldl (λ best lv,
                     match best with
                     | None => Some lv
                     | Some (_, bv) => if Qle_bool lv.2 bv then best else Some lv
                     end) best l = Some (g, v) →
            best = Some (g, v) ∨ g ∈ l.*1) as H.
  { induction l as [|[l0 v0] l IH]; intros best g' v' E; simpl in *.
    - by left.
    - apply IH in E as [E|E]; [|right; by right].
      destruct best as [[bl bv]|]; simpl in E.
      + destruct (Qle_bool v0 bv); [by left|].
        injection E as -> ->. right. by left.
      + injection E as -> ->. right. by left. }
  intros E. by destruct (H _ _ _ _ E).
Qed.

Section GuesserMore.
Variable ln : Q → Q.

Lemma for_letters_keys letters context n l lp w lp' w' x :
  for_letters ln letters context n l lp w = (Ok lp', w') →
  x ∈ lp'.*1 → x ∈ lp.*1 ∨ x ∈ letters.
Proof.
  revert lp w. induction letters as [|letter rest IH]; intros lp w E Hx;
    simpl in E.
  - injection E as <- <-. by left.
  - unfold bind in E.
    destruct (dict_copy l w) as [[l'|e] w1]; [|discriminate].
    destruct (get_ngram_prob ln letter context n l' w1) as [[p|e] w2];
      [|discriminate].
    destruct (IH _ _ E Hx) as [H|H]; [|right; by right].
    apply letter_probs_add_keys in H as [H| ->]; [by left|right; by left].
Qed.

Lemma for_positions_keys positions word letters n l lp w lp' w' x :
  for_positions ln positions word letters n l lp w = (Ok lp', w') →
  x ∈ lp'.*1 → x ∈ lp.*1 ∨ x ∈ letters.
Proof.
  revert lp w. induction positions as [|i rest IH]; intros lp w E Hx;
    simpl in E.
  - injection E as <- <-. by left.
  - destruct (item word i =? "_"); [|by eapply IH].
    unfold bind in E.
    destruct (for_letters ln letters (context_at word n i) n l lp w)
      as [[lp1|e] w1] eqn:E1; [|discriminate].
    destruct (IH _ _ E Hx) as [H|H]; [|by right].
    by eapply for_letters_keys.
Qed.

Lemma choose_lambdas_ok kw_lambdas w :
  ∃ l w1,
    (match kw_lambdas return Py loc with
     | Some l => λ w, if (size (dict_at w l) =? 0)%nat
                      then dict_new {[ 1%nat := 1%Q ]} w
                      else (Ok l, w)
     | None => dict_new {[ 1%nat := 1%Q ]}
     end) w = (Ok l, w1).
Proof.
  destruct kw_lambdas as [l|]; [|by eexists _, _].
  destruct (size (dict_at w l) =? 0)%nat; by eexists _, _.
Qed.

(** X14. When the guess selector returns, it returns one of the letters
    'a'..'z' that has not been guessed. *)
Theorem ngram_guesser_returns_new_letter
    mask guessed kw_n kw_lambdas w letter_choice w' :
  ngram_guesser ln mask guessed kw_n kw_lambdas w = (Ok letter_choice, w') →
  letter_choice ∈ ascii_lowercase ∧ letter_choice ∉ guessed.
Proof.
  unfold ngram_guesser, bind. intros E.
  destruct (choose_lambdas_ok kw_lambdas w) as (l & w1 & El).
  rewrite El in E.
  destruct (for_positions ln _ _ _ _ l [] w1) as [[lp|e] w2] eqn:E2;
    [|discriminate].
  destruct (py_max lp) as [[g v]|] eqn:Emax; [|discriminate].
  injection E as <- <-.
  apply py_max_key in Emax.
  destruct (for_positions_keys _ _ _ _ _ _ _ _ _ _ E2 Emax) as [H|H].
  - by apply elem_of_nil in H.
  - by apply list_elem_of_filter in H as [? ?].
Qed.

Lemma lower_ascii_blank a : lower_ascii a = "_"%char → a = "_"%char.
Proof.
  destruct a as [[] [] [] [] [] [] [] []]; vm_compute; intros H;
    first [reflexivity | discriminate H].
Qed.

Lemma lower_blank s : lower s = "_" → s = "_".
Proof.
  destruct s as [|a [|b s]]; simpl; try discriminate.
  intros [= H]. by rewrite (lower_ascii_blank a H).
Qed.

Lemma item_convert_word_blank mask i :
  item (convert_word mask 2) i = "_" →
  ∃ j, i = S j ∧ mask !! j = Some "_".
Proof.
  unfold convert_word, item. simpl. destruct i as [|i]; [discriminate|].
  intros E. exists i. split; [done|].
  revert i E. induction mask as [|cell mask IH]; intros i E; simpl in *.
  - destruct i as [|[|i]]; discriminate.
  - destruct i as [|i]; [by rewrite (lower_blank _ E)|]. by apply IH.
Qed.

Lemma for_positions_no_blank positions word letters n l lp w :
  (∀ i, i ∈ positions → item word i ≠ "_") →
  for_positions ln positions word letters n l lp w = (Ok lp, w).
Proof.
  induction positions as [|i rest IH]; intros H; simpl; [done|].
  assert ((item word i =? "_") = false) as ->
    by (apply String.eqb_neq, H; by left).
  apply IH. intros j Hj. apply H. by right.
Qed.

Lemma for_positions_no_letters positions word n l lp w :
  for_positions ln positions word [] n l lp w = (Ok lp, w).
Proof.
  induction positions as [|i rest IH]; simpl; [done|].
  by destruct (item word i =? "_").
Qed.

(** X15. The guess selector has nothing to choose from, and raises
    [ValueError] ([max] of an empty mapping), when the mask has no blank or
    when all the letters 'a'..'z' have been guessed. *)
Theorem ngram_guesser_nothing_to_guess mask guessed kw_n kw_lambdas w :
  "_" ∉ mask ∨ (∀ x, x ∈ ascii_lowercase → x ∈ guessed) →
  (ngram_guesser ln mask guessed kw_n kw_lambdas w).1 = Raise ValueError.
Proof.
  intros H. unfold ngram_guesser, bind.
  destruct (choose_lambdas_ok kw_lambdas w) as (l & w1 & El). rewrite El.
  assert (for_positions ln (seq 0 (length (convert_word mask 2)))
            (convert_word mask 2)
            (filter (λ letter, letter ∉ guessed) ascii_lowercase)
            (match kw_n with Some (S n') => S n' | _ => 1%nat end) l [] w1
          = (Ok [], w1)) as ->.
  { destruct H as [H|H].
    - apply for_positions_no_blank. intros i _ E.
      apply item_convert_word_blank in E as (j & _ & E).
      apply H. by eapply list_elem_of_lookup_2.
    - assert (filter (λ letter, letter ∉ guessed) ascii_lowercase = []) as ->.
      { destruct (filter _ ascii_lowercase) as [|a rest] eqn:E; [done|].
        assert (a ∈ a :: rest) as Ha by (by left).
        rewrite <- E in Ha. apply list_elem_of_filter in Ha as [Hn Ha].
        destruct Hn. by apply H. }
      apply for_positions_no_letters. }
  reflexivity.
Qed.

Lemma for_letters_first_raises letter rest context n l lp w e :
  (∀ l' w1, dict_copy l w = (Ok l', w1) →
            (get_ngram_prob ln letter context n l' w1).1 = Raise e) →
  (for_letters ln (letter :: rest) context n l lp w).1 = Raise e.
Proof.
  intros H. simpl. unfold bind.
  destruct (dict_copy l w) as [[l'|e'] w1] eqn:E; [|discriminate].
  specialize (H l' w1 eq_refl).
  destruct (get_ngram_prob ln letter context n l' w1) as [[p|e'] w2];
    simpl in H; [discriminate H|by injection H as ->].
Qed.

(** X16. The default weights are only good for the order 1. Called with an
    order [n >= 2] and no weights (or an empty mapping), the guess selector
    uses [{1: 1}] and raises [KeyError] as soon as there is a blank to score
    and a letter left to try. *)
Theorem ngram_guesser_default_weights_need_order_1
    mask guessed n kw_lambdas w letter :
  (2 ≤ n)%nat →
  kw_lambdas = None
  ∨ (∃ l, kw_lambdas = Some l ∧ dict_at w l = ∅) →
  "_" ∈ mask → letter ∈ ascii_lowercase → letter ∉ guessed →
  (ngram_guesser ln mask guessed (Some n) kw_lambdas w).1 = Raise KeyError.
Proof.
  intros Hn Hkw Hblank Hletter Hnew. unfold ngram_guesser.
  set (L0 := ({[ 1%nat := 1%Q ]} : Lambdas)).
  assert ((match kw_lambdas return Py loc with
           | Some l => λ w, if (size (dict_at w l) =? 0)%nat
                            then dict_new L0 w else (Ok l, w)
           | None => dict_new L0
           end) w = dict_new L0 w) as Hsel.
  { destruct Hkw as [->|(l & -> & Hl)]; [done|]. by rewrite Hl. }
  unfold bind at 1. fold L0. rewrite Hsel. unfold dict_new at 1.
  set (l := fresh (dom (heap w))).
  set (w1 := mk (ngram_counts w) (<[l := L0]> (heap w))).
  set (n' := match n with S n' => S n' | 0%nat => 1%nat end).
  assert (n' = n) as -> by (subst n'; destruct n; [lia|done]).
  set (letters := filter (λ letter, letter ∉ guessed) ascii_lowercase).
  assert (∃ a rest, letters = a :: rest) as (a & rest & Hletters).
  { destruct letters as [|a rest] eqn:E; [|eauto].
    assert (letter ∈ letters) as Hin by (by apply list_elem_of_filter).
    rewrite E in Hin. by apply elem_of_nil in Hin. }
  set (word := convert_word mask 2).
  assert (∀ positions lp,
            (∃ i, i ∈ positions ∧ item word i = "_") →
            (for_positions ln positions word letters n l lp w1).1
            = Raise KeyError) as Hpos.
  { induction positions as [|i ps IH]; intros lp (j & Hj & Hb).
    - by apply elem_of_nil in Hj.
    - simpl. destruct (item word i =? "_") eqn:E.
      + unfold bind. rewrite Hletters.
        assert ((for_letters ln (a :: rest) (context_at word n i) n l lp w1).1
                = Raise KeyError) as Hfirst.
        { apply for_letters_first_raises.
          intros l' w2' Hcopy. unfold dict_copy, dict_new in Hcopy.
          injection Hcopy as <- <-.
          apply get_ngram_prob_raises,
            (accumulate_prob_missing_weight a (context_at word n i) n _
               _ L0 2%nat); [|lia|lia|done].
          simpl. rewrite lookup_insert_eq. unfold dict_at, w1; simpl.
          by rewrite lookup_insert_eq. }
        destruct (for_letters ln (a :: rest) (context_at word n i) n l lp w1)
          as [[lp1|e] w2]; simpl in Hfirst; [discriminate Hfirst|].
        by injection Hfirst as ->.
      + apply IH. apply String.eqb_neq in E.
        apply elem_of_cons in Hj as [->|Hj]; [done|eauto]. }
  apply list_elem_of_lookup in Hblank as [j Hj].
  assert (∃ i, i ∈ seq 0 (length word) ∧ item word i = "_") as Hex.
  { exists (S j). split.
    - apply elem_of_seq. subst word. rewrite convert_word_length.
      apply lookup_lt_Some in Hj. lia.
    - subst word. unfold convert_word, item. simpl.
      clear -Hj. revert j Hj. induction mask as [|c mask IH]; intros j Hj.
      + by rewrite lookup_nil in Hj.
      + destruct j as [|j]; simpl in *; [by injection Hj as ->|by apply IH]. }
  specialize (Hpos _ [] Hex). unfold bind.
  destruct (for_positions ln (seq 0 (length word)) word letters n l [] w1)
    as [[lp|e] w2]; simpl in Hpos; [discriminate Hpos|].
  by injection Hpos as ->.
Qed.
End GuesserMore.

(** * The game *)

Lemma reveal_prefix cs g (mask : list string) :
  (length cs ≤ length mask)%nat →
  let m := foldl (λ mask ic, if String.eqb ic.2 g then <[ic.1 := ic.2]> mask
                             else mask)
                 mask (imap pair cs) in
  length m = length mask
  ∧ ∀ j, m !! j = if decide (cs !! j = Some g) then Some g else mask !! j.
Proof.
  induction cs as [|c cs IH] using rev_ind; intros Hlen m.
  - subst m. simpl. split; [done|]. intros j.
    done.
  - rewrite length_app in Hlen. simpl in Hlen.
    destruct IH as [IHlen IH]; [lia|].
    subst m. rewrite imap_app, foldl_app. simpl.
    rewrite Nat.add_0_r.
    set (M := foldl _ mask (imap pair cs)) in *.
    destruct (c =? g) eqn:E.
    + apply String.eqb_eq in E. subst c.
      split; [by rewrite length_insert|]. intros j.
      destruct (decide (j = length cs)) as [->|Hne].
      * rewrite list_lookup_insert_eq by lia.
        rewrite lookup_app_r, Nat.sub_diag by lia. simpl.
        by rewrite decide_True.
      * rewrite list_lookup_insert_ne by done. rewrite IH.
        destruct (decide (j < length cs)%nat).
        -- by rewrite lookup_app_l.
        -- rewrite (lookup_ge_None_2 cs), (lookup_ge_None_2 (cs ++ [g]));
             [done|rewrite length_app; simpl; lia|lia].
    + apply String.eqb_neq in E.
      split; [done|]. intros j. rewrite IH.
      destruct (decide (j < length cs)%nat).
      * by rewrite lookup_app_l.
      * rewrite (lookup_ge_None_2 cs) by lia.
        destruct (decide (j = length cs)) as [->|Hne].
        -- rewrite lookup_app_r, Nat.sub_diag by lia. simpl.
           by rewrite !decide_False by congruence.
        -- rewrite (lookup_ge_None_2 (cs ++ [c]));
             [done|rewrite length_app; simpl; lia].
Qed.

(** X17. Revealing a guess changes exactly the cells of the mask where the
    secret word has the guessed character: those cells show it, all other
    cells and the length of the mask stay as they were. (A guess of more than
    one character matches no cell.) *)
Theorem reveal_cells secret_word guess (mask : list string) :
  length mask = String.length secret_word →
  length (reveal secret_word guess mask) = length mask
  ∧ ∀ i, reveal secret_word guess mask !! i
         = if decide (chars secret_word !! i = Some guess) then Some guess
           else mask !! i.
Proof.
  intros Hlen. unfold reveal.
  apply (reveal_prefix (chars secret_word) guess mask).
  rewrite chars_length. lia.
Qed.

Lemma chars_single s c : c ∈ chars s → ∃ a, c = String a "".
Proof.
  induction s as [|a s IH]; simpl; [by intros ?%elem_of_nil|].
  intros [->|H]%elem_of_cons; eauto.
Qed.

Lemma is_substring_char a s :
  is_substring (String a "") s = true ↔ String a "" ∈ chars s.
Proof.
  induction s as [|b s IH]; simpl.
  - split; [discriminate|by intros ?%elem_of_nil].
  - rewrite orb_true_iff, IH, elem_of_cons.
    destruct (ascii_dec a b) as [->|Hne].
    + split; [by left|]. intros _. left. by destruct s.
    + split; [intros [?|?]; [discriminate|by right]|].
      intros [[= ?]|?]; [done|by right].
Qed.

Lemma lowercase_fixed c : c ∈ ascii_lowercase → lower c = c ∧ c ≠ "_".
Proof.
  revert c. apply Forall_forall. unfold ascii_lowercase. simpl.
  repeat (apply Forall_cons; split; [by vm_compute|]). apply Forall_nil_2.
Qed.

Lemma lower_lowercase_word s : lowercase_word s → lower s = s.
Proof.
  unfold lowercase_word. induction s as [|a s IH]; intros H; simpl; [done|].
  rewrite IH by (intros c Hc; apply H; simpl; by right).
  destruct (lowercase_fixed (String a "")) as [E _];
    [apply H; simpl; by left|].
  simpl in E. by injection E as ->.
Qed.

Lemma alphabet_size : size alphabet = 26%nat.
Proof. by vm_compute. Qed.

Lemma elem_of_alphabet c : c ∈ alphabet ↔ c ∈ ascii_lowercase.
Proof. unfold alphabet. apply elem_of_list_to_set. Qed.

Lemma elem_of_letters_of c s : c ∈ letters_of s ↔ c ∈ chars s.
Proof. unfold letters_of. apply elem_of_list_to_set. Qed.

Lemma mask_of_lookup s G i :
  mask_of s G !! i
  = (λ c, if bool_decide (c ∈ G) then c else "_") <$> chars s !! i.
Proof. unfold mask_of. apply (list_lookup_fmap _ (chars s) i). Qed.

Lemma mask_of_length s G : length (mask_of s G) = String.length s.
Proof. unfold mask_of. by rewrite length_map, chars_length. Qed.

Lemma mask_of_empty s : mask_of s ∅ = replicate (String.length s) "_".
Proof.
  unfold mask_of. induction s as [|a s IH]; simpl; [done|]. by rewrite IH.
Qed.

Lemma mask_of_blank s G :
  lowercase_word s → "_" ∈ mask_of s G → ∃ c, c ∈ chars s ∧ c ∉ G.
Proof.
  intros Hs (c & E & Hc)%list_elem_of_fmap. exists c. split; [done|].
  case_bool_decide as HG; [|done].
  destruct (lowercase_fixed c (Hs c Hc)) as [_ Hne]. congruence.
Qed.

Lemma game_inv_initial s :
  game_inv s {| mask := replicate (String.length s) "_"; guessed := ∅;
                mistakes := 0 |}.
Proof.
  split; [set_solver|]. split; simpl.
  - by rewrite mask_of_empty.
  - replace (∅ ∖ letters_of s) with (∅ : gset string) by set_solver.
    by rewrite size_empty.
Qed.

Lemma game_inv_turn s g σ :
  game_inv s σ → g ∈ ascii_lowercase → g ∉ guessed σ →
  game_inv s (turn s g σ).
Proof.
  intros (Hsub & Hmask & Hmist) Hg Hnew. unfold turn.
  rewrite bool_decide_eq_false_2 by done.
  destruct (chars_single _ _ Hg) as [a ->].
  destruct (is_substring (String a "") s) eqn:E.
  - apply is_substring_char in E.
    split; [|split]; simpl.
    + apply elem_of_alphabet in Hg. set_solver.
    + unfold reveal.
      destruct (reveal_prefix (chars s) (String a "") (mask σ)) as [_ Hcells].
      { by rewrite chars_length, Hmask, mask_of_length. }
      apply list_eq. intros i.
      rewrite Hcells, Hmask, !mask_of_lookup.
      destruct (chars s !! i) as [c|] eqn:Ec; simpl.
      * case_decide as Hc.
        -- injection Hc as ->. by rewrite bool_decide_eq_true_2 by set_solver.
        -- assert (c ≠ String a "") by congruence.
           repeat case_bool_decide; first [done | set_solver].
      * repeat case_decide; congruence.
    + rewrite Hmist. do 2 f_equal.
      apply elem_of_letters_of in E. set_solver.
  - assert (String a "" ∉ chars s) as Hout.
    { intros H%is_substring_char. congruence. }
    split; [|split]; simpl.
    + apply elem_of_alphabet in Hg. set_solver.
    + rewrite Hmask. unfold mask_of. apply map_ext_in.
      intros c Hc%list_elem_of_In.
      assert (c ≠ String a "") by congruence.
      repeat case_bool_decide; first [done | set_solver].
    + rewrite Hmist.
      replace ((guessed σ ∪ {[String a ""]}) ∖ letters_of s)
        with ((guessed σ ∖ letters_of s) ∪ {[String a ""]}).
      * rewrite (size_union (guessed σ ∖ letters_of s) {[String a ""]})
          by set_solver.
        rewrite (size_singleton (C := gset string)). lia.
      * rewrite <- elem_of_letters_of in Hout. set_solver.
Qed.

Lemma game_inv_bound s σ :
  lowercase_word s → game_inv s σ →
  (0 ≤ mistakes σ ≤ 26 - Z.of_nat (size (letters_of s)))%Z.
Proof.
  intros Hs (Hsub & _ & ->).
  assert (letters_of s ⊆ alphabet) as Hl.
  { intros c Hc%elem_of_letters_of. apply elem_of_alphabet. by apply Hs. }
  pose proof (size_difference alphabet (letters_of s) Hl) as Hd.
  rewrite alphabet_size in Hd.
  assert (size (guessed σ ∖ letters_of s) ≤ size (alphabet ∖ letters_of s))%nat
    by (apply subseteq_size; set_solver).
  pose proof (subseteq_size _ _ Hl) as Hle. rewrite alphabet_size in Hle.
  lia.
Qed.

(** ** The game by its rules *)

(** The mask always shows exactly the characters of the secret word that are
    in the guessed set, whatever strings are guessed. *)
Lemma turn_rules s g σ :
  mask σ = mask_of s (guessed σ) →
  mask (turn s g σ) = mask_of s (guessed σ ∪ {[ g ]})
  ∧ guessed (turn s g σ) = guessed σ ∪ {[ g ]}
  ∧ mistakes (turn s g σ)
    = (if ordinary_mistake s (guessed σ) g
       then mistakes σ + 1 else mistakes σ)%Z.
Proof.
  intros Hmask. unfold turn, ordinary_mistake.
  case_bool_decide as Hg; simpl.
  - assert (guessed σ ∪ {[ g ]} = guessed σ) as -> by set_solver.
    done.
  - destruct (is_substring g s) eqn:E; simpl.
    + split; [|done]. unfold reveal.
      destruct (reveal_prefix (chars s) g (mask σ)) as [Hlen Hcells].
      { by rewrite chars_length, Hmask, mask_of_length. }
      apply list_eq. intros i.
      rewrite Hcells, Hmask, !mask_of_lookup.
      destruct (chars s !! i) as [c|] eqn:Ec; simpl.
      * case_decide as Hc.
        -- injection Hc as ->. rewrite bool_decide_eq_true_2; [done|set_solver].
        -- assert (c ≠ g) by congruence.
           f_equal. repeat case_bool_decide; try done; set_solver.
      * first [done|by case_decide].
    + split; [|done]. rewrite Hmask. unfold mask_of.
      apply map_ext_in. intros c Hc%list_elem_of_In.
      assert (c ≠ g) as Hne.
      { intros ->. destruct (chars_single _ _ Hc) as [a ->].
        apply is_substring_char in Hc. congruence. }
      repeat case_bool_decide; try done; set_solver.
Qed.

Section HangmanRulesFacts.
Context {St : Type}.
Variable guesser : list string → gset string → St → result string * St.

Lemma hangman_loop_rules fuel s max_mistakes σ st :
  mask σ = mask_of s (guessed σ) →
  hangman_loop guesser fuel s max_mistakes σ st
  = hangman_rules guesser fuel s max_mistakes (guessed σ) (mistakes σ) st.
Proof.
  revert σ st. induction fuel as [|fuel IH]; intros σ st Hmask; [done|].
  simpl. destruct (mistakes σ <? max_mistakes)%Z; [|done].
  rewrite <- Hmask.
  destruct (guesser (mask σ) (guessed σ) st) as [[g|e] st1]; [|done].
  destruct (turn_rules s g σ Hmask) as (Hm & Hg & Hk).
  rewrite <- Hm, <- Hk, <- Hg.
  case_bool_decide; [done|]. apply IH. by rewrite Hm, Hg.
Qed.

(** C9, as the code has it. The game checks no guess: played by a strategy
    that answers with [str] values, [hangman] is the game of the rules
    [hangman_rules], in which every string, whatever its length and its
    characters, is a guess like any other: it is a mistake exactly when it
    is in the guessed set already or does not occur in the lower-cased
    secret word, it joins the guessed set, and the mask shows the characters
    of the word that are in the guessed set. With enough fuel the game comes
    to a result; the result is an exception only when the strategy raised
    it, and a strategy that does not raise gets a mistake count. *)
Theorem hangman_accepts_any_string fuel secret_word max_mistakes st :
  hangman guesser fuel secret_word max_mistakes st
  = hangman_rules guesser fuel (lower secret_word) max_mistakes ∅ 0 st
  ∧ ((enough_fuel secret_word max_mistakes ≤ fuel)%nat →
     (∃ r st', hangman guesser fuel secret_word max_mistakes st = Some (r, st')
               ∧ ∀ e, r = Raise e →
                      ∃ mask guessed st0 st1,
                        guesser mask guessed st0 = (Raise e, st1))
     ∧ ((∀ mask guessed st,
           ∃ guess st', guesser mask guessed st = (Ok guess, st')) →
        ∃ m st',
          hangman guesser fuel secret_word max_mistakes st = Some (Ok m, st')
          ∧ (0 ≤ m)%Z)).
Proof.
  split.
  - unfold hangman. rewrite hangman_loop_rules; [done|].
    simpl. by rewrite mask_of_empty.
  - intros Hfuel. unfold hangman.
    destruct (hangman_loop_total guesser fuel (lower secret_word) max_mistakes
                _ st (enough_fuel_initial _ _ _ Hfuel))
      as (r & st' & -> & Hcount & Hraise).
    split; [by eauto|].
    intros Hok. destruct r as [m|e].
    + exists m, st'. split; [done|].
      destruct (Hcount m eq_refl) as [H0 _]. simpl in H0. lia.
    + destruct (Hraise e eq_refl) as (mask & guessed & st0 & st1 & E).
      destruct (Hok mask guessed st0) as (g & st2 & E'). congruence.
Qed.
End HangmanRulesFacts.

Section NewLetters.
Context {St : Type}.
Variable guesser : list string → gset string → St → result string * St.
Hypothesis guesser_new : new_letter_strategy guesser.

Lemma hangman_loop_new_letters fuel s max_mistakes σ st r st' :
  lowercase_word s → game_inv s σ →
  (∃ x, x ∈ ascii_lowercase ∧ x ∉ guessed σ) →
  hangman_loop guesser fuel s max_mistakes σ st = Some (r, st') →
  ∃ m, r = Ok m
       ∧ (mistakes σ ≤ m ≤ 26 - Z.of_nat (size (letters_of s)))%Z.
Proof.
  intros Hs. revert σ st.
  induction fuel as [|fuel IH]; intros σ st Hinv Hleft E; [discriminate|].
  simpl in E. pose proof (game_inv_bound s σ Hs Hinv) as Hb.
  destruct (mistakes σ <? max_mistakes)%Z.
  - destruct (guesser_new (mask σ) (guessed σ) st Hleft)
      as (g & st1 & Eg & Hg & Hnew).
    rewrite Eg in E.
    pose proof (game_inv_turn s g σ Hinv Hg Hnew) as Hinv'.
    pose proof (game_inv_bound s _ Hs Hinv') as Hb'.
    assert (mistakes σ ≤ mistakes (turn s g σ))%Z as Hmono
      by (destruct (turn_cases s g σ) as [[-> _]|(-> & _)]; lia).
    case_bool_decide as Hblank.
    + injection E as <- <-. eexists; split; [done|]. lia.
    + destruct Hinv' as (Hsub' & Hmask' & Hmist').
      rewrite Hmask' in Hblank.
      apply (mask_of_blank s _ Hs) in Hblank as (c & Hc & Hcn).
      destruct (IH _ _ (conj Hsub' (conj Hmask' Hmist'))
                  ltac:(eauto) E) as (m & -> & Hm).
      eexists; split; [done|]. lia.
  - injection E as <- <-. eexists; split; [done|]. lia.
Qed.

(** From the first pass on: the loop of a game on a word of lower-case
    letters, played with new letters only, returns a count within the number
    of letters outside the word. *)
Lemma hangman_new_letters_run fuel secret_word max_mistakes st :
  lowercase_word secret_word →
  (game_measure secret_word max_mistakes
     {| mask := replicate (String.length secret_word) "_";
        guessed := ∅; mistakes := 0 |} < fuel)%nat →
  ∃ m st',
    hangman_loop guesser fuel secret_word max_mistakes
      {| mask := replicate (String.length secret_word) "_";
         guessed := ∅; mistakes := 0 |} st = Some (Ok m, st')
    ∧ (0 ≤ m ≤ 26 - Z.of_nat (size (letters_of secret_word)))%Z.
Proof.
  intros Hs Hfuel.
  destruct (hangman_loop_total guesser fuel secret_word max_mistakes _ st Hfuel)
    as (r & st' & E & _).
  destruct (hangman_loop_new_letters _ _ _ _ _ _ _ Hs
              (game_inv_initial secret_word)
              ltac:(exists "a"; split; [by left|set_solver]) E)
    as (m & -> & Hm).
  exists m, st'. split; [done|]. simpl in Hm. lia.
Qed.

(** X18. A strategy that always answers with a letter 'a'..'z' it has not
    tried yet cannot make more mistakes than there are letters outside the
    word: on a word of lower-case letters with [d] different letters the game
    returns, and returns at most [26 - d] mistakes, whatever the cap. *)
Theorem hangman_new_letters_bound fuel secret_word max_mistakes st :
  lowercase_word secret_word →
  (enough_fuel secret_word max_mistakes ≤ fuel)%nat →
  ∃ m st',
    hangman guesser fuel secret_word max_mistakes st = Some (Ok m, st')
    ∧ (0 ≤ m ≤ 26 - Z.of_nat (size (letters_of secret_word)))%Z.
Proof.
  intros Hs Hfuel.
  destruct (hangman_new_letters_run fuel secret_word max_mistakes st Hs)
    as (m & st' & E & Hm).
  { pose proof (enough_fuel_initial fuel secret_word max_mistakes Hfuel) as H.
    by rewrite (lower_lowercase_word _ Hs) in H. }
  exists m, st'. unfold hangman. rewrite (lower_lowercase_word _ Hs).
  split; [done|]. lia.
Qed.
End NewLetters.

Lemma random_choice_in a rng :
  a ≠ [] → ∃ x, random_choice a rng = (Ok x, λ i, rng (S i)) ∧ x ∈ a.
Proof.
  destruct a as [|y a]; [done|]. intros _. eexists. split; [reflexivity|].
  apply list_elem_of_In, nth_In. apply Nat.mod_upper_bound. done.
Qed.

Lemma trivial_guesser_some mask guessed rng :
  (∃ x, x ∈ ascii_lowercase ∧ x ∉ guessed) →
  ∃ g, trivial_guesser mask guessed rng = (Ok g, λ i, rng (S i))
       ∧ g ∈ ascii_lowercase ∧ g ∉ guessed.
Proof.
  unfold trivial_guesser. intros (x & Hx & Hn).
  destruct (random_choice_in
              (filter (λ letter, letter ∉ guessed) ascii_lowercase) rng)
    as (g & E & Hg).
  { intros E. assert (x ∈ filter (λ letter, letter ∉ guessed) ascii_lowercase)
      as Hin by (by apply list_elem_of_filter).
    rewrite E in Hin. by apply elem_of_nil in Hin. }
  exists g. split; [done|]. by apply list_elem_of_filter in Hg as [? ?].
Qed.

(** X19. The random strategy answers with a letter 'a'..'z' that has not been
    guessed, whatever the generator draws, and moves the generator on by one
    draw; when all 26 letters have been guessed it raises [ValueError]. *)
Theorem trivial_guesser_new_letter mask guessed rng :
  ((∃ x, x ∈ ascii_lowercase ∧ x ∉ guessed) →
   ∃ g, trivial_guesser mask guessed rng = (Ok g, λ i, rng (S i))
        ∧ g ∈ ascii_lowercase ∧ g ∉ guessed)
  ∧ ((∀ x, x ∈ ascii_lowercase → x ∈ guessed) →
     trivial_guesser mask guessed rng = (Raise ValueError, rng)).
Proof.
  split; [apply trivial_guesser_some|].
  unfold trivial_guesser.
  - intros H.
    destruct (filter _ ascii_lowercase) as [|a rest] eqn:E; [done|].
    assert (a ∈ a :: rest) as Ha by (by left).
    rewrite <- E in Ha. apply list_elem_of_filter in Ha as [Hn Ha].
    destruct Hn. by apply H.
Qed.

Lemma trivial_guesser_new : new_letter_strategy trivial_guesser.
Proof.
  intros mask guessed rng Hleft.
  destruct (trivial_guesser_some mask guessed rng Hleft) as (g & E & Hg).
  eauto.
Qed.

(** X20. A game played by the random strategy on a word of lower-case
    letters never raises, and with [d] different letters in the word it
    returns at most [26 - d] mistakes, whatever the generator draws. *)
Theorem hangman_trivial_guesser fuel secret_word max_mistakes rng :
  lowercase_word secret_word →
  (enough_fuel secret_word max_mistakes ≤ fuel)%nat →
  ∃ m rng',
    hangman trivial_guesser fuel secret_word max_mistakes rng
    = Some (Ok m, rng')
    ∧ (0 ≤ m ≤ 26 - Z.of_nat (size (letters_of secret_word)))%Z.
Proof.
  intros Hs Hfuel.
  destruct (hangman_new_letters_run trivial_guesser trivial_guesser_new
              fuel secret_word max_mistakes rng Hs) as (m & rng' & E & Hm).
  { pose proof (enough_fuel_initial fuel secret_word max_mistakes Hfuel) as H.
    by rewrite (lower_lowercase_word _ Hs) in H. }
  exists m, rng'. unfold hangman. rewrite (lower_lowercase_word _ Hs).
  split; [done|]. lia.
Qed.

(** X21. With a cap of 0 or less no turn is played: the strategy is not
    asked, and the game returns 0 mistakes. *)
Theorem hangman_no_turn {St}
    (guesser : list string → gset string → St → result string * St)
    fuel secret_word max_mistakes st :
  (max_mistakes ≤ 0)%Z → (1 ≤ fuel)%nat →
  hangman guesser fuel secret_word max_mistakes st = Some (Ok 0%Z, st).
Proof.
  intros Hmax Hfuel. unfold hangman. destruct fuel as [|fuel]; [lia|]. simpl.
  by rewrite (proj2 (Z.ltb_ge 0 max_mistakes) Hmax).
Qed.

(** * The evaluator *)

Section EvaluateFacts.
Context {St : Type}.
Variable guesser : list string → gset string → St → result string * St.

Lemma evaluate_loop_total dataset mistakes st :
  ∃ r st',
    evaluate_loop guesser dataset mistakes st = Some (r, st')
    ∧ match r with
      | Ok m => (mistakes ≤ m ≤ mistakes + 26 * Z.of_nat (length dataset))%Z
      | Raise e =>
          ∃ mask guessed st0 st1, guesser mask guessed st0 = (Raise e, st1)
      end.
Proof.
  revert mistakes st. induction dataset as [|word rest IH]; intros mistakes st.
  - simpl. eexists _, _. split; [done|]. simpl. lia.
  - cbn [evaluate_loop].
    unfold hangman.
    destruct (hangman_loop_total guesser (enough_fuel word 26) (lower word) 26
                _ st (enough_fuel_initial _ _ _ (Nat.le_refl _)))
      as (r & st1 & -> & Hok & Hraise).
    destruct r as [m|e].
    + destruct (Hok m eq_refl) as [H0 H1]. simpl in H0, H1.
      destruct (IH (mistakes + m)%Z st1) as (r' & st' & -> & Hr').
      eexists _, _. split; [done|].
      destruct r' as [m'|e']; [|done]. simpl length. simpl in Hr'. lia.
    + eexists _, _. split; [done|]. by apply Hraise.
Qed.

(** The division that ends the evaluation, on a dataset that is not
    empty. *)
Lemma evaluate_model_of_loop dataset st m st' :
  dataset ≠ [] →
  evaluate_loop guesser dataset 0 st = Some (Ok m, st') →
  (0 ≤ m ≤ 26 * Z.of_nat (length dataset))%Z →
  ∃ avg_mistakes,
    evaluate_model guesser dataset st = Some (POk avg_mistakes, st')
    ∧ (0 <= avg_mistakes)%Q ∧ (avg_mistakes <= 26)%Q.
Proof.
  intros Hne E Hm. unfold evaluate_model. rewrite E.
  assert (0 < length dataset)%nat as Hlen
    by (destruct dataset; [done|simpl; lia]).
  unfold py_div.
  assert (0 < inject_Z (Z.of_nat (length dataset)))%Q as Hpos
    by (apply inject_Z_pos; lia).
  destruct (Qeq_bool _ 0) eqn:E0.
  { apply Qeq_bool_iff in E0. lra. }
  eexists. split; [done|]. split.
  - apply Qle_shift_div_l; [done|]. rewrite Qmult_0_l.
    apply inject_Z_nonneg. lia.
  - apply Qle_shift_div_r; [done|].
    change 26%Q with (inject_Z 26). rewrite <- inject_Z_mult, <- Zle_Qle. lia.
Qed.

(** X22. The evaluator always comes to a result. On an empty dataset it
    raises [ZeroDivisionError], and no game is played. On any other dataset
    it returns a mean between 0 and 26, unless the strategy raised, and then
    that exception is the result. *)
Theorem evaluate_model_mean dataset st :
  (dataset = [] →
   evaluate_model guesser dataset st = Some (PRaise ZeroDivisionError, st))
  ∧ (dataset ≠ [] →
     ∃ r st',
       evaluate_model guesser dataset st = Some (r, st')
       ∧ match r with
         | POk avg_mistakes => (0 <= avg_mistakes)%Q ∧ (avg_mistakes <= 26)%Q
         | PRaise ZeroDivisionError => False
         | PRaise (Exn e) =>
             ∃ mask guessed st0 st1, guesser mask guessed st0 = (Raise e, st1)
         end).
Proof.
  split; [by intros ->|]. intros Hne.
  destruct (evaluate_loop_total dataset 0 st) as (r & st' & E & Hr).
  destruct r as [m|e].
  - destruct (evaluate_model_of_loop dataset st m st' Hne E)
      as (avg_mistakes & -> & Havg); [simpl in Hr; lia|].
    by eexists _, _.
  - unfold evaluate_model. rewrite E. by eexists _, _.
Qed.

(** X23. With a strategy that always answers with a new letter 'a'..'z',
    the evaluator never raises on a non-empty dataset of lower-case words:
    it returns a mean between 0 and 26. *)
Theorem evaluate_model_new_letters dataset st :
  new_letter_strategy guesser →
  dataset ≠ [] → (∀ word, word ∈ dataset → lowercase_word word) →
  ∃ avg_mistakes st',
    evaluate_model guesser dataset st = Some (POk avg_mistakes, st')
    ∧ (0 <= avg_mistakes)%Q ∧ (avg_mistakes <= 26)%Q.
Proof.
  intros Hnew Hne Hwords.
  assert (∀ ds mistakes st0,
            (∀ word, word ∈ ds → lowercase_word word) →
            ∃ m st1, evaluate_loop guesser ds mistakes st0 = Some (Ok m, st1))
    as Hloop.
  { induction ds as [|word rest IH]; intros mistakes st0 Hds.
    - by eexists _, _.
    - cbn [evaluate_loop].
      assert (lowercase_word word) as Hw by (apply Hds; by left).
      unfold hangman. rewrite (lower_lowercase_word _ Hw).
      destruct (hangman_new_letters_run guesser Hnew (enough_fuel word 26)
                  word 26 st0 Hw) as (m & st1 & -> & _).
      { pose proof (enough_fuel_initial _ word 26 (Nat.le_refl _)) as H.
        by rewrite (lower_lowercase_word _ Hw) in H. }
      apply IH. intros w Hw'. apply Hds. by right. }
  destruct (Hloop dataset 0%Z st Hwords) as (m & st1 & Em).
  destruct (evaluate_loop_total dataset 0 st) as (r & st' & E & Hr).
  rewrite Em in E. injection E as <- <-. simpl in Hr.
  destruct (evaluate_model_of_loop dataset st m st1 Hne Em)
    as (avg_mistakes & E & Havg); [lia|].
  by exists avg_mistakes, st1.
Qed.
End EvaluateFacts.

(** * The unigram strategies *)

(** [max] returns the first of the keys with the greatest value. *)
Lemma py_max_first lp :
  match py_max lp with
  | None => lp = []
  | Some (l, v) =>
      ∃ pre post, lp = (pre ++ (l, v) :: post)%list
                  ∧ (∀ x, x ∈ pre → (x.2 < v)%Q)
                  ∧ (∀ x, x ∈ post → (x.2 <= v)%Q)
  end.
Proof.
  unfold py_max. induction lp as [|[l v] lp IH] using rev_ind; [done|].
  rewrite foldl_app. simpl.
  destruct (foldl _ None lp) as [[bl bv]|].
  - destruct IH as (pre & post & -> & Hpre & Hpost). simpl.
    destruct (Qle_bool v bv) eqn:E.
    + apply Qle_bool_iff in E. exists pre, (post ++ [(l, v)])%list.
      split; [by rewrite <- app_assoc|]. split; [done|].
      intros x [Hx| ->%list_elem_of_singleton]%elem_of_app; [by apply Hpost|done].
    + assert (bv < v)%Q as Hlt.
      { apply Qnot_le_lt. intros H%Qle_bool_iff. congruence. }
      exists (pre ++ (bl, bv) :: post)%list, []. split; [done|]. split.
      * intros x [Hx|[->|Hx]%elem_of_cons]%elem_of_app; simpl.
        -- eapply Qlt_trans; [by apply Hpre|done].
        -- done.
        -- eapply Qle_lt_trans; [by apply Hpost|done].
      * by intros x ?%elem_of_nil.
  - subst lp. exists [], []. split; [done|]. split; by intros x ?%elem_of_nil.
Qed.









(** X25. The unigram strategy raises [ZeroDivisionError] when it was trained
    on no character and a letter is left to try, and [ValueError] when no
    letter is left, whatever it was trained on. *)
Theorem unigram_guesser_errors (unigram_counts : Counter) mask guessed :
  (unigram_counts = ∅ → (∃ x, x ∈ ascii_lowercase ∧ x ∉ guessed) →
   unigram_guesser unigram_counts mask guessed = PRaise ZeroDivisionError)
  ∧ ((∀ x, x ∈ ascii_lowercase → x ∈ guessed) →
     unigram_guesser unigram_counts mask guessed = PRaise (Exn ValueError)).
Proof.
  unfold unigram_guesser. split.
  - intros -> (x & Hx & Hn).
    destruct (filter _ ascii_lowercase) as [|a rest] eqn:E.
    + assert (x ∈ filter (λ letter, letter ∉ guessed) ascii_lowercase) as Hin
        by (by apply list_elem_of_filter).
      rewrite E in Hin. by apply elem_of_nil in Hin.
    + simpl. by rewrite counter_total_empty.
  - intros H.
    destruct (filter _ ascii_lowercase) as [|a rest] eqn:E; [done|].
    assert (a ∈ a :: rest) as Ha by (by left).
    rewrite <- E in Ha. apply list_elem_of_filter in Ha as [Hn Ha].
    destruct Hn. by apply H.
Qed.

(** ** The unigram strategy conditioned on the length of the word *)

Lemma length_incr_get (d : gmap nat Counter) k ls n x :
  length_count
    (foldl (λ d letter, <[k := counter_incr (default ∅ (d !! k)) letter]> d)
           d ls) n x
  = (length_count d n x + (if decide (n = k) then count_in x ls else 0))%Z.
Proof.
  revert d. induction ls as [|y ls IH]; intros d; simpl.
  - unfold count_in. simpl. case_decide; lia.
  - rewrite IH. unfold length_count.
    destruct (decide (n = k)) as [->|Hne].
    + rewrite lookup_insert_eq. simpl.
      rewrite counter_get_incr, count_in_cons. lia.
    + rewrite lookup_insert_ne by done. lia.
Qed.

Lemma length_incr_key (d : gmap nat Counter) k ls n :
  is_Some
    (foldl (λ d letter, <[k := counter_incr (default ∅ (d !! k)) letter]> d)
           d ls !! n)
  ↔ is_Some (d !! n) ∨ (n = k ∧ ls ≠ []).
Proof.
  revert d. induction ls as [|y ls IH]; intros d; simpl.
  - split; [by left|by intros [?|[_ ?]]].
  - rewrite IH. destruct (decide (n = k)) as [->|Hne].
    + rewrite lookup_insert_eq. split; [intros _; by right|intros _; left; eauto].
    + rewrite lookup_insert_ne by done.
      split; (intros [?|[? _]]; [by left|done]).
Qed.

(** X26. The table conditioned on length holds, under each length, the
    number of occurrences of every character in the training words of that
    length; its keys are the lengths of the non-empty training words, so 0
    is never a key. *)
Theorem get_conditional_unigram_counts_counts words n x :
  length_count (get_conditional_unigram_counts words) n x
  = count_in x (all_chars (filter (λ w, String.length w = n) words))
  ∧ (is_Some (get_conditional_unigram_counts words !! n)
     ↔ n ≠ 0%nat ∧ ∃ w, w ∈ words ∧ String.length w = n).
Proof.
  unfold get_conditional_unigram_counts.
  induction words as [|w words [IH1 IH2]] using rev_ind.
  - simpl. split; [done|]. rewrite lookup_empty. split.
    + by intros [? ?].
    + intros (_ & w & []%elem_of_nil & _).
  - rewrite foldl_app. simpl. split.
    + rewrite length_incr_get, IH1, filter_app. unfold all_chars.
      rewrite map_app, concat_app, count_in_app. f_equal.
      rewrite filter_cons, filter_nil.
      destruct (decide (String.length w = n)) as [<-|Hne].
      * rewrite decide_True by done. simpl. by rewrite app_nil_r.
      * rewrite decide_False by done. done.
    + rewrite length_incr_key, IH2. split.
      * intros [(Hn & w' & Hw' & Hl)|[-> Hc]].
        -- split; [done|]. exists w'. split; [|done]. apply elem_of_app. by left.
        -- split.
           ++ destruct w; [done|]. simpl. lia.
           ++ exists w. split; [|done]. apply elem_of_app. right. by left.
      * intros (Hn & w' & [Hw'| ->%list_elem_of_singleton]%elem_of_app & Hl).
        -- left. eauto.
        -- right. split; [done|]. destruct w; [done|discriminate].
Qed.





(** * When the guess selector returns *)








Lemma prob_pos T c letter n (L : Lambdas) :
  counts_nonneg T → (1 ≤ n)%nat →
  (∀ k, (0 <= weight L k)%Q) → (0 < weight L 1)%Q →
  (0 < count1 T letter)%Z →
  (0 < sum_orders
         (contribution T c letter (cascade_spec T c letter n 0 L).2) n)%Q.
Proof.
  intros HT Hn Hnn H1 Hc.
  assert (0 < total1 T)%Z as Ht.
  { pose proof (proj2 (counter_total_bounds _ (proj1 HT)) letter).
    unfold total1, count1 in *. lia. }
  pose proof (cascade_spec_grows T c letter n 0 L Hnn) as Hgrow.
  apply sum_orders_pos; [| |lia].
  - intros j. apply contribution_nonneg; [done|].
    eapply Qle_trans; [apply Hnn|apply Hgrow].
  - apply contribution_pos; [done| |done..].
    eapply Qlt_le_trans; [exact H1|apply Hgrow].
Qed.

Lemma letter_probs_add_not_nil lp letter p : letter_probs_add lp letter p ≠ [].
Proof. destruct lp as [|[l v] lp]; simpl; [done|]. by destruct (l =? letter). Qed.

Lemma py_max_not_nil lp : lp ≠ [] → ∃ g v, py_max lp = Some (g, v).
Proof.
  intros Hne. pose proof (py_max_first lp) as H.
  destruct (py_max lp) as [[g v]|]; [eauto|done].
Qed.

(** The padded mask has a blank where the mask has one. *)
Lemma blank_position mask :
  "_" ∈ mask →
  ∃ i, i ∈ seq 0 (length (convert_word mask 2))
       ∧ item (convert_word mask 2) i = "_".
Proof.
  intros [j Hj]%list_elem_of_lookup. exists (S j). split.
  - apply elem_of_seq. rewrite convert_word_length.
    apply lookup_lt_Some in Hj. lia.
  - unfold convert_word, item. simpl.
    revert j Hj. induction mask as [|c mask IH]; intros j Hj.
    + by rewrite lookup_nil in Hj.
    + destruct j as [|j]; simpl in *; [by injection Hj as ->|by apply IH].
Qed.

Section GuesserRuns.
Variable ln : Q → Q.
Variable train_set : list string.
Variable n : nat.
Variable l : loc.
Variable L : Lambdas.
Hypothesis Hn : (1 ≤ n ≤ 5)%nat.
Hypothesis Hkeys : ∀ k, (1 ≤ k ≤ n)%nat → is_Some (L !! k).
Hypothesis Htotal : total1 (train train_set) ≠ 0%Z.

(** One pass of the loop over the letters: the weights are copied into a new
    dictionary, the tables may get empty counters, and the logarithm raises
    on a probability of 0. *)
Lemma for_letters_step letter rest context lp w :
  built_from train_set (ngram_counts w) → heap w !! l = Some L →
  ∃ p w2,
    (p == sum_orders
            (contribution (ngram_counts w) (conditional_of context) letter
               (cascade_spec (ngram_counts w) (conditional_of context)
                             letter n 0 L).2) n)%Q
    ∧ built_from train_set (ngram_counts w2) ∧ heap w2 !! l = Some L
    ∧ for_letters ln (letter :: rest) context n l lp w
      = if Qle_bool p 0 then (Raise ValueError, w2)
        else for_letters ln rest context n l
               (letter_probs_add lp letter (ln p)) w2.
Proof.
  intros Hb HL. simpl. unfold bind at 1, dict_copy, dict_new, dict_at.
  rewrite HL. simpl.
  set (l' := fresh (dom (heap w))).
  set (w1 := {| ngram_counts := ngram_counts w; heap := <[l' := L]> (heap w) |}).
  assert (l ≠ l') as Hfresh.
  { intros ->. apply (is_fresh (dom (heap w))). fold l'.
    apply elem_of_dom. eauto. }
  destruct (accumulate_prob_run letter context n l' w1 L Hn) as (p & E & Hp).
  { simpl. apply lookup_insert_eq. }
  { exact Hkeys. }
  { simpl. unfold total1. rewrite (proj1 Hb). exact Htotal. }
  simpl in E, Hp.
  eexists p, _. split; [exact Hp|].
  split; [|split]; cycle 2.
  - unfold bind, get_ngram_prob, bind. rewrite E. unfold math_log.
    destruct (Qle_bool p 0); reflexivity.
  - simpl. eapply tables_ext_trans; [exact Hb|apply tables_ext_touch_down].
  - simpl. by rewrite !lookup_insert_ne by done.
Qed.


Lemma for_letters_seen letters context lp w :
  built_from train_set (ngram_counts w) → heap w !! l = Some L →
  (∀ k, (0 <= weight L k)%Q) → (0 < weight L 1)%Q →
  (∀ x, x ∈ letters → (0 < count1 (train train_set) x)%Z) →
  ∃ lp' w',
    for_letters ln letters context n l lp w = (Ok lp', w')
    ∧ built_from train_set (ngram_counts w') ∧ heap w' !! l = Some L
    ∧ (lp ≠ [] ∨ letters ≠ [] → lp' ≠ []).
Proof.
  intros Hb HL Hnn H1. revert lp w Hb HL.
  induction letters as [|y rest IH]; intros lp w Hb HL Hseen.
  - exists lp, w. split; [done|]. split; [done|]. split; [done|].
    by intros [?|?].
  - destruct (for_letters_step y rest context lp w Hb HL)
      as (p & w2 & Hp & Hb2 & HL2 & ->).
    assert (0 < p)%Q as Hpos.
    { rewrite Hp. apply prob_pos; [|lia|done|done|].
      - by apply (built_from_counts_nonneg train_set).
      - unfold count1. rewrite (proj1 Hb). apply Hseen. by left. }
    destruct (Qle_bool p 0) eqn:Hle.
    { apply Qle_bool_iff in Hle. lra. }
    destruct (IH (letter_probs_add lp y (ln p)) w2 Hb2 HL2)
      as (lp' & w' & E & Hb' & HL' & Hne).
    { intros x Hx. apply Hseen. by right. }
    exists lp', w'. split; [done|]. split; [done|]. split; [done|].
    intros _. apply Hne. left. apply letter_probs_add_not_nil.
Qed.


Lemma for_positions_seen positions word letters lp w :
  built_from train_set (ngram_counts w) → heap w !! l = Some L →
  (∀ k, (0 <= weight L k)%Q) → (0 < weight L 1)%Q →
  (∀ x, x ∈ letters → (0 < count1 (train train_set) x)%Z) →
  ∃ lp' w',
    for_positions ln positions word letters n l lp w = (Ok lp', w')
    ∧ built_from train_set (ngram_counts w') ∧ heap w' !! l = Some L
    ∧ (lp ≠ [] ∨ (letters ≠ [] ∧ ∃ i, i ∈ positions ∧ item word i = "_") →
       lp' ≠ []).
Proof.
  intros Hb HL Hnn H1 Hseen. revert lp w Hb HL.
  induction positions as [|i ps IH]; intros lp w Hb HL.
  - exists lp, w. split; [done|]. split; [done|]. split; [done|].
    intros [?|[_ (j & Hj & _)]]; [done|]. by apply elem_of_nil in Hj.
  - simpl. destruct (item word i =? "_") eqn:E.
    + unfold bind.
      destruct (for_letters_seen letters (context_at word n i) lp w Hb HL
                  Hnn H1 Hseen) as (lp1 & w1 & -> & Hb1 & HL1 & Hne1).
      destruct (IH lp1 w1 Hb1 HL1) as (lp' & w' & -> & Hb' & HL' & Hne').
      exists lp', w'. split; [done|]. split; [done|]. split; [done|].
      intros [Hlp|[Hl _]]; apply Hne'; left; apply Hne1; [by left|by right].
    + destruct (IH lp w Hb HL) as (lp' & w' & -> & Hb' & HL' & Hne').
      exists lp', w'. split; [done|]. split; [done|]. split; [done|].
      intros [Hlp|[Hl (j & Hj & Hblank)]]; apply Hne'; [by left|].
      right. split; [done|]. exists j. split; [|done].
      apply String.eqb_neq in E.
      apply elem_of_cons in Hj as [->|Hj]; done.
Qed.
End GuesserRuns.

Lemma ngram_guesser_given ln mask guessed n l w (L : Lambdas) :
  (1 ≤ n)%nat → heap w !! l = Some L → is_Some (L !! 1%nat) →
  ngram_guesser ln mask guessed (Some n) (Some l) w
  = (let! letter_probs :=
       for_positions ln (seq 0 (length (convert_word mask 2)))
         (convert_word mask 2)
         (filter (λ letter, letter ∉ guessed) ascii_lowercase) n l [] in
     match py_max letter_probs with
     | Some (letter_choice, _) => ret letter_choice
     | None => raise ValueError
     end) w.
Proof.
  intros Hn HL [v Hv]. unfold ngram_guesser, bind at 1, dict_at.
  rewrite HL. simpl.
  assert ((size L =? 0)%nat = false) as ->.
  { apply Nat.eqb_neq. intros E%map_size_empty_inv. subst L.
    by rewrite lookup_empty in Hv. }
  destruct n as [|n]; [lia|]. reflexivity.
Qed.


Lemma first_term_inv (wt : Q) c t :
  (0 <= wt)%Q → (0 ≤ c)%Z →
  (0 < wt * inject_Z c / inject_Z t)%Q → (0 < wt)%Q ∧ (0 < c)%Z.
Proof.
  intros Hw Hc H. split.
  - destruct (Qlt_le_dec 0 wt) as [|Hle]; [done|]. exfalso.
    assert (wt == 0)%Q as H0 by lra.
    rewrite H0 in H. unfold Qdiv in H. rewrite !Qmult_0_l in H. lra.
  - destruct (Z.eq_dec c 0%Z) as [->|]; [|lia]. exfalso.
    unfold Qdiv in H. change (inject_Z 0) with 0%Q in H.
    rewrite Qmult_0_r, Qmult_0_l in H. lra.
Qed.

(** X30. With weights for the orders 1..n, all between 0 and 1, a mask with
    a blank, and for every unguessed letter a term of the order 1,
    [weight[1] * count(letter) / total], of at least the smallest positive
    normal float (so every unguessed letter occurs in the training words and
    no term underflows), the guess selector returns: its answer is an
    unguessed letter; afterwards the tables are still those of the Builder,
    up to empty counters that queries added, and the caller's weights are as
    they were. *)
Theorem ngram_guesser_succeeds
    ln train_set mask guessed n l w (L : Lambdas) :
  built_from train_set (ngram_counts w) →
  (1 ≤ n ≤ 5)%nat →
  heap w !! l = Some L →
  (∀ k, (1 ≤ k ≤ n)%nat → is_Some (L !! k)) →
  (∀ k, (0 <= weight L k)%Q ∧ (weight L k <= 1)%Q) →
  "_" ∈ mask →
  (∃ x, x ∈ ascii_lowercase ∧ x ∉ guessed) →
  (∀ x, x ∈ ascii_lowercase → x ∉ guessed →
        (float_min
         <= weight L 1 * inject_Z (count1 (ngram_counts w) x)
            / inject_Z (total1 (ngram_counts w)))%Q) →
  ∃ letter_choice w',
    ngram_guesser ln mask guessed (Some n) (Some l) w = (Ok letter_choice, w')
    ∧ letter_choice ∈ ascii_lowercase ∧ (letter_choice ∉ guessed)
    ∧ built_from train_set (ngram_counts w') ∧ heap w' !! l = Some L.
Proof.
  intros Hb Hn HL Hkeys Hw Hblank (x0 & Hx0 & Hn0) Hterm.
  assert (∀ k, (0 <= weight L k)%Q) as Hnn by (intros k; apply Hw).
  assert (∀ x, x ∈ ascii_lowercase → x ∉ guessed →
               (0 < weight L 1)%Q ∧ (0 < count1 (ngram_counts w) x)%Z) as Hinv.
  { intros x Hx Hnew.
    apply (first_term_inv _ _ (total1 (ngram_counts w))); [done| |].
    - apply (order_count_nonneg (ngram_counts w) (KTuple []) x 1).
      by apply (built_from_counts_nonneg train_set).
    - eapply Qlt_le_trans; [apply float_min_pos|by apply Hterm]. }
  assert (0 < weight L 1)%Q as H1 by (by destruct (Hinv x0 Hx0 Hn0)).
  assert (∀ x, x ∈ ascii_lowercase → x ∉ guessed →
               (0 < count1 (ngram_counts w) x)%Z) as Hseen
    by (intros x Hx Hnew; by destruct (Hinv x Hx Hnew)).
  clear Hinv Hterm Hw.
  rewrite (ngram_guesser_given ln mask guessed n l w L)
    by (try apply Hkeys; first [lia|done]).
  unfold bind.
  assert (total1 (train train_set) ≠ 0%Z) as Ht.
  { pose proof (Hseen x0 Hx0 Hn0) as Hc.
    pose proof (built_from_counts_nonneg _ _ Hb) as HT.
    pose proof (proj2 (counter_total_bounds _ (proj1 HT)) x0).
    unfold total1, count1 in *. rewrite <- (proj1 Hb). lia. }
  destruct (for_positions_seen ln train_set n l L Hn Hkeys Ht
              (seq 0 (length (convert_word mask 2))) (convert_word mask 2)
              (filter (λ letter, letter ∉ guessed) ascii_lowercase) [] w
              Hb HL Hnn H1) as (lp & w' & E & Hb' & HL' & Hne).
  { intros x [Hx Hin]%list_elem_of_filter.
    unfold count1 in *. rewrite <- (proj1 Hb). by apply Hseen. }
  rewrite E.
  destruct (py_max_not_nil lp) as (g & v & Emax).
  { apply Hne. right. split; [|by apply blank_position].
    intros Hnil.
    assert (x0 ∈ filter (λ letter, letter ∉ guessed) ascii_lowercase) as Hin
      by (by apply list_elem_of_filter).
    rewrite Hnil in Hin. by apply elem_of_nil in Hin. }
  rewrite Emax. exists g, w'. split; [done|].
  apply py_max_key in Emax.
  destruct (for_positions_keys _ _ _ _ _ _ _ _ _ _ _ E Emax) as [H|H].
  - by apply elem_of_nil in H.
  - apply list_elem_of_filter in H as [? ?]. done.
Qed.

(** * Closed examples of the further properties *)

Lemma example_lambdas_all_keys k :
  (k ≤ 2)%nat → is_Some (example_lambdas !! k).
Proof.
  intros Hk. destruct k as [|[|[|k]]]; try lia; vm_compute; eauto.
Defined.

Lemma lowercase_word_Forall s :
  Forall (λ c, c ∈ ascii_lowercase) (chars s) → lowercase_word s.
Proof. intros H c Hc. by apply (proj1 (Forall_forall _ _) H). Defined.

Lemma lowercase_cat : lowercase_word "cat".
Proof.
  apply lowercase_word_Forall.
  apply (bool_decide_unpack (Forall (λ c, c ∈ ascii_lowercase) (chars "cat"))).
  vm_compute. exact I.
Defined.

Lemma lowercase_bat : lowercase_word "bat".
Proof.
  apply lowercase_word_Forall.
  apply (bool_decide_unpack (Forall (λ c, c ∈ ascii_lowercase) (chars "bat"))).
  vm_compute. exact I.
Defined.

Lemma letter_left_initially : ∃ x, x ∈ ascii_lowercase ∧ x ∉ (∅ : gset string).
Proof. exists "a". split; [by left|]. apply not_elem_of_empty. Defined.

Lemma get_ngram_counts_counts_witness :
  kcount (train example_train_set) 2 (KStr "a") "t"
  = count_in (key_items (KStr "a") ++ ["t"])%list
             (all_n_grams example_train_set 2)
  ∧ table (train example_train_set) 2 !! KTuple ["c"; "a"] = None.
Proof.
  split.
  - apply (get_ngram_counts_counts example_train_set 2 (KStr "a") "t").
    + lia.
    + reflexivity.
  - apply (get_ngram_counts_counts example_train_set 2 (KTuple ["c"; "a"]) "t").
    + lia.
    + simpl. lia.
Defined.

Lemma get_ngram_counts_total_witness :
  table_total (get_ngram_counts example_train_set 2)
  = Z.of_nat (sum_nat (map (λ w, String.length w + 2 - 1)%nat
                           example_train_set)).
Proof. apply (get_ngram_counts_total example_train_set 2). lia. Defined.

Lemma get_ngram_counts_other_orders_witness :
  get_ngram_counts example_train_set 6 = ∅.
Proof. apply (get_ngram_counts_other_orders example_train_set 6). lia. Defined.

Lemma convert_word_padding_witness :
  convert_word ["C"; "a"; "t"] 1 = map lower ["C"; "a"; "t"].
Proof.
  apply (proj2 (proj2 (proj2 (convert_word_padding ["C"; "a"; "t"] 1)))). lia.
Defined.

Lemma missing_weight_raises_KeyError_witness :
  (accumulate_prob "c" ["a"; "t"] 3 0 example_world).1 = Raise KeyError
  ∧ ∀ ln, (get_ngram_prob ln "c" ["a"; "t"] 3 0 example_world).1
          = Raise KeyError.
Proof.
  apply (missing_weight_raises_KeyError "c" ["a"; "t"] 3 0 example_world
           example_lambdas 3).
  - reflexivity.
  - lia.
  - lia.
  - reflexivity.
Defined.

Lemma empty_unigram_raises_TypeError_witness :
  (accumulate_prob "c" ["a"] 2 0 example_empty_world).1 = Raise TypeError
  ∧ (∀ ln, (get_ngram_prob ln "c" ["a"] 2 0 example_empty_world).1
           = Raise TypeError)
  ∧ ∃ a b,
      (cascade_spec (ngram_counts example_empty_world) (conditional_of ["a"])
         "c" 2 0 example_lambdas).2 !! 1%nat = Some b
      ∧ example_lambdas !! 0%nat = Some a
      ∧ dict_at (accumulate_prob "c" ["a"] 2 0 example_empty_world).2 0
          !! 0%nat = Some (a + b)%Q.
Proof.
  apply (empty_unigram_raises_TypeError "c" ["a"] 2 0 example_empty_world
           example_lambdas).
  - lia.
  - reflexivity.
  - apply example_lambdas_all_keys.
  - reflexivity.
Defined.

Lemma prob_between_zero_and_weights_witness :
  ∃ p w',
    accumulate_prob "c" ["q"] 2 0 example_world = (Ok p, w')
    ∧ (0 <= p)%Q ∧ (p <= sum_orders (weight example_lambdas) 2)%Q.
Proof.
  apply (prob_between_zero_and_weights example_train_set "c" ["q"] 2 0
           example_world example_lambdas).
  - apply built_from_train.
  - lia.
  - reflexivity.
  - apply example_lambdas_keys.
  - apply example_lambdas_nonneg.
  - vm_compute. discriminate.
Defined.

Lemma unigram_order_is_pure_witness :
  ∃ p,
    accumulate_prob "c" ["a"] 1 0 example_world = (Ok p, example_world)
    ∧ (p == (1 # 100) * inject_Z (count1 (ngram_counts example_world) "c")
            / inject_Z (total1 (ngram_counts example_world)))%Q.
Proof.
  apply (unigram_order_is_pure "c" ["a"] 0 example_world example_lambdas
           (1 # 100)%Q).
  - reflexivity.
  - reflexivity.
  - vm_compute. discriminate.
Defined.

Lemma seen_context_plain_interpolation_witness :
  ∃ p,
    accumulate_prob "t" ["a"] 2 0 example_world = (Ok p, example_world)
    ∧ (p == sum_orders
              (λ k, weight example_lambdas k
                    * inject_Z (order_count (ngram_counts example_world)
                                  (conditional_of ["a"]) "t" k)
                    / inject_Z (order_total (ngram_counts example_world)
                                  (conditional_of ["a"]) k)) 2)%Q.
Proof.
  apply (seen_context_plain_interpolation "t" ["a"] 2 0 example_world
           example_lambdas).
  - lia.
  - reflexivity.
  - apply example_lambdas_keys.
  - intros k Hk. destruct k as [|[|[|k]]]; try lia; vm_compute; discriminate.
Defined.

Lemma empty_context_is_unigram_witness :
  ∃ p w',
    accumulate_prob "t" [] 2 0 example_world = (Ok p, w')
    ∧ (p == sum_orders (weight example_lambdas) 2
            * inject_Z (count1 (ngram_counts example_world) "t")
            / inject_Z (total1 (ngram_counts example_world)))%Q.
Proof.
  apply (empty_context_is_unigram example_train_set "t" 2 0 example_world
           example_lambdas).
  - apply built_from_train.
  - lia.
  - reflexivity.
  - apply example_lambdas_keys.
  - vm_compute. discriminate.
Defined.

Lemma context_at_cells_witness :
  let word := convert_word ["c"; "_"; "t"; "_"] 2 in
  let ctx := context_at word 3 4 in
  (length ctx ≤ 3 - 1)%nat ∧ (length ctx ≤ 4)%nat
  ∧ ctx = take (length ctx) (drop (4 - length ctx) word)
  ∧ ("_" ∉ ctx)
  ∧ (length ctx = (3 - 1)%nat ∨ length ctx = 4%nat
     ∨ item word (4 - length ctx - 1) = "_").
Proof.
  apply (context_at_cells (convert_word ["c"; "_"; "t"; "_"] 2) 3 4).
  vm_compute. lia.
Defined.

Lemma ngram_guesser_returns_new_letter_witness :
  ∃ letter_choice w',
    ngram_guesser any_log ["_"; "a"; "t"] example_guessed (Some 2%nat)
      (Some 0%nat) example_world = (Ok letter_choice, w')
    ∧ letter_choice ∈ ascii_lowercase ∧ letter_choice ∉ example_guessed.
Proof.
  destruct (ngram_guesser any_log ["_"; "a"; "t"] example_guessed (Some 2%nat)
              (Some 0%nat) example_world) as [[letter_choice|e] w'] eqn:E.
  - exists letter_choice, w'. split; [reflexivity|].
    apply (ngram_guesser_returns_new_letter any_log ["_"; "a"; "t"]
             example_guessed (Some 2%nat) (Some 0%nat) example_world
             letter_choice w' E).
  - vm_compute in E. discriminate E.
Defined.

Lemma ngram_guesser_nothing_to_guess_witness :
  (ngram_guesser any_log ["c"; "a"; "t"] ∅ (Some 2%nat) (Some 0%nat)
     example_world).1 = Raise ValueError.
Proof.
  apply (ngram_guesser_nothing_to_guess any_log ["c"; "a"; "t"] ∅
           (Some 2%nat) (Some 0%nat) example_world).
  left. apply (bool_decide_unpack ("_" ∉ ["c"; "a"; "t"])). vm_compute. exact I.
Defined.

Lemma ngram_guesser_default_weights_need_order_1_witness :
  (ngram_guesser any_log ["_"; "a"; "t"] ∅ (Some 2%nat) None
     example_world).1 = Raise KeyError.
Proof.
  apply (ngram_guesser_default_weights_need_order_1 any_log ["_"; "a"; "t"] ∅
           2 None example_world "a").
  - lia.
  - left. reflexivity.
  - by left.
  - by left.
  - apply not_elem_of_empty.
Defined.

Lemma reveal_cells_witness :
  length (reveal "cat" "a" ["_"; "_"; "_"]) = length ["_"; "_"; "_"]
  ∧ ∀ i, reveal "cat" "a" ["_"; "_"; "_"] !! i
         = if decide (chars "cat" !! i = Some "a") then Some "a"
           else ["_"; "_"; "_"] !! i.
Proof. apply (reveal_cells "cat" "a" ["_"; "_"; "_"]). reflexivity. Defined.

Lemma hangman_new_letters_bound_witness :
  ∃ m st',
    hangman trivial_guesser 40 "bat" 8 example_rng = Some (Ok m, st')
    ∧ (0 ≤ m ≤ 26 - Z.of_nat (size (letters_of "bat")))%Z.
Proof.
  apply (hangman_new_letters_bound trivial_guesser trivial_guesser_new 40
           "bat" 8 example_rng).
  - apply lowercase_bat.
  - vm_compute. lia.
Defined.

Lemma trivial_guesser_new_letter_witness :
  (∃ g, trivial_guesser ["_"] ∅ example_rng = (Ok g, λ i, example_rng (S i))
        ∧ g ∈ ascii_lowercase ∧ g ∉ (∅ : gset string))
  ∧ trivial_guesser ["_"] alphabet example_rng = (Raise ValueError, example_rng).
Proof.
  split.
  - apply (proj1 (trivial_guesser_new_letter ["_"] ∅ example_rng)).
    apply letter_left_initially.
  - apply (proj2 (trivial_guesser_new_letter ["_"] alphabet example_rng)).
    intros x Hx. by apply elem_of_alphabet.
Defined.

Lemma hangman_trivial_guesser_witness :
  ∃ m rng',
    hangman trivial_guesser 40 "cat" 8 example_rng = Some (Ok m, rng')
    ∧ (0 ≤ m ≤ 26 - Z.of_nat (size (letters_of "cat")))%Z.
Proof.
  apply (hangman_trivial_guesser 40 "cat" 8 example_rng).
  - apply lowercase_cat.
  - vm_compute. lia.
Defined.

Lemma hangman_no_turn_witness :
  hangman (always "z") 1 "cat" 0 tt = Some (Ok 0%Z, tt).
Proof. apply (hangman_no_turn (always "z") 1 "cat" 0 tt); lia. Defined.

Lemma evaluate_model_mean_witness :
  evaluate_model (always "z") [] tt = Some (PRaise ZeroDivisionError, tt)
  ∧ ∃ r st',
      evaluate_model (always "z") ["cat"; "bat"] tt = Some (r, st')
      ∧ match r with
        | POk avg_mistakes => (0 <= avg_mistakes)%Q ∧ (avg_mistakes <= 26)%Q
        | PRaise ZeroDivisionError => False
        | PRaise (Exn e) =>
            ∃ mask guessed st0 st1,
              always "z" mask guessed st0 = (Raise e, st1)
        end.
Proof.
  split.
  - apply (proj1 (evaluate_model_mean (always "z") [] tt)). reflexivity.
  - apply (proj2 (evaluate_model_mean (always "z") ["cat"; "bat"] tt)).
    discriminate.
Defined.

Lemma evaluate_model_new_letters_witness :
  ∃ avg_mistakes st',
    evaluate_model trivial_guesser ["cat"; "bat"] example_rng
    = Some (POk avg_mistakes, st')
    ∧ (0 <= avg_mistakes)%Q ∧ (avg_mistakes <= 26)%Q.
Proof.
  apply (evaluate_model_new_letters trivial_guesser ["cat"; "bat"] example_rng).
  - apply trivial_guesser_new.
  - discriminate.
  - intros word Hword.
    apply elem_of_cons in Hword as [->|Hword]; [apply lowercase_cat|].
    apply elem_of_cons in Hword as [->|Hword]; [apply lowercase_bat|].
    by apply elem_of_nil in Hword.
Defined.



Lemma unigram_guesser_errors_witness :
  unigram_guesser ∅ ["_"] ∅ = PRaise ZeroDivisionError
  ∧ unigram_guesser example_unigram_counts ["_"] alphabet
    = PRaise (Exn ValueError).
Proof.
  split.
  - apply (proj1 (unigram_guesser_errors ∅ ["_"] ∅)).
    + reflexivity.
    + apply letter_left_initially.
  - apply (proj2 (unigram_guesser_errors example_unigram_counts ["_"]
                    alphabet)).
    intros x Hx. by apply elem_of_alphabet.
Defined.

Lemma get_conditional_unigram_counts_counts_witness :
  is_Some (get_conditional_unigram_counts example_train_set !! 3%nat).
Proof.
  apply (proj2 (get_conditional_unigram_counts_counts example_train_set 3 "a")).
  split; [lia|]. exists "cat". split; [|reflexivity]. right. by left.
Defined.





Lemma example_letters_seen x :
  x ∈ ascii_lowercase → x ∉ example_guessed →
  (float_min
   <= weight example_lambdas 1
      * inject_Z (count1 (ngram_counts example_world) x)
      / inject_Z (total1 (ngram_counts example_world)))%Q.
Proof.
  intros Hx Hnew. unfold ascii_lowercase in Hx. simpl in Hx.
  repeat (apply elem_of_cons in Hx as [->|Hx]);
    try (by apply elem_of_nil in Hx);
    first [ by vm_compute
          | exfalso; apply Hnew;
            apply (bool_decide_unpack (_ ∈ example_guessed)); by vm_compute ].
Defined.


Lemma ngram_guesser_succeeds_witness :
  ∃ letter_choice w',
    ngram_guesser any_log ["_"; "a"; "_"] example_guessed (Some 2%nat)
      (Some 0%nat) example_world = (Ok letter_choice, w')
    ∧ letter_choice ∈ ascii_lowercase ∧ (letter_choice ∉ example_guessed)
    ∧ built_from example_train_set (ngram_counts w')
    ∧ heap w' !! 0%nat = Some example_lambdas.
Proof.
  apply (ngram_guesser_succeeds any_log example_train_set ["_"; "a"; "_"]
           example_guessed 2 0 example_world example_lambdas).
  - apply built_from_train.
  - lia.
  - reflexivity.
  - apply example_lambdas_keys.
  - apply example_lambdas_unit.
  - by left.
  - exists "a". split; [by left|].
    apply (bool_decide_unpack ("a" ∉ example_guessed)). by vm_compute.
  - apply example_letters_seen.
Defined.

Lemma hangman_accepts_any_string_witness :
  hangman (always "zz") 10 "cat" 1 tt
  = hangman_rules (always "zz") 10 (lower "cat") 1 ∅ 0 tt
  ∧ (∃ r st', hangman (always "zz") 10 "cat" 1 tt = Some (r, st')
              ∧ ∀ e, r = Raise e →
                     ∃ mask guessed st0 st1,
                       always "zz" mask guessed st0 = (Raise e, st1))
  ∧ ∃ m st', hangman (always "zz") 10 "cat" 1 tt = Some (Ok m, st')
             ∧ (0 ≤ m)%Z.
Proof.
  pose proof (hangman_accepts_any_string (always "zz") 10 "cat" 1 tt)
    as [Hrules Hrun].
  split; [exact Hrules|].
  destruct Hrun as [Hres Hcount]; [vm_compute; lia|].
  split; [exact Hres|].
  apply Hcount. intros mask guessed st. by exists "zz", st.
Defined.

Lemma get_ngram_counts_lower_witness :
  get_ngram_counts (map lower ["Cats"; "cAt"; "BAT"]) 3
  = get_ngram_counts ["Cats"; "cAt"; "BAT"] 3.
Proof.
  apply (get_ngram_counts_lower ["Cats"; "cAt"; "BAT"] 3).
  intros w Hw.
  repeat (apply elem_of_cons in Hw as [->|Hw]); try reflexivity.
  by apply elem_of_nil in Hw.
Defined.
